(** * AnimatedWidgetsPack: the animation engine

    A shallow embedding of [animated_widgets_pack/animations.py] (the easing
    library, [AnimationConfig] and [AnimationManager]) and of the property
    animation entry point of [animated_widgets_pack/core.py].

    Python's [float] is IEEE 754 binary64 and is modelled by Rocq's primitive
    floats, which are the same format with the same rounding, so that the
    arithmetic of the easing formulas is the arithmetic the program runs.
    Exceptions are values of an error monad.  The animation threads are
    interleaved by an explicit scheduler, which also hands them the readings
    of the clock; each method of the manager runs as one step.  The sleeps
    of a thread are pauses: [time.sleep] only matters where it refuses its
    argument, a negative frame duration (delays beyond what the platform's
    timer accepts are outside the model). *)

From Stdlib Require Import ZArith Floats Lia.
From stdpp Require Import gmap strings list.

Set Warnings "-inexact-float".

(** ** Exceptions *)

Inductive exn : Set :=
| ZeroDivisionError
| ValueError
| OverflowError
| KeyError
| TypeError
| AttributeError.

Inductive result (A : Type) : Type :=
| Ok (a : A)
| Raise (e : exn).

Arguments Ok {A} a.
Arguments Raise {A} e.

Definition bind {A B : Type} (r : result A) (k : A -> result B) : result B :=
  match r with
  | Ok a => k a
  | Raise e => Raise e
  end.

Notation "'try!' x := r 'in' k" := (bind r (fun x => k))
  (at level 10, x name, r at level 100, k at level 200, only parsing).

(** ** Floating point primitives of the interpreter *)

Section PyFloat.
Local Open Scope float_scope.

(** [min(a, b)] of two floats: the builtin keeps its first argument unless
    a later one compares strictly smaller. *)
Definition py_min (a b : float) : float := if b <? a then b else a.

(** [a / b]: true division raises on a zero divisor of either sign. *)
Definition py_div (a b : float) : result float :=
  if b =? 0 then Raise ZeroDivisionError else Ok (a / b).

(** [math.sqrt]: a domain error on negative arguments. *)
Definition math_sqrt (x : float) : result float :=
  if x <? 0 then Raise ValueError else Ok (sqrt x).

(** [math.pi] *)
Definition math_pi : float := 3.141592653589793.
End PyFloat.

(** ** EasingType and EasingFunctions *)

Inductive EasingType : Set :=
| LINEAR
| EASE_IN_QUAD
| EASE_OUT_QUAD
| EASE_IN_OUT_QUAD
| EASE_IN_CUBIC
| EASE_OUT_CUBIC
| EASE_IN_OUT_CUBIC
| BOUNCE_OUT
| ELASTIC_OUT
| EASE_IN_BACK
| EASE_OUT_BACK
| EASE_IN_OUT_BACK
| EASE_IN_CIRC
| EASE_OUT_CIRC
| EASE_IN_OUT_CIRC.

Definition all_easing_types : list EasingType :=
  [LINEAR; EASE_IN_QUAD; EASE_OUT_QUAD; EASE_IN_OUT_QUAD; EASE_IN_CUBIC;
   EASE_OUT_CUBIC; EASE_IN_OUT_CUBIC; BOUNCE_OUT; ELASTIC_OUT; EASE_IN_BACK;
   EASE_OUT_BACK; EASE_IN_OUT_BACK; EASE_IN_CIRC; EASE_OUT_CIRC;
   EASE_IN_OUT_CIRC].

Section EasingFunctions.
Local Open Scope float_scope.

(** The two functions of the C library that the formulas call: [pow(x, y)]
    (the builtin on floats, which raises on overflow) and [math.sin]. *)
Variable math_pow : float -> float -> result float.
Variable math_sin : float -> result float.

Definition linear (t : float) : float := t.

Definition ease_in_quad (t : float) : float := t * t.

Definition ease_out_quad (t : float) : float := t * (2 - t).

Definition ease_in_out_quad (t : float) : result float :=
  if t <? 0.5 then Ok (2 * t * t)
  else (try! p := math_pow (-2 * t + 2) 2 in Ok (1 - p / 2)).

Definition ease_in_cubic (t : float) : float := t * t * t.

Definition ease_out_cubic (t : float) : result float :=
  try! p := math_pow (1 - t) 3 in Ok (1 - p).

Definition ease_in_out_cubic (t : float) : result float :=
  if t <? 0.5 then Ok (4 * t * t * t)
  else (try! p := math_pow (-2 * t + 2) 3 in Ok (1 - p / 2)).

Definition bounce_out (t : float) : float :=
  if t <? 1 / 2.75 then 7.5625 * t * t
  else if t <? 2 / 2.75 then
    let t := t - 1.5 / 2.75 in 7.5625 * t * t + 0.75
  else if t <? 2.5 / 2.75 then
    let t := t - 2.25 / 2.75 in 7.5625 * t * t + 0.9375
  else
    let t := t - 2.625 / 2.75 in 7.5625 * t * t + 0.984375.

Definition elastic_out (t : float) : result float :=
  if (t =? 0) || (t =? 1) then Ok t
  else
    try! p := math_pow 2 (-10 * t) in
    try! s := math_sin ((t * 10 - 0.75) * (2 * math_pi) / 3) in
    Ok (p * s + 1).

Definition ease_in_back (t : float) : float :=
  let c1 := 1.70158 in
  let c3 := c1 + 1 in
  c3 * t * t * t - c1 * t * t.

Definition ease_out_back (t : float) : result float :=
  let c1 := 1.70158 in
  let c3 := c1 + 1 in
  try! p3 := math_pow (t - 1) 3 in
  try! p2 := math_pow (t - 1) 2 in
  Ok (1 + c3 * p3 + c1 * p2).

(** The class body defines [ease_in_out_back] twice; the later definition
    (the one-line conditional) is the one bound to the name. *)
Definition ease_in_out_back (t : float) : result float :=
  let c1 := 1.70158 in
  let c2 := c1 * 1.525 in
  if t <? 0.5 then Ok ((2 * t * t * ((c2 + 1) * 2 * t - c2)) / 2)
  else
    try! p := math_pow (2 * t - 2) 2 in
    Ok ((p * ((c2 + 1) * (t * 2 - 2) + c2) + 2) / 2).

Definition ease_in_circ (t : float) : result float :=
  try! p := math_pow t 2 in
  try! s := math_sqrt (1 - p) in
  Ok (1 - s).

Definition ease_out_circ (t : float) : result float :=
  try! p := math_pow (t - 1) 2 in
  math_sqrt (1 - p).

Definition ease_in_out_circ (t : float) : result float :=
  if t <? 0.5 then
    try! p := math_pow (2 * t) 2 in
    try! s := math_sqrt (1 - p) in
    Ok ((1 - s) / 2)
  else
    try! p := math_pow (-2 * t + 2) 2 in
    try! s := math_sqrt (1 - p) in
    Ok ((s + 1) / 2).

(** [AnimationManager._easing_functions] *)
Definition _easing_functions (k : EasingType) : float -> result float :=
  match k with
  | LINEAR => fun t => Ok (linear t)
  | EASE_IN_QUAD => fun t => Ok (ease_in_quad t)
  | EASE_OUT_QUAD => fun t => Ok (ease_out_quad t)
  | EASE_IN_OUT_QUAD => ease_in_out_quad
  | EASE_IN_CUBIC => fun t => Ok (ease_in_cubic t)
  | EASE_OUT_CUBIC => ease_out_cubic
  | EASE_IN_OUT_CUBIC => ease_in_out_cubic
  | BOUNCE_OUT => fun t => Ok (bounce_out t)
  | ELASTIC_OUT => elastic_out
  | EASE_IN_BACK => fun t => Ok (ease_in_back t)
  | EASE_OUT_BACK => ease_out_back
  | EASE_IN_OUT_BACK => ease_in_out_back
  | EASE_IN_CIRC => ease_in_circ
  | EASE_OUT_CIRC => ease_out_circ
  | EASE_IN_OUT_CIRC => ease_in_out_circ
  end.
End EasingFunctions.

(** A [pow] that is exact where the C standard makes it so: on the bases
    [0], [1] and [-1] with the exponents [2] and [3] of the formulas. *)
Definition pow_exact_on_units (math_pow : float -> float -> result float) : Prop :=
  math_pow 0%float 2%float = Ok 0%float /\
  math_pow 1%float 2%float = Ok 1%float /\
  math_pow (-1)%float 2%float = Ok 1%float /\
  math_pow 0%float 3%float = Ok 0%float /\
  math_pow 1%float 3%float = Ok 1%float /\
  math_pow (-1)%float 3%float = Ok (-1)%float.

(** Squares and cubes by multiplication: one instance of such a [pow]. *)
Definition pow_by_mul (x y : float) : result float :=
  if (y =? 2)%float then Ok (x * x)%float
  else if (y =? 3)%float then Ok (x * x * x)%float
  else Raise ValueError.

Definition sin_unavailable (x : float) : result float := Raise ValueError.

(** [f(t) == v] as the interpreter compares floats ([-0.0 == 0.0]). *)
Definition returns_eq (r : result float) (v : float) : Prop :=
  exists x, r = Ok x /\ (x =? v)%float = true.

Definition boundary_values (f : float -> result float) : Prop :=
  returns_eq (f 0%float) 0%float /\ returns_eq (f 1%float) 1%float.

(** ** AnimationConfig *)

(** The value of [config.easing]: a member of [EasingType], or any other
    (hashable) object, which the manager's table does not know. *)
Inductive easing_selector : Set :=
| Member (k : EasingType)
| NotAMember (repr : string).

Record AnimationConfig : Set := {
  duration : float;
  easing : easing_selector;
  fps : Z;
  auto_reverse : bool;
  repeat_count : Z;
  delay : float
}.

Definition default_config : AnimationConfig :=
  {| duration := 0.3; easing := Member EASE_OUT_CUBIC; fps := 60;
     auto_reverse := false; repeat_count := 1; delay := 0.0 |}.

(** ** Animation threads *)

(** Where a thread stands in [_animation_loop].  A step of the thread runs
    the code between two of these points; the points are those at which the
    thread reads what other threads write ([do_run], the registry), calls a
    callback, or sleeps. *)
Inductive position : Set :=
| AtDelay                                     (* started, before the loop *)
| AtFor (repeat : Z)                          (* head of the [for] loop *)
| AtWhile (repeat : Z) (start_time : float)   (* reads [do_run] *)
| AtTick (repeat : Z) (start_time : float)    (* [do_run] read as true *)
| AtSleep (repeat : Z) (start_time : float)   (* [time.sleep(frame_duration)] *)
| AtCleanup                                   (* after the loop *)
| AtCompletion                                (* registry cleaned *)
| Finished
| Died (e : exn).                             (* exception left the thread *)

(** A callback is known by whether it raises an [Exception]. *)
Record thread : Type := {
  animation_id : string;
  start_value : float;
  end_value : float;
  update_callback : float -> bool;            (* raises on this value? *)
  config : AnimationConfig;
  completion_callback : option bool;          (* [None]: no callback *)
  do_run : bool;
  at_ : position
}.

Definition set_do_run (b : bool) (t : thread) : thread :=
  {| animation_id := animation_id t; start_value := start_value t;
     end_value := end_value t; update_callback := update_callback t;
     config := config t; completion_callback := completion_callback t;
     do_run := b; at_ := at_ t |}.

Definition set_at (p : position) (t : thread) : thread :=
  {| animation_id := animation_id t; start_value := start_value t;
     end_value := end_value t; update_callback := update_callback t;
     config := config t; completion_callback := completion_callback t;
     do_run := do_run t; at_ := p |}.

(** What the callbacks' caller can observe.  [UpdateCalled] carries, next to
    the delivered value, the raw progress it was computed from (a ghost
    field: the callback receives the value only). *)
Inductive event : Set :=
| UpdateCalled (th : nat) (raw_progress value : float)
| CompletionCalled (th : nat)
| ErrorPrinted (th : nat).

(** ** AnimationManager *)

(** [_active_animations] maps an animation id to a thread object, here the
    index of the thread among all the threads ever created. *)
Record manager : Type := {
  _active_animations : gmap string nat;
  threads : list thread;
  log : list event
}.

Definition new_manager : manager :=
  {| _active_animations := ∅; threads := []; log := [] |}.

(** [d[k]] and [del d[k]] raise [KeyError] on a missing key. *)
Definition dict_getitem {V : Type} (d : gmap string V) (k : string) : result V :=
  match d !! k with
  | Some v => Ok v
  | None => Raise KeyError
  end.

Definition dict_delitem {V : Type} (d : gmap string V) (k : string)
  : result (gmap string V) :=
  match d !! k with
  | Some _ => Ok (delete k d)
  | None => Raise KeyError
  end.

Definition stop_animation (id : string) (m : manager) : result manager :=
  if bool_decide (is_Some (_active_animations m !! id)) then
    try! th := dict_getitem (_active_animations m) id in
    let ts := alter (set_do_run false) th (threads m) in
    try! d := dict_delitem (_active_animations m) id in
    Ok {| _active_animations := d; threads := ts; log := log m |}
  else Ok m.

Definition animate (id : string) (start_value end_value : float)
    (update_callback : float -> bool) (config : option AnimationConfig)
    (completion_callback : option bool) (m : manager) : result manager :=
  let config := default default_config config in
  try! m := stop_animation id m in
  let animation_thread :=
    {| animation_id := id; start_value := start_value;
       end_value := end_value; update_callback := update_callback;
       config := config; completion_callback := completion_callback;
       do_run := true; at_ := AtDelay |} in
  Ok {| _active_animations :=
          <[id := length (threads m)]> (_active_animations m);
        threads := threads m ++ [animation_thread];
        log := log m |}.

Definition stop_all_animations (m : manager) : manager :=
  {| _active_animations := ∅;
     threads :=
       foldr (fun th ts => alter (set_do_run false) th ts) (threads m)
             (map snd (map_to_list (_active_animations m)));
     log := log m |}.

Definition is_animating (id : string) (m : manager) : bool :=
  bool_decide (is_Some (_active_animations m !! id)).

Definition get_active_count (m : manager) : nat :=
  size (_active_animations m).

(** ** The animation loop *)

(** [1.0 / config.fps] converts the integer to a float first, which raises
    when it rounds beyond the largest float. *)
Definition int_fits_float (n : Z) : bool :=
  (Z.abs n <? 2 ^ 1024 - 2 ^ 970)%Z.

Record step_outcome : Set := {
  next : position;
  emitted : list event;
  unregisters : bool
}.

Definition goto (p : position) : step_outcome :=
  {| next := p; emitted := []; unregisters := false |}.

Section AnimationLoop.
Local Open Scope float_scope.

Variable math_pow : float -> float -> result float.
Variable math_sin : float -> result float.

(** [self._easing_functions.get(config.easing, EasingFunctions.ease_out_cubic)] *)
Definition easing_func (sel : easing_selector) : float -> result float :=
  match sel with
  | Member k => _easing_functions math_pow math_sin k
  | NotAMember _ => ease_out_cubic math_pow
  end.

(** The body of the [while] loop up to the value handed to the callback:
    the raw progress and the current value, or the exception raised. *)
Definition current_value (t : thread) (repeat : Z) (start_time now : float)
  : result (float * float) :=
  let elapsed := now - start_time in
  try! q := py_div elapsed (duration (config t)) in
  let progress := py_min q 1.0 in
  try! eased_progress := easing_func (easing (config t)) progress in
  let eased_progress :=
    if auto_reverse (config t) && (repeat mod 2 =? 1)%Z
    then 1.0 - eased_progress else eased_progress in
  Ok (progress,
      start_value t + (end_value t - start_value t) * eased_progress).

(** One step of thread [i], which reads the clock as [now] if it reads it. *)
Definition _animation_loop (i : nat) (now : float) (t : thread) : step_outcome :=
  let c := config t in
  match at_ t with
  | AtDelay =>
      (* [if config.delay > 0: time.sleep(config.delay)] has paused the
         thread; then the set-up of the loop *)
      if negb (int_fits_float (fps c)) then goto (Died OverflowError)
      else if (fps c =? 0)%Z then goto (Died ZeroDivisionError)
      else goto (AtFor 0)
  | AtFor repeat =>
      if (repeat <? repeat_count c)%Z then goto (AtWhile repeat now)
      else goto AtCleanup
  | AtWhile repeat start_time =>
      if do_run t then goto (AtTick repeat start_time)
      else goto (AtFor (repeat + 1))
  | AtTick repeat start_time =>
      match current_value t repeat start_time now with
      | Raise e => goto (Died e)
      | Ok (progress, value) =>
          if update_callback t value then
            (* the handler prints and breaks out of the [while] loop *)
            {| next := AtFor (repeat + 1);
               emitted := [UpdateCalled i progress value; ErrorPrinted i];
               unregisters := false |}
          else
            {| next := if 1.0 <=? progress then AtFor (repeat + 1)
                       else AtSleep repeat start_time;
               emitted := [UpdateCalled i progress value];
               unregisters := false |}
      end
  | AtSleep repeat start_time =>
      (* a negative frame duration is refused by [time.sleep] *)
      if (fps c <? 0)%Z then goto (Died ValueError)
      else goto (AtWhile repeat start_time)
  | AtCleanup =>
      {| next := AtCompletion; emitted := []; unregisters := true |}
  | AtCompletion =>
      match completion_callback t with
      | None => goto Finished
      | Some raises =>
          {| next := Finished;
             emitted := CompletionCalled i ::
                        (if raises then [ErrorPrinted i] else []);
             unregisters := false |}
      end
  | Finished => goto Finished
  | Died e => goto (Died e)
  end.

(** The scheduler lets thread [i] take one step. *)
Definition step_thread (i : nat) (now : float) (m : manager) : manager :=
  match threads m !! i with
  | None => m
  | Some t =>
      let o := _animation_loop i now t in
      {| _active_animations :=
           if unregisters o
           then delete (animation_id t) (_active_animations m)
           else _active_animations m;
         threads := <[i := set_at (next o) t]> (threads m);
         log := log m ++ emitted o |}
  end.

(** ** Runs: calls of the manager's methods interleaved with thread steps *)

Inductive action : Type :=
| Animate (id : string) (start_value end_value : float)
          (update_callback : float -> bool)
          (config : option AnimationConfig)
          (completion_callback : option bool)
| StopAnimation (id : string)
| StopAll
| Step (th : nat) (now : float).

Definition exec (a : action) (m : manager) : result manager :=
  match a with
  | Animate id s e u c k => animate id s e u c k m
  | StopAnimation id => stop_animation id m
  | StopAll => Ok (stop_all_animations m)
  | Step th now => Ok (step_thread th now m)
  end.

Fixpoint run (acts : list action) (m : manager) : result manager :=
  match acts with
  | [] => Ok m
  | a :: acts => try! m := exec a m in run acts m
  end.
End AnimationLoop.

(** The callbacks of thread [th] among the events. *)
Definition is_update_of (th : nat) (ev : event) : bool :=
  match ev with
  | UpdateCalled i _ _ => Nat.eqb i th
  | _ => false
  end.

Definition is_completion_of (th : nat) (ev : event) : bool :=
  match ev with
  | CompletionCalled i => Nat.eqb i th
  | _ => false
  end.

Definition updates_of (th : nat) (l : list event) : list event :=
  List.filter (is_update_of th) l.

Definition completions_of (th : nat) (l : list event) : list event :=
  List.filter (is_completion_of th) l.

(** The events logged after the first [n]. *)
Definition events_since (n : nat) (m : manager) : list event :=
  drop n (log m).

(** ** AnimatedWidget (core.py) *)

Record WidgetConfig : Set := {
  width : Z;
  height : Z;
  background_color : string;
  text_color : string;
  border_radius : Z;
  border_width : Z;
  border_color : string;
  font_family : string;
  font_size : Z;
  animation_duration : float;
  enable_animations : bool
}.

Definition default_widget_config : WidgetConfig :=
  {| width := 120; height := 40; background_color := "#3498db";
     text_color := "#ffffff"; border_radius := 8; border_width := 0;
     border_color := "#2c3e50"; font_family := "Arial"; font_size := 12;
     animation_duration := 0.3; enable_animations := true |}.

(** The values an attribute of a widget holds.  The callbacks table is kept
    as the number of callbacks bound to each event type. *)
Inductive pyval : Type :=
| VFloat (x : float)
| VBool (b : bool)
| VStr (s : string)
| VConfig (c : WidgetConfig)
| VCallbacks (d : gmap string nat)
| VThreads (d : gmap string nat).

(** The thread objects that [animate_property] creates: the arguments of
    [_animate_property_thread] and the [do_run] attribute. *)
Record property_thread : Type := {
  pt_property_name : string;
  pt_start_value : float;
  pt_end_value : float;
  pt_duration : float;
  pt_easing_function : float -> result float;
  pt_do_run : bool
}.

Definition pt_set_do_run (b : bool) (t : property_thread) : property_thread :=
  {| pt_property_name := pt_property_name t;
     pt_start_value := pt_start_value t; pt_end_value := pt_end_value t;
     pt_duration := pt_duration t;
     pt_easing_function := pt_easing_function t; pt_do_run := b |}.

(** A widget: its instance dictionary, the threads it has started, and the
    number of calls made to the abstract [update_appearance]. *)
Record widget : Type := {
  attributes : gmap string pyval;
  property_threads : list property_thread;
  appearance_updates : nat
}.

Definition event_types : list string :=
  ["click"; "hover_enter"; "hover_leave"; "value_changed"; "state_changed";
   "focus_in"; "focus_out"; "validation_error"; "switched_on";
   "switched_off"; "checked"; "unchecked"].

(** [AnimatedWidget.__init__] *)
Definition new_widget (config : option WidgetConfig) : widget :=
  {| attributes :=
       <["config" := VConfig (default default_widget_config config)]>
       (<["_callbacks" :=
            VCallbacks (list_to_map (map (fun e => (e, 0%nat)) event_types))]>
       (<["_current_animations" := VThreads ∅]>
       (<["_widget_state" := VStr "normal"]>
       (<["_is_animating" := VBool false]> ∅))));
     property_threads := [];
     appearance_updates := 0 |}.

(** [setattr(self, name, value)] on an instance of a class without slots,
    properties or [__setattr__]: the instance dictionary is written, except
    for the three names that [object] and the class guard. *)
Definition object_setattr (name : string) (v : pyval) (w : widget)
  : result widget :=
  if bool_decide (name = "__class__") then Raise TypeError
  else if bool_decide (name = "__dict__") then Raise TypeError
  else if bool_decide (name = "__weakref__") then Raise AttributeError
  else Ok {| attributes := <[name := v]> (attributes w);
             property_threads := property_threads w;
             appearance_updates := appearance_updates w |}.

(** [self.config] *)
Definition get_config (w : widget) : result WidgetConfig :=
  match attributes w !! "config" with
  | Some (VConfig c) => Ok c
  | _ => Raise AttributeError
  end.

(** [self._current_animations] *)
Definition get_current_animations (w : widget) : result (gmap string nat) :=
  match attributes w !! "_current_animations" with
  | Some (VThreads d) => Ok d
  | Some _ => Raise TypeError
  | None => Raise AttributeError
  end.

(** [self.update_appearance()]: an attribute of the instance of that name
    hides the method, and the values an instance holds are not callable. *)
Definition call_update_appearance (w : widget) : result widget :=
  match attributes w !! "update_appearance" with
  | Some _ => Raise TypeError
  | None => Ok {| attributes := attributes w;
                  property_threads := property_threads w;
                  appearance_updates := S (appearance_updates w) |}
  end.

Section AnimatedWidget.
Local Open Scope float_scope.

Variable math_pow : float -> float -> result float.

(** [_ease_out_cubic]: [1 - (1 - t) ** 3] *)
Definition _ease_out_cubic (t : float) : result float :=
  try! p := math_pow (1 - t) 3 in Ok (1 - p).

Definition animate_property (property_name : string)
    (start_value end_value : float) (duration : option float)
    (easing_function : option (float -> result float)) (w : widget)
  : result widget :=
  try! c := get_config w in
  if negb (enable_animations c) then
    try! w := object_setattr property_name (VFloat end_value) w in
    call_update_appearance w
  else
    let duration :=
      match duration with
      | Some d => if d =? 0 then animation_duration c else d
      | None => animation_duration c
      end in
    let easing_function := default _ease_out_cubic easing_function in
    try! anims := get_current_animations w in
    let ts :=
      match anims !! property_name with
      | Some th => alter (pt_set_do_run false) th (property_threads w)
      | None => property_threads w
      end in
    let animation_thread :=
      {| pt_property_name := property_name; pt_start_value := start_value;
         pt_end_value := end_value; pt_duration := duration;
         pt_easing_function := easing_function; pt_do_run := true |} in
    Ok {| attributes :=
            <["_current_animations" :=
                VThreads (<[property_name := length ts]> anims)]>
            (attributes w);
          property_threads := ts ++ [animation_thread];
          appearance_updates := appearance_updates w |}.
End AnimatedWidget.

(** ** A thread running alone *)

(** Thread [i] takes one step at each of the clock readings [nows]. *)
Definition run_thread (math_pow : float -> float -> result float)
    (math_sin : float -> result float) (i : nat) (nows : list float)
    (m : manager) : manager :=
  foldl (fun m now => step_thread math_pow math_sin i now m) m nows.

(** What the completion step of a thread logs. *)
Definition completion_events (i : nat) (t : thread) : list event :=
  match completion_callback t with
  | None => []
  | Some raises => CompletionCalled i :: (if raises then [ErrorPrinted i] else [])
  end.

(** The set-up before the loop goes through: the frame rate is a non-zero
    integer within the range of the floats. *)
Definition fps_usable (c : AnimationConfig) : bool :=
  int_fits_float (fps c) && negb (fps c =? 0)%Z.

(** A method of the manager leaves a thread object as it is or clears its
    [do_run]; it never sets it. *)
Definition flag_cleared (t t' : thread) : Prop :=
  t' = t \/ t' = set_do_run false t.

(** The updates still to come from a thread whose flag is cleared: the one
    of the tick it is in, if it is in one. *)
Definition pending (t : thread) : nat :=
  match at_ t with
  | AtTick _ _ => 1
  | _ => 0
  end.

(** A thread that is not in a tick and that its frame rate does not kill:
    with its flag cleared it runs to its end. *)
Definition between_ticks (t : thread) : bool :=
  match at_ t with
  | AtDelay => fps_usable (config t)
  | AtSleep _ _ => negb (fps (config t) <? 0)%Z
  | AtFor _ | AtWhile _ _ | AtCleanup | AtCompletion => true
  | AtTick _ _ | Finished | Died _ => false
  end.

(** ** The properties as the specification words them *)



(** "A tick whose update callback raises is a dropped frame": the thread
    goes on as after a tick whose callback returned. *)
Definition failed_update_is_dropped_frame
    (math_pow : float -> float -> result float)
    (math_sin : float -> result float) (i : nat) (now : float) (t : thread)
  : Prop :=
  forall r st p v,
    at_ t = AtTick r st ->
    current_value math_pow math_sin t r st now = Ok (p, v) ->
    update_callback t v = true ->
    next (_animation_loop math_pow math_sin i now t) =
      if (1 <=? p)%float then AtFor (r + 1) else AtSleep r st.



(** "With animations disabled, [animate_property] sets the attribute, calls
    [update_appearance] once, starts no thread and leaves the current
    animations as they are". *)
Definition sets_property_at_once (math_pow : float -> float -> result float)
    (w : widget) (property_name : string) (s e : float)
    (d : option float) (f : option (float -> result float)) : Prop :=
  exists w',
    animate_property math_pow property_name s e d f w = Ok w' /\
    attributes w' !! property_name = Some (VFloat e) /\
    appearance_updates w' = S (appearance_updates w) /\
    property_threads w' = property_threads w /\
    attributes w' !! "_current_animations"
      = attributes w !! "_current_animations".

(** The attribute names that [animate_property] cannot be given with
    animations disabled and behave as above. *)
Definition guarded_names : list string :=
  ["update_appearance"; "_current_animations"; "__class__"; "__dict__";
   "__weakref__"].

(** ** Scenes *)

Definition never_raises (_ : float) : bool := false.
Definition always_raises (_ : float) : bool := true.

Definition one_second_linear : AnimationConfig :=
  {| duration := 1; easing := Member LINEAR; fps := 60;
     auto_reverse := false; repeat_count := 1; delay := 0 |}.


Definition half_second_delay : AnimationConfig :=
  {| duration := 1; easing := Member LINEAR; fps := 60;
     auto_reverse := false; repeat_count := 1; delay := 0.5 |}.

(** The configuration of the progress bar's pulse (ProgressBar.py), whose
    repeat count is commented as infinite. *)
Definition pulse_config : AnimationConfig :=
  {| duration := 1; easing := Member EASE_IN_OUT_QUAD; fps := 60;
     auto_reverse := true; repeat_count := -1; delay := 0 |}.

Definition ping_pong_config : AnimationConfig :=
  {| duration := 1; easing := Member EASE_IN_QUAD; fps := 60;
     auto_reverse := true; repeat_count := 4; delay := 0 |}.

(** A thread as [animate] creates it. *)
Definition fresh_thread (id : string) (s e : float) (u : float -> bool)
    (c : AnimationConfig) (k : option bool) : thread :=
  {| animation_id := id; start_value := s; end_value := e;
     update_callback := u; config := c; completion_callback := k;
     do_run := true; at_ := AtDelay |}.

(** A manager running one animation. *)
Definition one_animation (t : thread) : manager :=
  {| _active_animations := {[ animation_id t := 0%nat ]};
     threads := [t]; log := [] |}.

Definition disabled_widget : widget :=
  new_widget (Some
    {| width := 120; height := 40; background_color := "#3498db";
       text_color := "#ffffff"; border_radius := 8; border_width := 0;
       border_color := "#2c3e50"; font_family := "Arial"; font_size := 12;
       animation_duration := 0.3; enable_animations := false |}).

(** An animation half way, asleep between two frames. *)
Definition mid_flight : manager :=
  {| _active_animations := {[ "fade" := 0%nat ]};
     threads :=
       [set_at (AtSleep 0 10)
          (fresh_thread "fade" 0 100 never_raises one_second_linear (Some false))];
     log := [UpdateCalled 0 0.5 50] |}.

(** An animation still in its start delay. *)
Definition in_delay : manager :=
  one_animation
    (fresh_thread "fade" 0 100 never_raises half_second_delay (Some false)).

(** ** Binary64 rounding, on integers

    What the order of the raw progress values needs: the subtraction and the
    division of the floats are monotone.  The operations are specified in
    [SpecFloat] as algorithms on mantissas; what they compute is described
    here on integers, every finite float being an integer number of times
    the smallest positive float [2^emin]. *)

Section FloatModel.
Local Open Scope Z_scope.

(** The number of binary digits of an integer. *)
Definition dg (n : Z) : Z := Zdigits2 n.

(** The integer nearest to [q + r / D], ties to even, for [0 <= r < D]. *)
Definition rne (q r D : Z) : Z :=
  if 2 * r <? D then q
  else if D <? 2 * r then q + 1
  else if Z.even q then q else q + 1.

(** The integer nearest to [A / D]. *)
Definition rnd (A D : Z) : Z := rne (A / D) (A mod D) D.

(** The float nearest to [A / B], both counted in units of [2^emin]: the
    quotient is rounded to [prec] digits, or to a whole number of units
    where it has fewer. *)
Definition round_key (A B : Z) : Z :=
  let E := Z.max (dg (A / B) - prec) 0 in
  rnd A (B * 2 ^ E) * 2 ^ E.

(** A shift record of [SpecFloat] that holds the quotient [X / Y], with its
    round and sticky bits telling where the remainder lies. *)
Definition rec_ok (X Y : Z) (mrs : shr_record) : Prop :=
  shr_m mrs = X / Y /\
  shr_r mrs = (Y <=? 2 * (X mod Y)) /\
  shr_s mrs = negb (X mod Y =? 0) && negb (2 * (X mod Y) =? Y).

(** The location of a remainder [r] of a division by [Y]. *)
Definition loc_of_rem (r Y : Z) : location :=
  if r =? 0 then loc_Exact else loc_Inexact (2 * r ?= Y).

(** Infinity, in units of [2^emin]: above every finite float. *)
Definition INF : Z := 2 ^ (emax - emin).

(** The value of a float in units of [2^emin]; none for a NaN. *)
Definition SFkey (x : spec_float) : option Z :=
  match x with
  | S754_nan => None
  | S754_zero _ => Some 0
  | S754_infinity s => Some (cond_Zopp s INF)
  | S754_finite s m e => Some (cond_Zopp s (Zpos m * 2 ^ (e - emin)))
  end.

(** The value [(X / Y) * 2^(k + emin)] as a quotient of integers, in units
    of [2^emin]. *)
Definition keyA (X k : Z) : Z := X * 2 ^ Z.max k 0.
Definition keyB (Y k : Z) : Z := Y * 2 ^ Z.max (- k) 0.

(** Rounding with overflow to infinity. *)
Definition round_pos (A B : Z) : Z := Z.min (round_key A B) INF.

(** Rounding of a signed number of units: the result of a subtraction. *)
Definition round_signed (K : Z) : Z :=
  if K <? 0 then - round_pos (- K) 1 else round_pos K 1.

Definition is_finite_SF (x : spec_float) : bool :=
  match x with
  | S754_zero _ | S754_finite _ _ _ => true
  | _ => false
  end.

(** The result of dividing [K] units, or an infinity, by [kd] units. *)
Definition round_div (kd K : Z) : Z :=
  if K =? INF then INF
  else if K =? - INF then - INF
  else if K <? 0 then - round_pos (- K * 2 ^ (- emin)) kd
  else round_pos (K * 2 ^ (- emin)) kd.

Definition fkey (x : float) : option Z := SFkey (Prim2SF x).

(** [x <= y] as the interpreter compares floats. *)
Definition fle (x y : float) : Prop := (x <=? y)%float = true.

(** The float [1.0] in units of [2^emin]. *)
Definition K1 : Z := 2 ^ 1074.
End FloatModel.

(** ** Monotonic completion *)

(** The clock readings that the scheduler hands to thread [i] in a run. *)
Fixpoint readings (i : nat) (acts : list action) : list float :=
  match acts with
  | [] => []
  | Step j now :: acts =>
      if Nat.eqb j i then now :: readings i acts else readings i acts
  | _ :: acts => readings i acts
  end.

(** A clock that shows finite times and does not go backwards, from the
    reading [c] on. *)
Fixpoint clock_from (c : option float) (l : list float) : Prop :=
  match l with
  | [] => True
  | x :: l =>
      is_finite x = true /\
      match c with Some c0 => fle c0 x | None => True end /\
      clock_from (Some x) l
  end.

Definition steady_clock (l : list float) : Prop := clock_from None l.

Fixpoint nondecreasing (l : list float) : Prop :=
  match l with
  | x :: l' =>
      match l' with
      | y :: _ => fle x y /\ nondecreasing l'
      | [] => True
      end
  | [] => True
  end.

(** The calls of the callbacks of thread [i] among the events. *)
Definition is_callback_of (i : nat) (ev : event) : bool :=
  is_update_of i ev || is_completion_of i ev.

Definition callbacks_of (i : nat) (l : list event) : list event :=
  List.filter (is_callback_of i) l.

(** A tick: the raw progress and the value delivered. *)
Definition tick_event (i : nat) (pv : float * float) : event :=
  UpdateCalled i (fst pv) (snd pv).

(** The raw progress at clock reading [now] of an iteration started at
    [start_time]. *)
Definition progress_at (t : thread) (start_time now : float) : float :=
  py_min ((now - start_time) / duration (config t)) 1.

Section MonotonicCompletion.
Variable math_pow : float -> float -> result float.
Variable math_sin : float -> result float.
Variable i : nat.
Variable t : thread.

(** The value of a tick is interpolated at the eased raw progress, which
  is the elapsed share of the duration, capped at [1]. *)
Definition interpolated (pv : float * float) : Prop :=
(exists start_time now, fst pv = progress_at t start_time now) /\
exists e, easing_func math_pow math_sin (easing (config t)) (fst pv) = Ok e /\
          snd pv = (start_value t + (end_value t - start_value t) * e)%float.

Definition ticks_ok (ticks : list (float * float)) : Prop :=
nondecreasing (map fst ticks) /\ Forall interpolated ticks.

(** The last tick was made at raw progress [1]. *)
Definition ends_at_one (ticks : list (float * float)) : Prop :=
exists e1, easing_func math_pow math_sin (easing (config t)) 1 = Ok e1 /\
  last ticks
  = Some (1%float,
          (start_value t + (end_value t - start_value t) * e1)%float).

(** Inside the iteration started at [start_time], with the clock last read
  as [c]: the ticks made so far are not ahead of any later reading. *)
Definition in_iteration (start_time c : float) (ticks : list (float * float))
: Prop :=
is_finite start_time = true /\ is_finite c = true /\ fle start_time c /\
forall x, is_finite x = true -> fle c x ->
  Forall (fun pv => fle (fst pv) (progress_at t start_time x)) ticks.

(** Where the thread of a single-iteration animation can be, with the ticks
  it has made, the completion calls it has made, and the last reading of
  its clock. *)
Inductive phase :
position -> list (float * float) -> list event -> option float -> Prop :=
| phase_delay c : phase AtDelay [] [] c
| phase_for c : phase (AtFor 0) [] [] c
| phase_while st c ticks :
  in_iteration st c ticks -> phase (AtWhile 0 st) ticks [] (Some c)
| phase_tick st c ticks :
  in_iteration st c ticks -> phase (AtTick 0 st) ticks [] (Some c)
| phase_sleep st c ticks :
  in_iteration st c ticks -> phase (AtSleep 0 st) ticks [] (Some c)
| phase_leave c ticks : ends_at_one ticks -> phase (AtFor 1) ticks [] c
| phase_cleanup c ticks : ends_at_one ticks -> phase AtCleanup ticks [] c
| phase_completion c ticks :
  ends_at_one ticks -> phase AtCompletion ticks [] c
| phase_finished c ticks :
  ends_at_one ticks ->
  phase Finished ticks (callbacks_of i (completion_events i t)) c
| phase_died e c ticks : phase (Died e) ticks [] c.

(** What holds of the run so far: the thread has been flagged, or it is in
  one of the phases and its callbacks were called as the phase says. *)
Definition on_course (m0 m : manager) (c : option float) : Prop :=
exists new, log m = log m0 ++ new /\
  ((exists t', threads m !! i = Some t' /\ do_run t' = false) \/
   (exists pos ticks done,
      threads m !! i = Some (set_at pos t) /\
      phase pos ticks done c /\ ticks_ok ticks /\
      callbacks_of i new = map (tick_event i) ticks ++ done)).
End MonotonicCompletion.

(** "A single iteration without auto-reverse, not stopped, with callbacks
    that do not raise, delivers values of non-decreasing raw progress, the
    last one before the completion callback being exactly the end value". *)
Definition monotonic_completion (math_pow : float -> float -> result float)
    (math_sin : float -> result float) (m : manager) (i : nat)
    (acts : list action) : Prop :=
  forall t m' ticks,
    threads m !! i = Some t ->
    repeat_count (config t) = 1%Z -> auto_reverse (config t) = false ->
    (forall v, update_callback t v = false) ->
    run math_pow math_sin acts m = Ok m' ->
    callbacks_of i (events_since (length (log m)) m')
      = map (tick_event i) ticks ++ [CompletionCalled i] ->
    nondecreasing (map fst ticks) /\
    exists p, last ticks = Some (p, end_value t).

(** A fade from [1.0] to [0.1] in one second. *)
Definition fade_out_scene : manager :=
  one_animation
    (fresh_thread "opacity" 1 0.1 never_raises one_second_linear (Some false)).

(** The thread of the scene runs alone, the clock showing [10] when its
    iteration starts and [11] from its first tick on. *)
Definition fade_out_run : list action :=
  [Step 0 10; Step 0 10; Step 0 10; Step 0 11; Step 0 11; Step 0 11;
   Step 0 11].
(** ** The registry and the threads over whole runs *)

(** The thread has run the cleanup that follows the loops of
    [_animation_loop]. *)
Definition past_cleanup (p : position) : bool :=
  match p with
  | AtCompletion | Finished => true
  | _ => false
  end.

(** What the registry holds after any calls of the manager's methods and any
    steps of its threads: a registered id names a thread that was started
    under this id, whose [do_run] is set and which has not run its
    cleanup. *)
Definition registry_ok (m : manager) : Prop :=
  forall id th, _active_animations m !! id = Some th ->
    exists t, threads m !! th = Some t /\ animation_id t = id /\
              do_run t = true /\ past_cleanup (at_ t) = false.

(** The events that thread [i] has logged. *)
Definition of_thread (i : nat) (ev : event) : bool :=
  match ev with
  | UpdateCalled j _ _ | CompletionCalled j | ErrorPrinted j => Nat.eqb j i
  end.

Definition events_of (i : nat) (l : list event) : list event :=
  List.filter (of_thread i) l.

(** Update calls, then at most one completion call. *)
Definition updates_then_completion (i : nat) (l : list event) : Prop :=
  exists ups done, callbacks_of i l = ups ++ done /\
    Forall (fun ev => is_update_of i ev = true) ups /\
    (done = [] \/ done = [CompletionCalled i]).

(** The thread with [config.auto_reverse] replaced. *)
Definition set_auto_reverse (b : bool) (t : thread) : thread :=
  {| animation_id := animation_id t; start_value := start_value t;
     end_value := end_value t; update_callback := update_callback t;
     config :=
       {| duration := duration (config t); easing := easing (config t);
          fps := fps (config t); auto_reverse := b;
          repeat_count := repeat_count (config t);
          delay := delay (config t) |};
     completion_callback := completion_callback t;
     do_run := do_run t; at_ := at_ t |}.

(** The manager with [f] applied to thread [i]. *)
Definition alter_thread (f : thread -> thread) (i : nat) (m : manager)
  : manager :=
  {| _active_animations := _active_animations m;
     threads := alter f i (threads m);
     log := log m |}.

(** The iterations that a position can belong to when the repeat count is
    at most one: the first one. *)
Definition first_iteration (p : position) : bool :=
  match p with
  | AtFor r => (0 <=? r)%Z
  | AtWhile r _ | AtTick r _ | AtSleep r _ => (r =? 0)%Z
  | _ => true
  end.

(** A frame rate of zero. *)
Definition zero_fps : AnimationConfig :=
  {| duration := 1; easing := Member LINEAR; fps := 0;
     auto_reverse := false; repeat_count := 1; delay := 0 |}.

(** ** The configurations for common patterns (animations.py) *)

Section Helpers.
Local Open Scope float_scope.

(** [AnimationConfig(duration=..., easing=...)] *)
Definition new_config (duration : float) (easing : easing_selector)
  : AnimationConfig :=
  {| duration := duration; easing := easing; fps := 60;
     auto_reverse := false; repeat_count := 1; delay := 0.0 |}.

Definition create_text_input_animation (duration : option float)
  : AnimationConfig :=
  new_config (default 0.25 duration) (Member EASE_OUT_CUBIC).

Definition create_checkbox_animation (animation_type : option string)
    (duration : option float) : AnimationConfig :=
  let animation_type := default "scale" animation_type in
  let duration := default 0.3 duration in
  if String.eqb animation_type "bounce" then
    new_config duration (Member BOUNCE_OUT)
  else if String.eqb animation_type "elastic" then
    new_config duration (Member ELASTIC_OUT)
  else new_config duration (Member EASE_OUT_CUBIC).

Definition create_switch_animation (animation_type : option string)
    (duration : option float) : AnimationConfig :=
  let animation_type := default "slide" animation_type in
  let duration := default 0.3 duration in
  if String.eqb animation_type "bounce" then
    new_config duration (Member BOUNCE_OUT)
  else if String.eqb animation_type "elastic" then
    new_config duration (Member ELASTIC_OUT)
  else new_config duration (Member EASE_OUT_CUBIC).

Definition create_validation_error_animation (duration : option float)
  : AnimationConfig :=
  new_config (default 0.5 duration) (Member EASE_OUT_CUBIC).

Definition create_fade_animation (start_opacity end_opacity : float)
    (duration : option float) : AnimationConfig :=
  new_config (default 0.3 duration) (Member EASE_OUT_QUAD).

Definition create_scale_animation (duration : option float)
    (easing : option easing_selector) : AnimationConfig :=
  new_config (default 0.2 duration) (default (Member BOUNCE_OUT) easing).

Definition create_slide_animation (duration : option float)
    (easing : option easing_selector) : AnimationConfig :=
  new_config (default 0.4 duration) (default (Member EASE_OUT_CUBIC) easing).

Definition create_bounce_animation (duration : option float)
  : AnimationConfig :=
  new_config (default 0.6 duration) (Member BOUNCE_OUT).

Definition create_elastic_animation (duration : option float)
  : AnimationConfig :=
  new_config (default 0.8 duration) (Member ELASTIC_OUT).

Definition create_slider_animation (duration : option float)
    (easing : option easing_selector) : AnimationConfig :=
  new_config (default 0.3 duration) (default (Member EASE_OUT_BACK) easing).
End Helpers.

(** A call of one of these functions. *)
Inductive helper_call : Type :=
| TextInput (duration : option float)
| Checkbox (animation_type : option string) (duration : option float)
| Switch (animation_type : option string) (duration : option float)
| ValidationError (duration : option float)
| Fade (start_opacity end_opacity : float) (duration : option float)
| Scale (duration : option float) (easing : option easing_selector)
| Slide (duration : option float) (easing : option easing_selector)
| Bounce (duration : option float)
| Elastic (duration : option float)
| Slider (duration : option float) (easing : option easing_selector).

Definition config_of (h : helper_call) : AnimationConfig :=
  match h with
  | TextInput d => create_text_input_animation d
  | Checkbox ty d => create_checkbox_animation ty d
  | Switch ty d => create_switch_animation ty d
  | ValidationError d => create_validation_error_animation d
  | Fade x y d => create_fade_animation x y d
  | Scale d e => create_scale_animation d e
  | Slide d e => create_slide_animation d e
  | Bounce d => create_bounce_animation d
  | Elastic d => create_elastic_animation d
  | Slider d e => create_slider_animation d e
  end.

(** ** AnimatedWidget: the property threads (core.py) *)

(** Where a property thread stands in [_animate_property_thread]. *)
Inductive pt_position : Set :=
| PtStart                            (* started: reads the clock *)
| PtWhile (start_time : float)       (* reads [do_run] *)
| PtTick (start_time : float)        (* [do_run] read as true *)
| PtSleep (start_time : float)       (* [time.sleep(1/60)] *)
| PtFinished
| PtDied (e : exn).                  (* exception left the thread *)

(** A widget with its threads running: where each thread stands (a thread
    that has not taken a step is at its start) and, for the record, the
    attributes that the threads have written. *)
Record stage : Type := {
  self : widget;
  places : gmap nat pt_position;
  writes : list (nat * string * float)
}.

Definition on_stage (w : widget) : stage :=
  {| self := w; places := ∅; writes := [] |}.

Definition place (th : nat) (s : stage) : pt_position :=
  default PtStart (places s !! th).

Definition move (th : nat) (p : pt_position) (s : stage) : stage :=
  {| self := self s; places := <[th := p]> (places s); writes := writes s |}.

Section PropertyThread.
Local Open Scope float_scope.

(** The body of the [while] loop up to the value that is written: the raw
    progress and the current value, or the exception raised. *)
Definition property_value (t : property_thread) (start_time now : float)
  : result (float * float) :=
  let elapsed := now - start_time in
  try! q := py_div elapsed (pt_duration t) in
  let progress := py_min q 1.0 in
  try! eased_progress := pt_easing_function t progress in
  Ok (progress,
      pt_start_value t + (pt_end_value t - pt_start_value t) * eased_progress).

(** One step of thread [th], which reads the clock as [now] if it reads
    it. *)
Definition _animate_property_thread (th : nat) (now : float) (s : stage)
  : stage :=
  match property_threads (self s) !! th with
  | None => s
  | Some t =>
      match place th s with
      | PtStart => move th (PtWhile now) s
      | PtWhile start_time =>
          move th (if pt_do_run t then PtTick start_time else PtFinished) s
      | PtTick start_time =>
          match property_value t start_time now with
          | Raise e => move th (PtDied e) s
          | Ok (progress, current_value) =>
              match object_setattr (pt_property_name t) (VFloat current_value)
                      (self s) with
              | Raise e => move th (PtDied e) s
              | Ok w =>
                  let written :=
                    writes s ++ [(th, pt_property_name t, current_value)] in
                  match call_update_appearance w with
                  | Raise e =>
                      {| self := w; places := <[th := PtDied e]> (places s);
                         writes := written |}
                  | Ok w =>
                      {| self := w;
                         places :=
                           <[th := if 1.0 <=? progress then PtFinished
                                   else PtSleep start_time]> (places s);
                         writes := written |}
                  end
              end
          end
      | PtSleep start_time => move th (PtWhile start_time) s
      | PtFinished => s
      | PtDied e => s
      end
  end.
End PropertyThread.

(** The writes of thread [th]. *)
Definition writes_of (th : nat) (l : list (nat * string * float))
  : list (nat * string * float) :=
  List.filter (fun x => Nat.eqb (fst (fst x)) th) l.

(** The writes still to come from a thread whose flag is cleared. *)
Definition pt_pending (p : pt_position) : nat :=
  match p with
  | PtTick _ => 1
  | _ => 0
  end.

(** ** AnimatedWidget: the other methods (core.py) *)

(** The truth value of an attribute. *)
Definition truthy (v : pyval) : bool :=
  match v with
  | VFloat x => negb (x =? 0)%float
  | VBool b => b
  | VStr s => negb (String.eqb s "")
  | VConfig _ => true
  | VCallbacks d => negb (bool_decide (d = ∅))
  | VThreads d => negb (bool_decide (d = ∅))
  end.

(** A value of an attribute handed over as easing function: none of the
    values is callable, so that the thread raises when it calls it; a false
    one is replaced by [animate_property]. *)
Definition as_easing (v : pyval) : option (float -> result float) :=
  if truthy v then Some (fun _ => Raise TypeError) else None.

(** [self.m(...)] with [m] a method of the class: an attribute of the
    instance of that name hides the method and is not callable. *)
Definition bound_method (name : string) (w : widget) : result unit :=
  match attributes w !! name with
  | Some _ => Raise TypeError
  | None => Ok tt
  end.

(** [self._current_animations[k].update_callback = f]: the function is
    stored as an attribute of the thread object, where nothing reads it. *)
Definition set_update_callback (k : string) (w : widget) : result unit :=
  match attributes w !! "_current_animations" with
  | None => Raise AttributeError
  | Some (VThreads d) => try! _ := dict_getitem d k in Ok tt
  | Some (VCallbacks d) => try! _ := dict_getitem d k in Raise AttributeError
  | Some _ => Raise TypeError
  end.

Section WidgetMethods.
Local Open Scope float_scope.
Variable math_pow : float -> float -> result float.

(** [self._ease_out_cubic] read as a value. *)
Definition get_ease_out_cubic (w : widget) : float -> result float :=
  match attributes w !! "_ease_out_cubic" with
  | None => _ease_out_cubic math_pow
  | Some _ => fun _ => Raise TypeError
  end.

(** [fade_in] and [fade_out] pass [self._ease_out_quad], which no class of
    the package defines: only an attribute of the instance can provide
    it. *)
Definition fade (start_value end_value : float) (duration : option float)
    (w : widget) : result widget :=
  match attributes w !! "_ease_out_quad" with
  | None => Raise AttributeError
  | Some v =>
      try! _ := bound_method "animate_property" w in
      animate_property math_pow "opacity" start_value end_value
        (Some (default 0.3 duration)) (as_easing v) w
  end.

Definition fade_in (duration : option float) (w : widget) : result widget :=
  fade 0.0 1.0 duration w.

Definition fade_out (duration : option float) (w : widget) : result widget :=
  fade 1.0 0.0 duration w.

(** [animate_multiple_properties]: the dictionary is given by its items. *)
Definition animate_multiple_properties
    (property_animations : list (string * (float * float)))
    (duration : option float)
    (easing_function : option (float -> result float)) (w : widget)
  : result widget :=
  try! duration :=
    match duration with
    | Some d =>
        if d =? 0 then try! c := get_config w in Ok (animation_duration c)
        else Ok d
    | None => try! c := get_config w in Ok (animation_duration c)
    end in
  let easing_function :=
    match easing_function with
    | Some f => f
    | None => get_ease_out_cubic w
    end in
  foldl (fun r item =>
           try! w := r in
           try! _ := bound_method "animate_property" w in
           animate_property math_pow (fst item) (fst (snd item))
             (snd (snd item)) (Some duration) (Some easing_function) w)
        (Ok w) property_animations.

(** [self.config.width = width; self.config.height = height] *)
Definition resize (width height : Z) (c : WidgetConfig) : WidgetConfig :=
  {| width := width; height := height;
     background_color := background_color c; text_color := text_color c;
     border_radius := border_radius c; border_width := border_width c;
     border_color := border_color c; font_family := font_family c;
     font_size := font_size c; animation_duration := animation_duration c;
     enable_animations := enable_animations c |}.

(** [set_size] *)
Definition set_size (width height : Z) (animate : bool) (w : widget)
  : result widget :=
  try! animated :=
    if animate then try! c := get_config w in Ok (enable_animations c)
    else Ok false in
  if animated then
    try! c := get_config w in
    let easing_function := get_ease_out_cubic w in
    try! _ := bound_method "animate_property" w in
    try! w := animate_property math_pow "size_animation" 0.0 1.0
                (Some (animation_duration c)) (Some easing_function) w in
    try! _ := set_update_callback "size_animation" w in
    Ok w
  else
    try! c := get_config w in
    call_update_appearance
      {| attributes := <["config" := VConfig (resize width height c)]>
                         (attributes w);
         property_threads := property_threads w;
         appearance_updates := appearance_updates w |}.
End WidgetMethods.

Module AnimatedWidget.

(** [is_animating]: [len(self._current_animations) > 0] *)
Definition is_animating (w : widget) : result bool :=
  match attributes w !! "_current_animations" with
  | None => Raise AttributeError
  | Some (VThreads d) => Ok (0 <? size d)%nat
  | Some (VCallbacks d) => Ok (0 <? size d)%nat
  | Some (VStr s) => Ok (0 <? String.length s)%nat
  | Some _ => Raise TypeError
  end.

(** [stop_all_animations] of the widget *)
Definition stop_all_animations (w : widget) : result widget :=
  match attributes w !! "_current_animations" with
  | Some (VThreads d) =>
      Ok {| attributes := <["_current_animations" := VThreads ∅]>
                            (attributes w);
            property_threads :=
              foldr (fun th ts => alter (pt_set_do_run false) th ts)
                    (property_threads w) (map snd (map_to_list d));
            appearance_updates := appearance_updates w |}
  | Some (VCallbacks d) =>
      (* lists of callbacks have no [do_run] *)
      Ok {| attributes := <["_current_animations" := VCallbacks ∅]>
                            (attributes w);
            property_threads := property_threads w;
            appearance_updates := appearance_updates w |}
  | _ => Raise AttributeError
  end.

(** Calls of the widget's methods interleaved with steps of its threads. *)
Inductive action : Type :=
| AnimateProperty (property_name : string) (start_value end_value : float)
                  (duration : option float)
                  (easing_function : option (float -> result float))
| StopAll
| Step (th : nat) (now : float).

Definition call (f : widget -> result widget) (s : stage) : result stage :=
  try! w := f (self s) in
  Ok {| self := w; places := places s; writes := writes s |}.

Definition exec (math_pow : float -> float -> result float) (a : action)
    (s : stage) : result stage :=
  match a with
  | AnimateProperty n x y d f => call (animate_property math_pow n x y d f) s
  | StopAll => call stop_all_animations s
  | Step th now => Ok (_animate_property_thread th now s)
  end.

Fixpoint run (math_pow : float -> float -> result float)
    (acts : list action) (s : stage) : result stage :=
  match acts with
  | [] => Ok s
  | a :: acts => try! s := exec math_pow a s in run math_pow acts s
  end.

End AnimatedWidget.

(** The action animates the property [n]. *)
Definition animates (a : AnimatedWidget.action) (n : string) : Prop :=
  match a with
  | AnimatedWidget.AnimateProperty n' _ _ _ _ => n' = n
  | _ => False
  end.

(** No thread of the widget animates the property [n]. *)
Definition not_animated (n : string) (w : widget) : Prop :=
  Forall (fun t => pt_property_name t <> n) (property_threads w).

(** The threads alone: thread [th] takes a step with the clock at [now],
    for each [(th, now)] in turn. *)
Definition steps (l : list (nat * float)) (s : stage) : stage :=
  foldl (fun s x => _animate_property_thread (fst x) (snd x) s) s l.

(** ** AnimatedWidget: callbacks and state (core.py) *)

(** What a callback is called with. *)
Inductive arg : Set :=
| AStr (s : string)
| AFloat (x : float)
| ABool (b : bool).

(** A callback is known by a name and by whether it raises an [Exception]
    on given arguments; the callbacks do not call the widget back. *)
Record callback : Type := {
  callback_name : string;
  callback_raises : list arg -> bool
}.

(** What the callbacks' caller can observe. *)
Inductive call : Type :=
| Called (name : string) (args : list arg)
| CallbackErrorPrinted (event_type : string).

(** The attributes that [bind_callback], [trigger_callback] and the state
    methods use, with the calls made to the callbacks and the number of
    calls made to [update_appearance]. *)
Record listener : Type := {
  _callbacks : gmap string (list callback);
  _widget_state : string;
  calls : list call;
  appearances : nat
}.

(** [AnimatedWidget.__init__], for these attributes *)
Definition new_listener : listener :=
  {| _callbacks := list_to_map (map (fun e => (e, [])) event_types);
     _widget_state := "normal"; calls := []; appearances := 0 |}.

Definition bind_callback (event_type : string) (cb : callback)
    (w : listener) : listener :=
  match _callbacks w !! event_type with
  | Some l =>
      {| _callbacks := <[event_type := l ++ [cb]]> (_callbacks w);
         _widget_state := _widget_state w; calls := calls w;
         appearances := appearances w |}
  | None => w
  end.

(** One callback called inside [try ... except Exception: print(...)]. *)
Definition call_guarded (event_type : string) (args : list arg)
    (cb : callback) : list call :=
  Called (callback_name cb) args ::
  (if callback_raises cb args then [CallbackErrorPrinted event_type] else []).

Definition trigger_callback (event_type : string) (args : list arg)
    (w : listener) : listener :=
  match _callbacks w !! event_type with
  | Some l =>
      {| _callbacks := _callbacks w; _widget_state := _widget_state w;
         calls := calls w ++ flat_map (call_guarded event_type args) l;
         appearances := appearances w |}
  | None => w
  end.

Definition _on_state_changed (old_state new_state : string) (w : listener)
  : listener :=
  let w := trigger_callback "state_changed"
             [AStr old_state; AStr new_state] w in
  {| _callbacks := _callbacks w; _widget_state := _widget_state w;
     calls := calls w; appearances := S (appearances w) |}.

Definition set_state (new_state : string) (w : listener) : listener :=
  if negb (String.eqb (_widget_state w) new_state) then
    let old_state := _widget_state w in
    _on_state_changed old_state new_state
      {| _callbacks := _callbacks w; _widget_state := new_state;
         calls := calls w; appearances := appearances w |}
  else w.

Definition get_state (w : listener) : string := _widget_state w.

Definition enable (w : listener) : listener := set_state "normal" w.

Definition disable (w : listener) : listener := set_state "disabled" w.

(** The callbacks bound to [event_type] among the bindings, in order. *)
Definition bound_to (event_type : string)
    (bindings : list (string * callback)) : list callback :=
  map snd (List.filter (fun b => String.eqb (fst b) event_type) bindings).

(** The widget after the bindings. *)
Definition bind_all (bindings : list (string * callback)) (w : listener)
  : listener :=
  foldl (fun w b => bind_callback (fst b) (snd b) w) w bindings.

(** ** Scenes of the widget *)

(** A widget that fades in: [animate_property("opacity", 0.0, 1.0)] on a
    new widget. *)
Definition fading_widget : widget :=
  match animate_property pow_by_mul "opacity" 0 1 None None (new_widget None)
  with
  | Ok w => w
  | Raise _ => new_widget None
  end.

(** The thread of the fade. *)
Definition fading_thread : property_thread :=
  {| pt_property_name := "opacity"; pt_start_value := 0; pt_end_value := 1;
     pt_duration := 0.3; pt_easing_function := _ease_out_cubic pow_by_mul;
     pt_do_run := true |}.

(** The thread is in iteration [r] of the [for] loop of [_animation_loop]:
    at its head or inside the [while] loop. *)
Definition in_loop (r : Z) (p : position) : bool :=
  match p with
  | AtFor r' | AtWhile r' _ | AtTick r' _ | AtSleep r' _ => (r' =? r)%Z
  | _ => false
  end.

(** What does not change while a thread runs whose duration is negative
    and whose callbacks and easing function do not raise. *)
Definition endless (math_pow : float -> float -> result float)
    (math_sin : float -> result float) (r : Z) (t : thread) : Prop :=
  do_run t = true /\ (r < repeat_count (config t))%Z /\
  is_finite (duration (config t)) = true /\
  (duration (config t) <? 0)%float = true /\
  (fps (config t) <? 0)%Z = false /\
  (forall v, update_callback t v = false) /\
  (forall p, exists e,
     easing_func math_pow math_sin (easing (config t)) p = Ok e).

(** The thread is in iteration [r], which it started at a reading of the
    clock that is not after the last reading [c]. *)
Definition started_before (r : Z) (c : option float) (p : position) : Prop :=
  match p with
  | AtFor r' => r' = r
  | AtWhile r' st | AtTick r' st | AtSleep r' st =>
      r' = r /\ is_finite st = true /\ exists c0, c = Some c0 /\ fle st c0
  | _ => False
  end.

(** A negative duration. *)
Definition negative_duration : AnimationConfig :=
  {| duration := -1; easing := Member LINEAR; fps := 60;
     auto_reverse := false; repeat_count := 1; delay := 0 |}.




(** ** Boundary values of the easing functions *)

(** C7, as stated, fails on the code: [ease_in_back(1)] is computed as
    [(c1 + 1) - c1] with [c1 = 1.70158], and [c1 + 1] is rounded, so the
    result is one unit in the last place below [1].  No [pow] and no [sin]
    satisfying the claim for every easing kind exists. *)
Lemma easing_boundary_counterexample :
  ~ (forall math_pow math_sin, pow_exact_on_units math_pow ->
     forall k, boundary_values (_easing_functions math_pow math_sin k)).
Proof.
  intros H.
  assert (Hp : pow_exact_on_units pow_by_mul) by (vm_compute; tauto).
  destruct (H pow_by_mul sin_unavailable Hp EASE_IN_BACK) as [_ (x & Hx & Hb)].
  vm_compute in Hx. injection Hx as <-. vm_compute in Hb. discriminate.
Qed.

(** C7 (amended): with a [pow] exact on the units, every easing kind other
    than [EASE_IN_BACK] and [EASE_OUT_BACK] returns a value equal to [0] at
    [0] and to [1] at [1]; [ease_in_back] is exact at [0] and returns
    [1 - 2^-52] at [1]; [ease_out_back] returns [2^-52] at [0] and is exact
    at [1]. *)
Theorem easing_boundary_values math_pow math_sin (k : EasingType) :
  pow_exact_on_units math_pow ->
  (k <> EASE_IN_BACK -> k <> EASE_OUT_BACK ->
   boundary_values (_easing_functions math_pow math_sin k)) /\
  _easing_functions math_pow math_sin EASE_IN_BACK 0%float = Ok 0%float /\
  _easing_functions math_pow math_sin EASE_IN_BACK 1%float
    = Ok 0x1.ffffffffffffep-1%float /\
  _easing_functions math_pow math_sin EASE_OUT_BACK 0%float
    = Ok 0x1p-52%float /\
  _easing_functions math_pow math_sin EASE_OUT_BACK 1%float = Ok 1%float.
Proof.
  intros Hp. cbv in Hp. destruct Hp as (P02 & P12 & Pm2 & P03 & P13 & Pm3).
  repeat split; try (intros Hib Hob); try reflexivity.
  - destruct k; try congruence; cbv;
      rewrite ?P02, ?P12, ?Pm2, ?P03, ?P13, ?Pm3; eexists; split; reflexivity.
  - destruct k; try congruence; cbv;
      rewrite ?P02, ?P12, ?Pm2, ?P03, ?P13, ?Pm3; eexists; split; reflexivity.
  - cbv. rewrite Pm3, Pm2. reflexivity.
  - cbv. rewrite P03, P02. reflexivity.
Qed.

Lemma easing_boundary_values_witness :
  pow_exact_on_units pow_by_mul /\
  boundary_values (_easing_functions pow_by_mul sin_unavailable ELASTIC_OUT).
Proof.
  assert (Hp : pow_exact_on_units pow_by_mul) by (vm_compute; tauto).
  split; [exact Hp |].
  apply (easing_boundary_values pow_by_mul sin_unavailable ELASTIC_OUT Hp);
    discriminate.
Defined.

(** ** The manager's methods never raise *)

Lemma stop_animation_unfold (id : string) (m : manager) :
  stop_animation id m =
  Ok match _active_animations m !! id with
     | Some th =>
         {| _active_animations := delete id (_active_animations m);
            threads := alter (set_do_run false) th (threads m);
            log := log m |}
     | None => m
     end.
Proof.
  unfold stop_animation, dict_getitem, dict_delitem.
  destruct (_active_animations m !! id) as [th|] eqn:E.
  - rewrite bool_decide_eq_true_2 by eauto. reflexivity.
  - rewrite bool_decide_eq_false_2 by (intros [? ?]; discriminate). reflexivity.
Qed.

Lemma stop_animation_unknown (id : string) (m : manager) :
  _active_animations m !! id = None -> stop_animation id m = Ok m.
Proof. intros E. rewrite stop_animation_unfold, E. reflexivity. Qed.

Lemma stop_animation_registry (id : string) (m m1 : manager) :
  stop_animation id m = Ok m1 ->
  _active_animations m1 = delete id (_active_animations m) /\ log m1 = log m.
Proof.
  rewrite stop_animation_unfold. intros [= <-].
  destruct (_active_animations m !! id) eqn:E; simpl; [done |].
  split; [| done]. symmetry. by apply delete_id.
Qed.



(** ** [animate] *)

Lemma animate_unfold id s e u c k (m : manager) :
  animate id s e u c k m =
  Ok (let m1 := match _active_animations m !! id with
                | Some th =>
                    {| _active_animations := delete id (_active_animations m);
                       threads := alter (set_do_run false) th (threads m);
                       log := log m |}
                | None => m
                end in
      {| _active_animations :=
           <[id := length (threads m1)]> (_active_animations m1);
         threads := threads m1 ++ [fresh_thread id s e u (default default_config c) k];
         log := log m1 |}).
Proof. unfold animate. rewrite stop_animation_unfold. reflexivity. Qed.

Lemma animate_shape id s e u c k (m m1 : manager) :
  animate id s e u c k m = Ok m1 ->
  length (threads m1) = S (length (threads m)) /\
  _active_animations m1 !! id = Some (length (threads m)) /\
  threads m1 !! length (threads m)
    = Some (fresh_thread id s e u (default default_config c) k) /\
  log m1 = log m.
Proof.
  rewrite animate_unfold. intros [= <-].
  destruct (_active_animations m !! id) as [th|]; simpl.
  - rewrite length_app, length_alter. simpl. repeat split.
    + lia.
    + apply lookup_insert_eq.
    + rewrite lookup_app_r by (rewrite length_alter; lia).
      rewrite length_alter, Nat.sub_diag. reflexivity.
  - rewrite length_app. simpl. repeat split.
    + lia.
    + apply lookup_insert_eq.
    + rewrite lookup_app_r by lia. rewrite Nat.sub_diag. reflexivity.
Qed.




(** ** A raising update callback *)

(** C4, as stated, fails on the code: the handler of the update callback
    ends with [break].  Half way through its only iteration, a thread whose
    callback raises leaves the [while] loop instead of sleeping until the
    next frame. *)
Lemma failed_update_ends_iteration :
  ~ failed_update_is_dropped_frame pow_by_mul sin_unavailable 0 10.5
      (set_at (AtTick 0 10)
         (fresh_thread "fade" 0 100 always_raises one_second_linear None)).
Proof.
  intros H. specialize (H 0%Z 10%float 0.5%float 50%float).
  vm_compute in H. specialize (H eq_refl eq_refl eq_refl). discriminate.
Qed.

(** C4 (amended): when the update callback raises at a tick of iteration
    [r], the exception is caught and reported and does not end the thread,
    but the iteration is given up: the thread is next at the head of the
    [for] loop with [r + 1], where it starts iteration [r + 1] if there is
    one and otherwise goes on to the cleanup and the completion callback. *)
Theorem failed_update_breaks math_pow math_sin (i : nat) (now now' : float)
    (t : thread) (r : Z) (st p v : float) :
  at_ t = AtTick r st ->
  current_value math_pow math_sin t r st now = Ok (p, v) ->
  update_callback t v = true ->
  _animation_loop math_pow math_sin i now t =
    {| next := AtFor (r + 1);
       emitted := [UpdateCalled i p v; ErrorPrinted i];
       unregisters := false |} /\
  _animation_loop math_pow math_sin i now' (set_at (AtFor (r + 1)) t) =
    goto (if (r + 1 <? repeat_count (config t))%Z
          then AtWhile (r + 1) now' else AtCleanup).
Proof.
  intros Hat Hv Hu. split.
  - unfold _animation_loop. rewrite Hat, Hv, Hu. reflexivity.
  - unfold _animation_loop. simpl. by destruct (_ <? _)%Z.
Qed.

Lemma failed_update_breaks_witness :
  _animation_loop pow_by_mul sin_unavailable 0 10.5
    (set_at (AtTick 0 10)
       (fresh_thread "fade" 0 100 always_raises one_second_linear None))
  = {| next := AtFor 1;
       emitted := [UpdateCalled 0 0.5 50; ErrorPrinted 0];
       unregisters := false |}.
Proof.
  apply (failed_update_breaks pow_by_mul sin_unavailable 0 10.5%float 11%float
           _ 0%Z 10%float 0.5%float 50%float); reflexivity.
Defined.

(** A single iteration whose callback raises at its first tick, half way:
    no second tick is made and the animation completes. *)
Example failed_update_log :
  log (run_thread pow_by_mul sin_unavailable 0
         [10; 10; 10; 10.5; 10.6; 10.7; 10.8]%float
         (one_animation
            (fresh_thread "fade" 0 100 always_raises one_second_linear
               (Some false))))
  = [UpdateCalled 0 0.5 50; ErrorPrinted 0; CompletionCalled 0].
Proof. reflexivity. Qed.

(** ** Steps of a thread *)

Lemma step_thread_at math_pow math_sin (i : nat) (now : float) (m : manager)
    (t : thread) :
  threads m !! i = Some t ->
  threads (step_thread math_pow math_sin i now m) !! i
    = Some (set_at (next (_animation_loop math_pow math_sin i now t)) t) /\
  log (step_thread math_pow math_sin i now m)
    = log m ++ emitted (_animation_loop math_pow math_sin i now t).
Proof.
  intros Ht. unfold step_thread. rewrite Ht. simpl. split; [| done].
  apply list_lookup_insert_eq. by eapply lookup_lt_Some.
Qed.

Lemma set_at_set_at (p q : position) (t : thread) :
  set_at p (set_at q t) = set_at p t.
Proof. reflexivity. Qed.

(** From the head of the [for] loop onwards, a thread with no iteration left
    cleans up and completes in three steps. *)
Lemma loop_exit math_pow math_sin (i : nat) (n1 n2 n3 : float) (m : manager)
    (t : thread) (r : Z) :
  threads m !! i = Some t -> at_ t = AtFor r ->
  (repeat_count (config t) <= r)%Z ->
  let m' := run_thread math_pow math_sin i [n1; n2; n3] m in
  threads m' !! i = Some (set_at Finished t) /\
  log m' = log m ++ completion_events i t.
Proof.
  intros Ht Hat Hr m'. subst m'. unfold run_thread. simpl.
  destruct (step_thread_at math_pow math_sin i n1 m t Ht) as [H1 L1].
  unfold _animation_loop in H1, L1. rewrite Hat in H1, L1.
  rewrite (proj2 (Z.ltb_ge _ _) Hr) in H1, L1. simpl in H1, L1.
  destruct (step_thread_at math_pow math_sin i n2 _ _ H1) as [H2 L2].
  simpl in H2, L2.
  destruct (step_thread_at math_pow math_sin i n3 _ _ H2) as [H3 L3].
  rewrite set_at_set_at in H3. split.
  - rewrite H3. unfold _animation_loop. simpl.
    destruct (completion_callback t); reflexivity.
  - rewrite L3, L2, L1, !app_nil_r. f_equal.
    unfold _animation_loop, completion_events. simpl.
    destruct (completion_callback t); reflexivity.
Qed.

(** ** The repeat count *)

(** C5 on the code: a repeat count of zero or below, which includes the
    [-1] that the progress bar passes for its pulse, leaves the [for] loop
    without an iteration.  A thread started with it, never stopped, calls
    no update callback and reaches its completion callback in four steps. *)
Theorem nonpositive_repeat_count_completes math_pow math_sin (i : nat)
    (n0 n1 n2 n3 : float) (m : manager) (t : thread) :
  threads m !! i = Some t -> at_ t = AtDelay -> do_run t = true ->
  fps_usable (config t) = true ->
  (repeat_count (config t) <= 0)%Z ->
  let m' := run_thread math_pow math_sin i [n0; n1; n2; n3] m in
  threads m' !! i = Some (set_at Finished t) /\
  log m' = log m ++ completion_events i t /\
  updates_of i (events_since (length (log m)) m') = [].
Proof.
  intros Ht Hat Hrun Hfps Hr m'. subst m'.
  destruct (step_thread_at math_pow math_sin i n0 m t Ht) as [H0 L0].
  unfold _animation_loop in H0, L0. rewrite Hat in H0, L0.
  unfold fps_usable in Hfps. apply andb_true_iff in Hfps as [Hfit Hnz].
  rewrite Hfit in H0, L0. apply negb_true_iff in Hnz.
  rewrite Hnz in H0, L0. simpl in H0, L0. rewrite app_nil_r in L0.
  destruct (loop_exit math_pow math_sin i n1 n2 n3 _ _ 0%Z H0 eq_refl Hr)
    as [H3 L3].
  change (run_thread math_pow math_sin i [n0; n1; n2; n3] m)
    with (run_thread math_pow math_sin i [n1; n2; n3]
            (step_thread math_pow math_sin i n0 m)).
  rewrite set_at_set_at in H3. split; [done |].
  rewrite L0 in L3. split; [done |].
  unfold events_since. rewrite L3, drop_app_length.
  unfold completion_events. simpl.
  destruct (completion_callback t) as [[|]|]; reflexivity.
Qed.

Lemma nonpositive_repeat_count_completes_witness :
  log (run_thread pow_by_mul sin_unavailable 0 [0; 0.1; 0.2; 0.3]%float
         (one_animation
            (fresh_thread "pulse" 0 0.3 never_raises pulse_config (Some false))))
  = [CompletionCalled 0].
Proof.
  apply (nonpositive_repeat_count_completes pow_by_mul sin_unavailable
           0 0%float 0.1%float 0.2%float 0.3%float
           (one_animation
              (fresh_thread "pulse" 0 0.3 never_raises pulse_config (Some false)))
           (fresh_thread "pulse" 0 0.3 never_raises pulse_config (Some false)));
    (reflexivity || (vm_compute; congruence)).
Defined.

(** ** Auto-reverse *)



(** Four iterations that each reach the end at their first tick, from [0]
    to [10]: the values delivered at raw progress [1] alternate. *)
Example ping_pong_log :
  log (run_thread pow_by_mul sin_unavailable 0
         [0; 0; 0; 1; 1; 1; 2; 2; 2; 3; 3; 3; 4; 4; 4; 4]%float
         (one_animation
            (fresh_thread "pulse" 0 10 never_raises ping_pong_config None)))
  = [UpdateCalled 0 1 10; UpdateCalled 0 1 0; UpdateCalled 0 1 10;
     UpdateCalled 0 1 0].
Proof. reflexivity. Qed.

(** ** [animate_property] with animations disabled *)

(** C10, as stated, fails on the code: the attribute is written with
    [setattr] into the dictionary that also holds the widget's own fields.
    Given the name [_current_animations], the call replaces the table of
    current animations by the end value. *)
Lemma animate_property_overwrites_animations :
  ~ sets_property_at_once pow_by_mul disabled_widget "_current_animations"
      0 1 None None.
Proof.
  intros (w' & Hw & _ & _ & _ & Hanims).
  vm_compute in Hw. injection Hw as <-. vm_compute in Hanims. discriminate.
Qed.

(** C10 (amended): for a widget whose configuration disables animations and
    whose [update_appearance] is the method of its class, and for every
    property name other than [update_appearance], [_current_animations],
    [__class__], [__dict__] and [__weakref__], [animate_property] returns
    normally having set the attribute of that name to exactly the end value
    and called [update_appearance] once; it starts no thread and leaves the
    current animations as they were. *)
Theorem animate_property_disabled math_pow (w : widget) (c : WidgetConfig)
    (property_name : string) (s e : float) (d : option float)
    (f : option (float -> result float)) :
  attributes w !! "config" = Some (VConfig c) ->
  enable_animations c = false ->
  attributes w !! "update_appearance" = None ->
  property_name ∉ guarded_names ->
  sets_property_at_once math_pow w property_name s e d f.
Proof.
  intros Hc Hen Hup Hname.
  assert (Hne : property_name <> "update_appearance" /\
                property_name <> "_current_animations" /\
                property_name <> "__class__" /\ property_name <> "__dict__" /\
                property_name <> "__weakref__").
  { unfold guarded_names in Hname. rewrite !not_elem_of_cons in Hname. tauto. }
  destruct Hne as (N1 & N2 & N3 & N4 & N5).
  unfold sets_property_at_once, animate_property, get_config.
  rewrite Hc. simpl. rewrite Hen. simpl. unfold object_setattr.
  rewrite !bool_decide_eq_false_2 by done. simpl.
  unfold call_update_appearance. simpl.
  rewrite lookup_insert_ne by done. rewrite Hup.
  eexists. split; [reflexivity |]. simpl. repeat split.
  - apply lookup_insert_eq.
  - by rewrite lookup_insert_ne.
Qed.

Lemma animate_property_disabled_witness :
  sets_property_at_once pow_by_mul disabled_widget "opacity" 0 1 None None.
Proof.
  apply (animate_property_disabled pow_by_mul disabled_widget
           {| width := 120; height := 40; background_color := "#3498db";
              text_color := "#ffffff"; border_radius := 8; border_width := 0;
              border_color := "#2c3e50"; font_family := "Arial";
              font_size := 12; animation_duration := 0.3;
              enable_animations := false |}).
  - reflexivity.
  - reflexivity.
  - reflexivity.
  - unfold guarded_names. rewrite !not_elem_of_cons.
    repeat split; try discriminate. apply not_elem_of_nil.
Defined.

(** ** What a call of the manager does to a thread *)


Lemma flag_cleared_at t t' : flag_cleared t t' -> at_ t' = at_ t.
Proof. by intros [-> | ->]. Qed.

Lemma flag_cleared_do_run t t' :
  flag_cleared t t' -> do_run t = false -> do_run t' = false.
Proof. by intros [-> | ->]. Qed.

Lemma alter_flag_cleared (ts : list thread) (th i : nat) (t : thread) :
  ts !! i = Some t ->
  exists t', alter (set_do_run false) th ts !! i = Some t' /\ flag_cleared t t'.
Proof.
  intros Ht. destruct (decide (th = i)) as [-> | Hne].
  - exists (set_do_run false t). rewrite list_lookup_alter_eq, Ht.
    split; [done | by right].
  - exists t. rewrite list_lookup_alter_ne by done. split; [done | by left].
Qed.

Lemma flag_cleared_trans t t' t'' :
  flag_cleared t t' -> flag_cleared t' t'' -> flag_cleared t t''.
Proof.
  intros [-> | ->] [-> | ->]; (by left) || (by right).
Qed.

Lemma foldr_alter_flag_cleared (l : list nat) (ts : list thread) (i : nat)
    (t : thread) :
  ts !! i = Some t ->
  exists t', foldr (fun th ts => alter (set_do_run false) th ts) ts l !! i
               = Some t' /\ flag_cleared t t'.
Proof.
  intros Ht. induction l as [| th l IH]; simpl.
  - exists t. split; [done | by left].
  - destruct IH as (t1 & H1 & F1).
    destruct (alter_flag_cleared _ th i t1 H1) as (t2 & H2 & F2).
    exists t2. split; [done |]. by eapply flag_cleared_trans.
Qed.

Lemma stop_animation_thread (id : string) (m m1 : manager) (i : nat)
    (t : thread) :
  stop_animation id m = Ok m1 -> threads m !! i = Some t ->
  exists t', threads m1 !! i = Some t' /\ flag_cleared t t'.
Proof.
  rewrite stop_animation_unfold. intros [= <-] Ht.
  destruct (_active_animations m !! id) as [th|]; simpl.
  - by apply alter_flag_cleared.
  - exists t. split; [done | by left].
Qed.

Lemma animate_thread id s e u c k (m m1 : manager) (i : nat) (t : thread) :
  animate id s e u c k m = Ok m1 -> threads m !! i = Some t ->
  exists t', threads m1 !! i = Some t' /\ flag_cleared t t'.
Proof.
  unfold animate. destruct (stop_animation id m) as [m0|] eqn:E; [| done].
  simpl. intros [= <-] Ht.
  destruct (stop_animation_thread _ _ _ _ _ E Ht) as (t' & Ht' & F).
  exists t'. split; [| done]. simpl.
  rewrite lookup_app_l; [done |]. by eapply lookup_lt_Some.
Qed.

Section Runs.
Variable math_pow : float -> float -> result float.
Variable math_sin : float -> result float.

Abbreviation exec := (exec math_pow math_sin).
Abbreviation run := (run math_pow math_sin).
Abbreviation step_thread := (step_thread math_pow math_sin).
Abbreviation run_thread := (run_thread math_pow math_sin).

Lemma exec_total (a : action) (m : manager) : exists m', exec a m = Ok m'.
Proof.
  destruct a; simpl; eauto.
  - rewrite animate_unfold. eauto.
  - rewrite stop_animation_unfold. eauto.
Qed.

Lemma run_total (acts : list action) (m : manager) :
  exists m', run acts m = Ok m'.
Proof.
  revert m. induction acts as [| a acts IH]; intros m; simpl; [eauto |].
  destruct (exec_total a m) as [m' ->]. simpl. apply IH.
Qed.

Lemma run_thread_run (i : nat) (nows : list float) (m : manager) :
  run (map (Step i) nows) m = Ok (run_thread i nows m).
Proof.
  revert m. induction nows as [| now nows IH]; intros m; simpl; [done |].
  apply IH.
Qed.

(** The log only grows. *)
Lemma exec_log (a : action) (m m' : manager) :
  exec a m = Ok m' -> exists l, log m' = log m ++ l.
Proof.
  destruct a; simpl.
  - intros H. apply animate_shape in H as (_ & _ & _ & ->).
    exists []. by rewrite app_nil_r.
  - intros H. apply stop_animation_registry in H as [_ ->].
    exists []. by rewrite app_nil_r.
  - intros [= <-]. exists []. by rewrite app_nil_r.
  - intros [= <-]. unfold step_thread.
    destruct (threads m !! th); simpl; eauto.
    exists []. by rewrite app_nil_r.
Qed.

Lemma run_log (acts : list action) (m m' : manager) :
  run acts m = Ok m' -> exists l, log m' = log m ++ l.
Proof.
  revert m. induction acts as [| a acts IH]; intros m; simpl.
  - intros [= <-]. exists []. by rewrite app_nil_r.
  - destruct (exec a m) as [m1|] eqn:E; [| done]. simpl. intros H.
    apply exec_log in E as [l1 E]. apply IH in H as [l2 H].
    exists (l1 ++ l2). by rewrite H, E, app_assoc.
Qed.

(** The events of a step are those of the thread that takes it. *)
Lemma loop_step_other (i j : nat) (now : float) (t : thread) :
  i <> j ->
  updates_of i (emitted (_animation_loop math_pow math_sin j now t)) = [] /\
  completions_of i (emitted (_animation_loop math_pow math_sin j now t)) = [].
Proof.
  intros Hne. assert (Hb : Nat.eqb j i = false) by by apply Nat.eqb_neq.
  unfold _animation_loop.
  destruct (at_ t); simpl;
    repeat match goal with
           | |- context [if ?b then _ else _] => destruct b; simpl
           | |- context [match ?x with _ => _ end] =>
               destruct x as [[? ?]|]; simpl
           | |- context [match ?x with _ => _ end] => destruct x; simpl
           end; rewrite ?Hb; done.
Qed.


Lemma loop_step_flag_cleared (i : nat) (now : float) (t : thread) :
  do_run t = false ->
  length (updates_of i (emitted (_animation_loop math_pow math_sin i now t)))
    + pending (set_at (next (_animation_loop math_pow math_sin i now t)) t) <= pending t.
Proof.
  intros Hrun. unfold _animation_loop, pending. rewrite Hrun.
  destruct (at_ t); simpl;
    repeat match goal with
           | |- context [if ?b then _ else _] => destruct b; simpl
           | |- context [match ?x with _ => _ end] =>
               destruct x as [[? ?]|]; simpl
           | |- context [match ?x with _ => _ end] => destruct x; simpl
           end; rewrite ?Nat.eqb_refl; simpl; lia.
Qed.

Lemma exec_flag_cleared (a : action) (m m' : manager) (i : nat) (t : thread) :
  exec a m = Ok m' -> threads m !! i = Some t -> do_run t = false ->
  exists t', threads m' !! i = Some t' /\ do_run t' = false /\
    length (updates_of i (log m')) + pending t'
      <= length (updates_of i (log m)) + pending t.
Proof.
  intros He Ht Hrun. destruct a; simpl in He.
  - destruct (animate_thread _ _ _ _ _ _ _ _ _ _ He Ht) as (t' & Ht' & F).
    apply animate_shape in He as (_ & _ & _ & ->).
    exists t'. split; [done |]. split; [by eapply flag_cleared_do_run |].
    unfold pending. by rewrite (flag_cleared_at _ _ F).
  - destruct (stop_animation_thread _ _ _ _ _ He Ht) as (t' & Ht' & F).
    apply stop_animation_registry in He as [_ ->].
    exists t'. split; [done |]. split; [by eapply flag_cleared_do_run |].
    unfold pending. by rewrite (flag_cleared_at _ _ F).
  - injection He as <-. simpl.
    destruct (foldr_alter_flag_cleared
                (map snd (map_to_list (_active_animations m))) _ _ _ Ht)
      as (t' & Ht' & F).
    exists t'. split; [done |]. split; [by eapply flag_cleared_do_run |].
    unfold pending. by rewrite (flag_cleared_at _ _ F).
  - injection He as <-. destruct (decide (th = i)) as [-> | Hne].
    + destruct (step_thread_at math_pow math_sin i now m t Ht) as [H L].
      eexists. split; [exact H |]. split; [done |].
      rewrite L. unfold updates_of. rewrite List.filter_app, length_app.
      pose proof (loop_step_flag_cleared i now t Hrun) as Hp.
      unfold updates_of in Hp. lia.
    + exists t. unfold step_thread.
      destruct (threads m !! th) as [tj|] eqn:Hj; simpl.
      * rewrite list_lookup_insert_ne by done. split; [done |].
        split; [done |]. unfold updates_of.
        rewrite List.filter_app, length_app.
        destruct (loop_step_other i th now tj) as [Hu _]; [done |].
        unfold updates_of in Hu. rewrite Hu. simpl. lia.
      * done.
Qed.

End Runs.

(** ** A thread whose flag is cleared runs to its completion callback *)

Section Completion.
Variable math_pow : float -> float -> result float.
Variable math_sin : float -> result float.

Abbreviation run_thread' := (run_thread math_pow math_sin).

Lemma run_thread_app (i : nat) (l1 l2 : list float) (m : manager) :
  run_thread' i (l1 ++ l2) m = run_thread' i l2 (run_thread' i l1 m).
Proof. unfold run_thread. apply foldl_app. Qed.

(** The thread's own step at a position that emits nothing. *)
Lemma silent_step (i : nat) (now : float) (m : manager) (t : thread)
    (p : position) :
  threads m !! i = Some t ->
  _animation_loop math_pow math_sin i now t = goto p ->
  threads (run_thread' i [now] m) !! i = Some (set_at p t) /\
  log (run_thread' i [now] m) = log m.
Proof.
  intros Ht Hs. destruct (step_thread_at math_pow math_sin i now m t Ht)
    as [H L]. rewrite Hs in H, L. simpl in H, L.
  rewrite app_nil_r in L. done.
Qed.

Lemma cleared_thread_leaves_loop (n : nat) :
  forall (i : nat) (r : Z) (m : manager) (t : thread) (nows : list float),
  threads m !! i = Some t -> at_ t = AtFor r -> do_run t = false ->
  Z.to_nat (repeat_count (config t) - r) = n ->
  length nows = (2 * n + 3)%nat ->
  threads (run_thread' i nows m) !! i = Some (set_at Finished t) /\
  log (run_thread' i nows m) = log m ++ completion_events i t.
Proof.
  induction n as [| n IH]; intros i r m t nows Ht Hat Hrun Hn Hlen.
  - simpl in Hlen.
    destruct nows as [| n1 [| n2 [| n3 [| ? ?]]]]; try discriminate.
    apply (loop_exit math_pow math_sin i n1 n2 n3 m t r Ht Hat). lia.
  - destruct nows as [| n1 [| n2 nows]]; [simpl in Hlen; lia.. |].
    change (n1 :: n2 :: nows) with ([n1] ++ [n2] ++ nows).
    rewrite !run_thread_app.
    destruct (silent_step i n1 m t (AtWhile r n1) Ht) as [H1 L1].
    { unfold _animation_loop. rewrite Hat.
      rewrite (proj2 (Z.ltb_lt r (repeat_count (config t)))) by lia. done. }
    destruct (silent_step i n2 _ _ (AtFor (r + 1)) H1) as [H2 L2].
    { unfold _animation_loop. simpl. by rewrite Hrun. }
    rewrite set_at_set_at in H2.
    destruct (IH i (r + 1)%Z _ _ nows H2 eq_refl Hrun) as [H3 L3].
    { simpl. lia. }
    { simpl in Hlen. lia. }
    split; [exact H3 |]. rewrite L3, L2, L1. reflexivity.
Qed.

Lemma cleared_thread_completes (i : nat) (m : manager) (t : thread) :
  threads m !! i = Some t -> do_run t = false -> between_ticks t = true ->
  exists n, forall nows, length nows = n ->
    threads (run_thread' i nows m) !! i = Some (set_at Finished t) /\
    log (run_thread' i nows m) = log m ++ completion_events i t.
Proof.
  intros Ht Hrun Hq. unfold between_ticks in Hq.
  destruct (at_ t) as [| r | r st | r st | r st | | | |] eqn:Hat;
    try discriminate.
  - (* in the delay *)
    exists (1 + (2 * Z.to_nat (repeat_count (config t) - 0) + 3))%nat.
    intros nows Hlen. destruct nows as [| n0 nows]; [discriminate |].
    change (n0 :: nows) with ([n0] ++ nows). rewrite run_thread_app.
    destruct (silent_step i n0 m t (AtFor 0) Ht) as [H1 L1].
    { unfold _animation_loop. rewrite Hat. unfold fps_usable in Hq.
      apply andb_true_iff in Hq as [-> Hz]. apply negb_true_iff in Hz.
      by rewrite Hz. }
    destruct (cleared_thread_leaves_loop _ i 0%Z _ _ nows H1 eq_refl Hrun
                eq_refl) as [H2 L2].
    { simpl in Hlen. simpl. lia. }
    split; [exact H2 |]. by rewrite L2, L1.
  - (* at the head of the for loop *)
    exists (2 * Z.to_nat (repeat_count (config t) - r) + 3)%nat.
    intros nows Hlen.
    by apply (cleared_thread_leaves_loop _ i r m t nows Ht Hat Hrun eq_refl).
  - (* about to read the flag *)
    exists (1 + (2 * Z.to_nat (repeat_count (config t) - (r + 1)) + 3))%nat.
    intros nows Hlen. destruct nows as [| n0 nows]; [discriminate |].
    change (n0 :: nows) with ([n0] ++ nows). rewrite run_thread_app.
    destruct (silent_step i n0 m t (AtFor (r + 1)) Ht) as [H1 L1].
    { unfold _animation_loop. by rewrite Hat, Hrun. }
    destruct (cleared_thread_leaves_loop _ i (r + 1)%Z _ _ nows H1 eq_refl
                Hrun eq_refl) as [H2 L2].
    { simpl in Hlen. simpl. lia. }
    split; [exact H2 |]. by rewrite L2, L1.
  - (* asleep between two frames *)
    exists (2 + (2 * Z.to_nat (repeat_count (config t) - (r + 1)) + 3))%nat.
    intros nows Hlen. destruct nows as [| n0 [| n1 nows]]; try discriminate.
    change (n0 :: n1 :: nows) with ([n0] ++ [n1] ++ nows).
    rewrite !run_thread_app.
    destruct (silent_step i n0 m t (AtWhile r st) Ht) as [H1 L1].
    { unfold _animation_loop. rewrite Hat. apply negb_true_iff in Hq.
      by rewrite Hq. }
    destruct (silent_step i n1 _ _ (AtFor (r + 1)) H1) as [H2 L2].
    { unfold _animation_loop. simpl. by rewrite Hrun. }
    rewrite set_at_set_at in H2.
    destruct (cleared_thread_leaves_loop _ i (r + 1)%Z _ _ nows H2 eq_refl
                Hrun eq_refl) as [H3 L3].
    { simpl in Hlen. simpl. lia. }
    split; [exact H3 |]. by rewrite L3, L2, L1.
  - (* cleaning up *)
    exists 2%nat. intros nows Hlen.
    destruct nows as [| n0 [| n1 [| ? ?]]]; try discriminate.
    destruct (step_thread_at math_pow math_sin i n0 m t Ht) as [H1 L1].
    unfold _animation_loop in H1, L1. rewrite Hat in H1, L1. simpl in H1, L1.
    destruct (step_thread_at math_pow math_sin i n1 _ _ H1) as [H2 L2].
    unfold run_thread. simpl. split.
    + rewrite H2. unfold _animation_loop. simpl.
      destruct (completion_callback t); reflexivity.
    + rewrite L2, L1, app_nil_r. unfold _animation_loop, completion_events. simpl.
      destruct (completion_callback t); reflexivity.
  - (* about to call the completion callback *)
    exists 1%nat. intros nows Hlen.
    destruct nows as [| n0 [| ? ?]]; try discriminate.
    destruct (step_thread_at math_pow math_sin i n0 m t Ht) as [H1 L1].
    unfold run_thread. simpl. split.
    + rewrite H1. unfold _animation_loop. rewrite Hat.
      destruct (completion_callback t); reflexivity.
    + rewrite L1. unfold _animation_loop, completion_events. rewrite Hat.
      destruct (completion_callback t); reflexivity.
Qed.
End Completion.

(** ** Stopping an animation *)

Example in_delay_reached :
  animate "fade" 0 100 never_raises (Some half_second_delay) (Some false)
    new_manager = Ok in_delay.
Proof. reflexivity. Qed.




(** ** Replacing a running animation *)

Example mid_flight_reached :
  run pow_by_mul sin_unavailable
    [Animate "fade" 0 100 never_raises (Some one_second_linear) (Some false);
     Step 0 10; Step 0 10; Step 0 10; Step 0 10.5] new_manager
  = Ok mid_flight.
Proof. reflexivity. Qed.




(** * Monotonicity of the floating point operations *)

Section FloatOrder.
Local Open Scope Z_scope.

Abbreviation fexp64 := (fexp prec emax).

Lemma digits2_pos_size (p : positive) : digits2_pos p = Pos.size p.
Proof. induction p; simpl; congruence. Qed.

Lemma dg_pos_bounds (p : positive) :
  2 ^ (dg (Zpos p) - 1) <= Zpos p < 2 ^ dg (Zpos p).
Proof.
  unfold dg. simpl. rewrite digits2_pos_size.
  pose proof (Pos.size_gt p) as Hgt. pose proof (Pos.size_le p) as Hle.
  split.
  - apply Pos2Z.pos_le_pos in Hle. rewrite Pos2Z.inj_pow in Hle.
    change (Z.pos p~0) with (2 * Z.pos p) in Hle.
    replace (Z.pos (Pos.size p)) with (Z.succ (Z.pos (Pos.size p) - 1)) in Hle by lia.
    rewrite Z.pow_succ_r in Hle by lia. lia.
  - apply Pos2Z.pos_lt_pos in Hgt. rewrite Pos2Z.inj_pow in Hgt. exact Hgt.
Qed.

Lemma dg_bounds (n : Z) : 0 < n -> 2 ^ (dg n - 1) <= n < 2 ^ dg n.
Proof. destruct n; try lia. intros _. apply dg_pos_bounds. Qed.

Lemma dg_nonneg (n : Z) : 0 <= dg n.
Proof. destruct n; unfold dg; simpl; lia. Qed.

Lemma dg_pos (n : Z) : 0 < n -> 0 < dg n.
Proof. destruct n; unfold dg; simpl; lia. Qed.

Lemma dg_0 : dg 0 = 0.
Proof. reflexivity. Qed.

Lemma pow2_pos (k : Z) : 0 <= k -> 0 < 2 ^ k.
Proof. intros. apply Z.pow_pos_nonneg; lia. Qed.

Lemma pow2_le (a b : Z) : 0 <= a <= b -> 2 ^ a <= 2 ^ b.
Proof. intros. apply Z.pow_le_mono_r; lia. Qed.

Lemma pow2_lt (a b : Z) : 0 <= a < b -> 2 ^ a < 2 ^ b.
Proof. intros. apply Z.pow_lt_mono_r; lia. Qed.

Lemma dg_unique (n k : Z) : 0 < k -> 2 ^ (k - 1) <= n < 2 ^ k -> dg n = k.
Proof.
  intros Hk [Hlo Hhi].
  assert (Hn : 0 < n) by (pose proof (pow2_pos (k - 1)); lia).
  destruct (dg_bounds n Hn) as [Blo Bhi]. pose proof (dg_pos n Hn) as Hd.
  destruct (Z.lt_trichotomy (dg n) k) as [Hlt | [Heq | Hgt]]; [| done |].
  - pose proof (pow2_le (dg n) (k - 1)). lia.
  - pose proof (pow2_le k (dg n - 1)). lia.
Qed.

Lemma dg_mono (a b : Z) : 0 <= a <= b -> dg a <= dg b.
Proof.
  intros [Ha Hab]. destruct (Z.eq_dec a 0) as [-> | Hna].
  - rewrite dg_0. apply dg_nonneg.
  - assert (0 < a) by lia. assert (0 < b) by lia.
    destruct (dg_bounds a) as [Alo Ahi]; [done |].
    destruct (dg_bounds b) as [Blo Bhi]; [done |].
    destruct (Z_lt_le_dec (dg b) (dg a)) as [Hlt | Hle]; [| done].
    pose proof (pow2_le (dg b) (dg a - 1)). pose proof (dg_pos b). lia.
Qed.

(** If [m * 2^k <= f < (m+1) * 2^k] then [f] has [k] more digits than [m]. *)
Lemma dg_scaled (m f k : Z) :
  0 < m -> 0 <= k -> m * 2 ^ k <= f < (m + 1) * 2 ^ k -> dg f = dg m + k.
Proof.
  intros Hm Hk [Hlo Hhi]. destruct (dg_bounds m Hm) as [Mlo Mhi].
  pose proof (dg_pos m Hm). pose proof (pow2_pos k Hk).
  apply dg_unique; [lia |]. split.
  - replace (dg m + k - 1) with ((dg m - 1) + k) by lia.
    rewrite Z.pow_add_r by lia. nia.
  - rewrite Z.pow_add_r by lia. nia.
Qed.

(** Digits of a quotient by a power of two. *)
Lemma dg_div_pow2 (m k : Z) :
  0 <= m -> 0 <= k -> dg (m / 2 ^ k) = Z.max (dg m - k) 0.
Proof.
  intros Hm Hk. pose proof (pow2_pos k Hk) as Hp.
  destruct (Z.eq_dec m 0) as [-> | Hnz].
  { rewrite Z.div_0_l by lia. rewrite dg_0. lia. }
  assert (Hm' : 0 < m) by lia. destruct (dg_bounds m Hm') as [Mlo Mhi].
  pose proof (dg_pos m Hm').
  destruct (Z_lt_le_dec k (dg m)) as [Hlt | Hge].
  - rewrite Z.max_l by lia. apply dg_unique; [lia |]. split.
    + apply Z.div_le_lower_bound; [lia |].
      rewrite <- Z.pow_add_r by lia. replace (k + (dg m - k - 1)) with (dg m - 1) by lia.
      done.
    + apply Z.div_lt_upper_bound; [lia |].
      rewrite <- Z.pow_add_r by lia. replace (k + (dg m - k)) with (dg m) by lia.
      done.
  - rewrite Z.max_r by lia. rewrite Z.div_small; [done |].
    pose proof (pow2_le (dg m) k). lia.
Qed.

(** ** Rounding to nearest, ties to even, of a quotient of integers *)

Lemma rne_bounds (q r D : Z) : q <= rne q r D <= q + 1.
Proof. unfold rne. repeat case_match; lia. Qed.

Lemma div_le_cross (A1 D1 A2 D2 : Z) :
  0 < D1 -> 0 < D2 -> A1 * D2 <= A2 * D1 -> A1 / D1 <= A2 / D2.
Proof.
  intros H1 H2 H. apply Z.div_le_lower_bound; [lia |].
  pose proof (Z.mul_div_le A1 D1 H1) as Hq.
  assert (D1 * (D2 * (A1 / D1)) <= D1 * A2) by nia.
  apply Z.mul_le_mono_pos_l in H0; lia.
Qed.

Lemma rnd_mono (A1 D1 A2 D2 : Z) :
  0 < D1 -> 0 < D2 -> A1 * D2 <= A2 * D1 -> rnd A1 D1 <= rnd A2 D2.
Proof.
  intros H1 H2 H. pose proof (div_le_cross _ _ _ _ H1 H2 H) as Hq.
  unfold rnd.
  pose proof (rne_bounds (A1 / D1) (A1 mod D1) D1).
  pose proof (rne_bounds (A2 / D2) (A2 mod D2) D2).
  destruct (Z.eq_dec (A1 / D1) (A2 / D2)) as [Heq | Hne]; [| lia].
  pose proof (Z.div_mod A1 D1 ltac:(lia)) as E1.
  pose proof (Z.div_mod A2 D2 ltac:(lia)) as E2.
  pose proof (Z.mod_pos_bound A1 D1 H1) as B1.
  pose proof (Z.mod_pos_bound A2 D2 H2) as B2.
  rewrite <- Heq in *. set (q := A1 / D1) in *.
  set (r1 := A1 mod D1) in *. set (r2 := A2 mod D2) in *.
  assert (Hr : r1 * D2 <= r2 * D1) by nia.
  unfold rne.
  destruct (Z.ltb_spec (2 * r1) D1); [repeat case_match; lia |].
  destruct (Z.ltb_spec D1 (2 * r1)).
  - assert (D2 < 2 * r2) by nia.
    destruct (Z.ltb_spec (2 * r2) D2); [lia |].
    destruct (Z.ltb_spec D2 (2 * r2)); lia.
  - assert (D1 = 2 * r1) by lia. assert (D2 <= 2 * r2) by nia.
    destruct (Z.ltb_spec (2 * r2) D2); [lia |].
    destruct (Z.ltb_spec D2 (2 * r2)); [destruct (Z.even q); lia | lia].
Qed.

Lemma rnd_exact (N D : Z) : 0 < D -> rnd (N * D) D = N.
Proof.
  intros H. unfold rnd. rewrite Z.div_mul by lia. rewrite Z.mod_mul by lia.
  unfold rne. destruct (Z.ltb_spec (2 * 0) D); lia.
Qed.

Lemma rnd_le (A D N : Z) : 0 < D -> A <= N * D -> rnd A D <= N.
Proof.
  intros H HA. rewrite <- (rnd_exact N D H). apply rnd_mono; nia.
Qed.

Lemma rnd_ge (A D N : Z) : 0 < D -> N * D <= A -> N <= rnd A D.
Proof.
  intros H HA. rewrite <- (rnd_exact N D H). apply rnd_mono; nia.
Qed.

(** ** Rounding to the format, on values counted in units of the smallest
    positive float *)

Lemma round_key_mono (A1 B1 A2 B2 : Z) :
  0 <= A1 -> 0 < B1 -> 0 < B2 -> A1 * B2 <= A2 * B1 ->
  round_key A1 B1 <= round_key A2 B2.
Proof.
  intros HA1 HB1 HB2 H. unfold round_key.
  assert (HA2 : 0 <= A2) by nia.
  pose proof (div_le_cross _ _ _ _ HB1 HB2 H) as Hf.
  assert (Hf1 : 0 <= A1 / B1) by (apply Z.div_pos; lia).
  pose proof (dg_mono (A1 / B1) (A2 / B2) ltac:(lia)) as Hd.
  set (f1 := A1 / B1) in *. set (f2 := A2 / B2) in *.
  set (E1 := Z.max (dg f1 - prec) 0). set (E2 := Z.max (dg f2 - prec) 0).
  assert (HE1 : 0 <= E1) by lia. assert (HE2 : 0 <= E2) by lia.
  pose proof (pow2_pos E1 HE1) as P1. pose proof (pow2_pos E2 HE2) as P2.
  destruct (Z.eq_dec E1 E2) as [Heq | Hne].
  - rewrite <- Heq. apply Z.mul_le_mono_nonneg_r; [lia |].
    apply rnd_mono; nia.
  - assert (HE : E1 < E2) by lia.
    assert (Hd2 : E2 = dg f2 - prec) by lia.
    assert (Hf2 : 0 < f2).
    { destruct (Z.eq_dec f2 0) as [Hz |]; [| lia].
      rewrite Hz, dg_0 in Hd2. unfold prec in Hd2. lia. }
    destruct (dg_bounds f2 Hf2) as [Flo _].
    (* upper bound on the first *)
    assert (U : rnd A1 (B1 * 2 ^ E1) <= 2 ^ prec).
    { apply rnd_le; [nia |].
      assert (Hlt : A1 < (f1 + 1) * B1).
      { pose proof (Z.mul_succ_div_gt A1 B1 HB1). unfold f1. lia. }
      assert (Hp : f1 + 1 <= 2 ^ (prec + E1)).
      { destruct (Z.eq_dec f1 0) as [Hz | Hnz].
        - rewrite Hz. pose proof (pow2_pos (prec + E1)). unfold prec in *. lia.
        - destruct (dg_bounds f1 ltac:(lia)) as [_ Fhi].
          pose proof (pow2_le (dg f1) (prec + E1)).
          pose proof (dg_nonneg f1). lia. }
      rewrite Z.pow_add_r in Hp by (unfold prec; lia). nia. }
    (* lower bound on the second *)
    assert (L : 2 ^ (prec - 1) <= rnd A2 (B2 * 2 ^ E2)).
    { apply rnd_ge; [nia |].
      assert (Hge : f2 * B2 <= A2).
      { pose proof (Z.mul_div_le A2 B2 HB2). unfold f2. lia. }
      replace (dg f2 - 1) with ((prec - 1) + E2) in Flo by lia.
      rewrite Z.pow_add_r in Flo by (unfold prec; lia). nia. }
    assert (Hpw : 2 ^ prec * 2 ^ E1 <= 2 ^ (prec - 1) * 2 ^ E2).
    { rewrite <- !Z.pow_add_r by (unfold prec; lia).
      apply pow2_le. unfold prec. lia. }
    nia.
Qed.

Lemma round_key_ext (A1 B1 A2 B2 : Z) :
  0 <= A1 -> 0 <= A2 -> 0 < B1 -> 0 < B2 -> A1 * B2 = A2 * B1 ->
  round_key A1 B1 = round_key A2 B2.
Proof.
  intros. apply Z.le_antisymm; apply round_key_mono; lia.
Qed.

Lemma round_key_nonneg (A B : Z) : 0 <= A -> 0 < B -> 0 <= round_key A B.
Proof.
  intros HA HB. unfold round_key.
  set (E := Z.max _ 0). pose proof (pow2_pos E ltac:(lia)).
  apply Z.mul_nonneg_nonneg; [| lia].
  apply (rnd_ge A (B * 2 ^ E) 0); nia.
Qed.

Lemma round_key_0 (B : Z) : 0 < B -> round_key 0 B = 0.
Proof.
  intros HB. unfold round_key. rewrite Z.div_0_l by lia. rewrite dg_0.
  rewrite Z.max_r by (unfold prec; lia).
  pose proof (rnd_exact 0 (B * 2 ^ 0) ltac:(lia)) as H.
  rewrite Z.mul_0_l in H. rewrite H. lia.
Qed.

(** ** The shifts of [SpecFloat] *)

Lemma rec_ok_init (X Y : Z) :
  0 <= X -> 0 < Y ->
  rec_ok X Y (shr_record_of_loc (X / Y) (loc_of_rem (X mod Y) Y)).
Proof.
  intros HX HY. pose proof (Z.mod_pos_bound X Y HY) as Hr.
  unfold rec_ok, loc_of_rem. set (r := X mod Y) in *.
  destruct (Z.eqb_spec r 0) as [-> | Hnz]; simpl.
  - repeat split. symmetry. apply Z.leb_gt. lia.
  - destruct (Z.compare_spec (2 * r) Y); simpl; repeat split;
      repeat match goal with
             | |- context [?a <=? ?b] => destruct (Z.leb_spec a b)
             | |- context [?a =? ?b] => destruct (Z.eqb_spec a b)
             end; simpl; try lia; reflexivity.
Qed.

Lemma shr_1_nonneg (m : Z) (r s : bool) :
  0 <= m ->
  shr_1 {| shr_m := m; shr_r := r; shr_s := s |}
  = {| shr_m := m / 2; shr_r := Z.odd m; shr_s := r || s |}.
Proof.
  intros Hm. destruct m as [| p | p]; [reflexivity | | lia].
  destruct p as [p | p |]; simpl.
  - f_equal. rewrite Pos2Z.inj_xI. symmetry.
    rewrite Z.add_comm, Z.mul_comm. rewrite Z.div_add by lia. reflexivity.
  - f_equal. rewrite Pos2Z.inj_xO. symmetry.
    rewrite Z.mul_comm. apply Z.div_mul. lia.
  - reflexivity.
Qed.

Lemma shr_1_ok (X Y : Z) (mrs : shr_record) :
  0 <= X -> 0 < Y -> rec_ok X Y mrs -> rec_ok X (Y * 2) (shr_1 mrs).
Proof.
  intros HX HY (Hm & Hr & Hs). destruct mrs as [m r s].
  simpl in Hm, Hr, Hs.
  assert (Hm0 : 0 <= m) by (subst m; apply Z.div_pos; lia).
  rewrite shr_1_nonneg by done.
  pose proof (Z.mod_pos_bound X Y HY) as Hrem.
  assert (Hmod : X mod (Y * 2) = X mod Y + Y * ((X / Y) mod 2)).
  { apply Z.rem_mul_r; lia. }
  assert (Hdiv : X / (Y * 2) = X / Y / 2).
  { symmetry. apply Z.div_div; lia. }
  rewrite <- Hm in Hmod, Hdiv.
  pose proof (Zmod_odd m) as Hodd.
  unfold rec_ok. simpl. rewrite Hmod, Hdiv, Hodd. subst r s.
  set (rem := X mod Y) in *. clearbody rem.
  destruct (Z.odd m); simpl; repeat split;
    repeat match goal with
           | |- context [?a <=? ?b] => destruct (Z.leb_spec a b)
           | |- context [?a =? ?b] => destruct (Z.eqb_spec a b)
           end; simpl; try lia; reflexivity.
Qed.

Lemma iter_pos_nat {A : Type} (f : A -> A) (p : positive) (x : A) :
  SpecFloat.iter_pos f p x = Nat.iter (Pos.to_nat p) f x.
Proof.
  revert x. induction p as [p IH | p IH |]; intros x.
  - change (SpecFloat.iter_pos f p~1 x)
      with (SpecFloat.iter_pos f p (SpecFloat.iter_pos f p (f x))).
    rewrite !IH, Pos2Nat.inj_xI, Nat.iter_succ_r.
    replace (2 * Pos.to_nat p)%nat with (Pos.to_nat p + Pos.to_nat p)%nat by lia.
    by rewrite Nat.iter_add.
  - change (SpecFloat.iter_pos f p~0 x)
      with (SpecFloat.iter_pos f p (SpecFloat.iter_pos f p x)).
    rewrite !IH, Pos2Nat.inj_xO.
    replace (2 * Pos.to_nat p)%nat with (Pos.to_nat p + Pos.to_nat p)%nat by lia.
    by rewrite Nat.iter_add.
  - reflexivity.
Qed.

Lemma iter_shr_1_ok (n : nat) (X Y : Z) (mrs : shr_record) :
  0 <= X -> 0 < Y -> rec_ok X Y mrs ->
  rec_ok X (Y * 2 ^ Z.of_nat n) (Nat.iter n shr_1 mrs).
Proof.
  intros HX HY H. induction n as [| n IH].
  - simpl. by rewrite Z.mul_1_r.
  - rewrite Nat2Z.inj_succ, Z.pow_succ_r by lia. simpl.
    replace (Y * (2 * 2 ^ Z.of_nat n)) with (Y * 2 ^ Z.of_nat n * 2) by lia.
    apply shr_1_ok; [done | | done].
    pose proof (pow2_pos (Z.of_nat n)). nia.
Qed.

Lemma shr_ok (X Y : Z) (mrs : shr_record) (e n : Z) :
  0 <= X -> 0 < Y -> 0 <= n -> rec_ok X Y mrs ->
  rec_ok X (Y * 2 ^ n) (fst (shr mrs e n)) /\ snd (shr mrs e n) = e + n.
Proof.
  intros HX HY Hn H. destruct n as [| p | p]; [| | lia].
  - simpl. rewrite Z.mul_1_r, Z.add_0_r. done.
  - simpl. split; [| done]. rewrite iter_pos_nat.
    rewrite <- (positive_nat_Z p). by apply iter_shr_1_ok.
Qed.

Lemma rne_rec_ok (X Y : Z) (mrs : shr_record) :
  0 <= X -> 0 < Y -> rec_ok X Y mrs ->
  round_nearest_even (shr_m mrs) (loc_of_shr_record mrs) = rnd X Y.
Proof.
  intros HX HY (Hm & Hr & Hs). destruct mrs as [m r s]. simpl in *.
  pose proof (Z.mod_pos_bound X Y HY) as Hrem.
  unfold rnd, rne. rewrite <- Hm. set (rem := X mod Y) in *. clearbody rem.
  subst r s.
  repeat match goal with
         | |- context [?a <=? ?b] => destruct (Z.leb_spec a b)
         | |- context [?a <? ?b] => destruct (Z.ltb_spec a b)
         | |- context [?a =? ?b] => destruct (Z.eqb_spec a b)
         end; simpl; try lia; reflexivity.
Qed.

(** ** [binary_round_aux] rounds *)

Lemma emin_val : emin = -1074.
Proof. reflexivity. Qed.

Lemma fexp_ge_emin (e : Z) : emin <= fexp64 e.
Proof. unfold fexp. lia. Qed.

Lemma rnd_scale (A D c : Z) : 0 < D -> 0 < c -> rnd (A * c) (D * c) = rnd A D.
Proof.
  intros HD Hc. apply Z.le_antisymm; apply rnd_mono; nia.
Qed.

Lemma shr_unchanged (mrs : shr_record) (e n : Z) :
  n <= 0 -> shr mrs e n = (mrs, e).
Proof. intros Hn. destruct n; [reflexivity | lia | reflexivity]. Qed.

Lemma shr_fexp_first (mx ex : Z) (lx : location) (X Y : Z) :
  0 <= X -> 0 < Y -> mx = X / Y -> lx = loc_of_rem (X mod Y) Y ->
  ex <= fexp64 (dg mx + ex) ->
  rec_ok X (Y * 2 ^ (fexp64 (dg mx + ex) - ex))
    (fst (shr_fexp prec emax mx ex lx)) /\
  snd (shr_fexp prec emax mx ex lx) = fexp64 (dg mx + ex).
Proof.
  intros HX HY Hm Hl He. unfold shr_fexp. fold (dg mx).
  destruct (shr_ok X Y (shr_record_of_loc mx lx) ex
              (fexp64 (dg mx + ex) - ex) HX HY ltac:(lia)) as [H1 H2].
  { subst mx lx. by apply rec_ok_init. }
  split; [exact H1 |]. rewrite H2. lia.
Qed.

Lemma shr_fexp_carry (R E0 : Z) :
  0 <= R <= 2 ^ prec -> emin <= E0 ->
  let mrs := fst (shr_fexp prec emax R E0 loc_Exact) in
  let E3 := snd (shr_fexp prec emax R E0 loc_Exact) in
  shr_m mrs * 2 ^ (E3 - emin) = R * 2 ^ (E0 - emin) /\
  0 <= shr_m mrs < 2 ^ prec /\ E0 <= E3 <= E0 + 1 /\
  (2 ^ (prec - 1) <= R -> 2 ^ (prec - 1) <= shr_m mrs).
Proof.
  intros [HR0 HR] HE. unfold shr_fexp. fold (dg R).
  destruct (Z.eq_dec R (2 ^ prec)) as [-> | Hne].
  - (* the rounded mantissa has one digit too many *)
    assert (Hd : dg (2 ^ prec) = prec + 1) by reflexivity.
    rewrite Hd. unfold fexp.
    replace (Z.max (prec + 1 + E0 - prec) emin - E0) with 1 by lia.
    assert (Hs : shr (shr_record_of_loc (2 ^ prec) loc_Exact) E0 1
                 = ({| shr_m := 2 ^ (prec - 1); shr_r := false;
                       shr_s := false |}, E0 + 1)) by reflexivity.
    rewrite Hs. cbn [fst snd shr_m].
    replace (E0 + 1 - emin) with (Z.succ (E0 - emin)) by lia.
    rewrite Z.pow_succ_r by lia.
    assert (P : 2 ^ prec = 2 * 2 ^ (prec - 1)) by reflexivity.
    pose proof (pow2_pos (prec - 1) ltac:(unfold prec; lia)).
    repeat split; lia.
  - assert (Hd : dg R <= prec).
    { destruct (Z.eq_dec R 0) as [-> | Hnz]; [rewrite dg_0; unfold prec; lia |].
      destruct (dg_bounds R ltac:(lia)) as [Lo _].
      destruct (Z_lt_le_dec prec (dg R)) as [Hlt | Hle]; [| done].
      pose proof (pow2_le prec (dg R - 1) ltac:(unfold prec in *; lia)). lia. }
    rewrite shr_unchanged by (unfold fexp; lia). cbn [fst snd shr_m].
    unfold shr_record_of_loc. cbn [shr_m]. repeat split; lia.
Qed.

Lemma round_key_shift (X Y mx ex : Z) :
  0 <= X -> 0 < Y -> mx = X / Y -> ex <= fexp64 (dg mx + ex) ->
  round_key (keyA X (ex - emin)) (keyB Y (ex - emin))
  = rnd X (Y * 2 ^ (fexp64 (dg mx + ex) - ex))
    * 2 ^ (fexp64 (dg mx + ex) - emin).
Proof.
  intros HX HY Hm He. unfold round_key, keyA, keyB.
  set (k := ex - emin). set (E0 := fexp64 (dg mx + ex)) in *.
  assert (Hmx : 0 <= mx) by (subst mx; apply Z.div_pos; lia).
  pose proof (dg_nonneg mx) as Hdg.
  assert (HE0 : E0 - emin = Z.max (dg mx + k - prec) 0).
  { unfold E0, fexp, k. lia. }
  assert (Hprec : 0 < prec) by (unfold prec; lia).
  assert (Hdig : Z.max (dg (X * 2 ^ Z.max k 0 / (Y * 2 ^ Z.max (- k) 0)) - prec) 0
                 = E0 - emin).
  { rewrite HE0. destruct (Z_le_gt_dec 0 k) as [Hk | Hk].
    - rewrite (Z.max_l k 0), (Z.max_r (- k) 0) by lia.
      rewrite Z.pow_0_r, Z.mul_1_r.
      destruct (Z.eq_dec mx 0) as [Hz | Hnz].
      + assert (k = 0).
        { unfold E0 in He. rewrite Hz, dg_0 in He. unfold fexp in He.
          unfold k. lia. }
        replace k with 0 by lia. rewrite Z.pow_0_r, Z.mul_1_r, <- Hm, Hz. done.
      + pose proof (pow2_pos k Hk) as Pk.
        rewrite (dg_scaled mx (X * 2 ^ k / Y) k); [done | lia | done |].
        pose proof (Z.mul_div_le X Y HY). pose proof (Z.mul_succ_div_gt X Y HY).
        rewrite <- Hm in *. split.
        * apply Z.div_le_lower_bound; [done |]. nia.
        * apply Z.div_lt_upper_bound; [done |]. nia.
    - rewrite (Z.max_r k 0), (Z.max_l (- k) 0) by lia.
      rewrite Z.pow_0_r, Z.mul_1_r.
      pose proof (pow2_pos (- k) ltac:(lia)) as Pk.
      rewrite <- Z.div_div by lia. rewrite <- Hm.
      rewrite dg_div_pow2 by lia. lia. }
  rewrite Hdig. f_equal.
  assert (HEk : 0 <= E0 - emin) by lia.
  destruct (Z_le_gt_dec 0 k) as [Hk | Hk].
  - rewrite (Z.max_l k 0), (Z.max_r (- k) 0) by lia.
    rewrite Z.pow_0_r, Z.mul_1_r.
    replace (E0 - emin) with ((E0 - ex) + k) by (unfold k; lia).
    rewrite Z.pow_add_r by lia. rewrite Z.mul_assoc.
    pose proof (pow2_pos k Hk). pose proof (pow2_pos (E0 - ex) ltac:(lia)).
    apply rnd_scale; nia.
  - rewrite (Z.max_r k 0), (Z.max_l (- k) 0) by lia.
    rewrite Z.pow_0_r, Z.mul_1_r. rewrite <- Z.mul_assoc.
    rewrite <- Z.pow_add_r by lia.
    replace (- k + (E0 - emin)) with (E0 - ex) by (unfold k; lia). reflexivity.
Qed.

Lemma binary_round_aux_key (sx : bool) (mx ex : Z) (lx : location) (X Y : Z) :
  0 <= X -> 0 < Y -> mx = X / Y -> lx = loc_of_rem (X mod Y) Y ->
  ex <= fexp64 (dg mx + ex) ->
  SFkey (binary_round_aux prec emax sx mx ex lx)
  = Some (cond_Zopp sx
            (Z.min (round_key (keyA X (ex - emin)) (keyB Y (ex - emin))) INF)).
Proof.
  intros HX HY Hm Hl He.
  pose proof emin_val as Vemin.
  assert (Vprec : prec = 53) by reflexivity.
  assert (Vemax : emax = 1024) by reflexivity.
  rewrite (round_key_shift X Y mx ex HX HY Hm He).
  destruct (shr_fexp_first mx ex lx X Y HX HY Hm Hl He) as [R1 E1].
  unfold binary_round_aux.
  destruct (shr_fexp prec emax mx ex lx) as [mrs1 e1]. simpl in R1, E1.
  subst e1. set (E0 := fexp64 (dg mx + ex)) in *.
  assert (HE0 : emin <= E0) by apply fexp_ge_emin.
  pose proof (pow2_pos (E0 - ex) ltac:(lia)) as Pn.
  rewrite (rne_rec_ok X (Y * 2 ^ (E0 - ex)) mrs1 HX ltac:(nia) R1).
  set (R := rnd X (Y * 2 ^ (E0 - ex))).
  assert (Hmx : 0 <= mx) by (subst mx; apply Z.div_pos; lia).
  assert (HR0 : 0 <= R) by (apply rnd_ge; nia).
  assert (Hprec : 0 < prec) by lia.
  assert (HXlt : X < (mx + 1) * Y).
  { pose proof (Z.mul_succ_div_gt X Y HY). rewrite <- Hm in *. lia. }
  assert (HXge : mx * Y <= X).
  { pose proof (Z.mul_div_le X Y HY). rewrite <- Hm in *. lia. }
  assert (HR : R <= 2 ^ prec).
  { apply rnd_le; [nia |].
    assert (Hp : mx + 1 <= 2 ^ (prec + (E0 - ex))).
    { destruct (Z.eq_dec mx 0) as [-> | Hnz].
      - pose proof (pow2_pos (prec + (E0 - ex)) ltac:(lia)). lia.
      - destruct (dg_bounds mx ltac:(lia)) as [_ Hi].
        pose proof (pow2_le (dg mx) (prec + (E0 - ex))).
        pose proof (dg_nonneg mx). unfold E0, fexp in *. lia. }
    rewrite Z.pow_add_r in Hp by lia. nia. }
  assert (Hnormal : emin < E0 -> 2 ^ (prec - 1) <= R).
  { intros Hn. apply rnd_ge; [nia |].
    assert (Hd : dg mx = prec + (E0 - ex)) by (unfold E0, fexp in *; lia).
    assert (Hmx' : 0 < mx).
    { destruct (Z.eq_dec mx 0) as [Hz |]; [| lia].
      rewrite Hz, dg_0 in Hd. lia. }
    destruct (dg_bounds mx Hmx') as [Lo _]. rewrite Hd in Lo.
    replace (prec + (E0 - ex) - 1) with ((prec - 1) + (E0 - ex)) in Lo by lia.
    rewrite Z.pow_add_r in Lo by lia. nia. }
  destruct (shr_fexp_carry R E0 ltac:(lia) HE0) as (Hval & Hm3 & HE3 & Hbig).
  destruct (shr_fexp prec emax R E0 loc_Exact) as [mrs2 E3].
  cbn [fst snd] in Hval, Hm3, HE3, Hbig.
  pose proof (pow2_pos (E3 - emin) ltac:(lia)) as P3.
  pose proof (pow2_pos (E0 - emin) ltac:(lia)) as P0.
  assert (HINF : INF = 2 ^ prec * 2 ^ (emax - prec - emin)) by reflexivity.
  destruct (shr_m mrs2) as [| m3 | m3] eqn:Hs; [| | lia].
  - simpl. f_equal. assert (R = 0) by nia. rewrite H. simpl.
    rewrite Z.min_l by (unfold INF; pose proof (pow2_pos (emax - emin));
                        lia).
    by destruct sx.
  - destruct (Z.leb_spec E3 (emax - prec)) as [Hfin | Hinf]; simpl; f_equal; f_equal.
    + rewrite Hval. symmetry. apply Z.min_l. rewrite <- Hval, HINF.
      pose proof (pow2_le (E3 - emin) (emax - prec - emin) ltac:(lia)).
      pose proof (pow2_pos (emax - prec - emin) ltac:(lia)).
      nia.
    + symmetry. apply Z.min_r. rewrite <- Hval.
      assert (Hb : 2 ^ (prec - 1) <= Z.pos m3).
      { apply Hbig. apply Hnormal. lia. }
      replace INF with (2 ^ (prec - 1) * 2 ^ (emax - prec + 1 - emin)) by reflexivity.
      pose proof (pow2_le (emax - prec + 1 - emin) (E3 - emin) ltac:(lia)).
      pose proof (pow2_pos (emax - prec + 1 - emin) ltac:(lia)).
      pose proof (pow2_pos (prec - 1) ltac:(lia)).
      nia.
Qed.

(** ** Canonical floats and their order *)

Lemma valid_finite (s : bool) (m : positive) (e : Z) :
  valid_binary (S754_finite s m e) = true ->
  e = fexp64 (dg (Zpos m) + e) /\ e <= emax - prec.
Proof.
  unfold SpecFloat.valid_binary, bounded, canonical_mantissa. intros H.
  apply andb_true_iff in H as [H1 H2].
  apply Z.eqb_eq in H1. apply Z.leb_le in H2. split; [| done].
  unfold dg. simpl. lia.
Qed.

Lemma valid_finite_bounds (s : bool) (m : positive) (e : Z) :
  valid_binary (S754_finite s m e) = true ->
  emin <= e /\ e <= emax - prec /\ Zpos m < 2 ^ prec /\
  (emin < e -> 2 ^ (prec - 1) <= Zpos m).
Proof.
  intros H. apply valid_finite in H as [Hc He].
  assert (Vprec : prec = 53) by reflexivity.
  destruct (dg_bounds (Zpos m) ltac:(lia)) as [Lo Hi].
  pose proof (dg_pos (Zpos m) ltac:(lia)) as Hd.
  unfold fexp in Hc. repeat split; try lia.
  - pose proof (pow2_le (dg (Zpos m)) prec ltac:(lia)). lia.
  - intros Hn. assert (dg (Z.pos m) = prec) by lia.
    replace (prec - 1) with (dg (Z.pos m) - 1) by lia. done.
Qed.

Lemma key_lt_exp (m1 m2 : positive) (e1 e2 : Z) (s1 s2 : bool) :
  valid_binary (S754_finite s1 m1 e1) = true ->
  valid_binary (S754_finite s2 m2 e2) = true ->
  e1 < e2 ->
  Zpos m1 * 2 ^ (e1 - emin) < Zpos m2 * 2 ^ (e2 - emin).
Proof.
  intros V1 V2 He.
  apply valid_finite_bounds in V1 as (A1 & B1 & C1 & D1).
  apply valid_finite_bounds in V2 as (A2 & B2 & C2 & D2).
  assert (Vprec : prec = 53) by reflexivity.
  specialize (D2 ltac:(lia)).
  pose proof (pow2_pos (e1 - emin) ltac:(lia)) as P1.
  pose proof (pow2_le (e1 - emin + 1) (e2 - emin) ltac:(lia)) as P2.
  replace (e1 - emin + 1) with (Z.succ (e1 - emin)) in P2 by lia.
  rewrite Z.pow_succ_r in P2 by lia.
  assert (P : 2 ^ prec = 2 * 2 ^ (prec - 1)) by reflexivity.
  pose proof (pow2_pos (prec - 1) ltac:(lia)).
  nia.
Qed.

Lemma key_finite_lt_INF (s : bool) (m : positive) (e : Z) :
  valid_binary (S754_finite s m e) = true ->
  0 < Zpos m * 2 ^ (e - emin) < INF.
Proof.
  intros V. apply valid_finite_bounds in V as (A & B & C & _).
  assert (Vprec : prec = 53) by reflexivity.
  assert (Vemax : emax = 1024) by reflexivity.
  pose proof (pow2_pos (e - emin) ltac:(lia)).
  pose proof (pow2_le (e - emin) (emax - prec - emin) ltac:(lia)).
  assert (HINF : INF = 2 ^ prec * 2 ^ (emax - prec - emin)) by reflexivity.
  split; [lia |]. rewrite HINF. nia.
Qed.

Lemma key_compare_finite (m1 m2 : positive) (e1 e2 : Z) (s1 s2 : bool) :
  valid_binary (S754_finite s1 m1 e1) = true ->
  valid_binary (S754_finite s2 m2 e2) = true ->
  (Zpos m1 * 2 ^ (e1 - emin) ?= Zpos m2 * 2 ^ (e2 - emin))
  = match e1 ?= e2 with
    | Lt => Lt
    | Gt => Gt
    | Eq => Pos.compare_cont Eq m1 m2
    end.
Proof.
  intros V1 V2. destruct (Z.compare_spec e1 e2) as [-> | Hlt | Hgt].
  - pose proof (valid_finite_bounds _ _ _ V2) as (A & _).
    pose proof (pow2_pos (e2 - emin) ltac:(lia)).
    change (Pos.compare_cont Eq m1 m2) with (Z.pos m1 ?= Z.pos m2).
    destruct (Z.compare_spec (Z.pos m1) (Z.pos m2)) as [E | L | G].
    + rewrite E. apply Z.compare_refl.
    + apply Z.compare_lt_iff. nia.
    + apply Z.compare_gt_iff. nia.
  - apply Z.compare_lt_iff. by eapply key_lt_exp.
  - apply Z.compare_gt_iff. by eapply key_lt_exp.
Qed.

Ltac cmp_solve :=
  f_equal; symmetry;
  first [ apply Z.compare_refl
        | apply Z.compare_lt_iff; lia
        | apply Z.compare_gt_iff; lia ].

Lemma SFcompare_key (x y : spec_float) :
  valid_binary x = true -> valid_binary y = true ->
  SFcompare x y =
  match SFkey x, SFkey y with
  | Some a, Some b => Some (a ?= b)
  | _, _ => None
  end.
Proof.
  intros Vx Vy.
  assert (HI : 0 < INF) by (apply pow2_pos; done).
  destruct x as [sx | sx | | sx mx ex], y as [sy | sy | | sy my ey];
    try reflexivity;
    try pose proof (key_finite_lt_INF _ _ _ Vx);
    try pose proof (key_finite_lt_INF _ _ _ Vy);
    try (destruct sx); try (destruct sy);
    unfold SFcompare, SFkey, cond_Zopp; try cmp_solve.
  - f_equal. rewrite Z.compare_opp.
    rewrite (key_compare_finite _ _ _ _ _ _ Vy Vx).
    rewrite (Z.compare_antisym ey ex).
    destruct (ey ?= ex); simpl; try reflexivity.
    rewrite Pos.compare_cont_antisym. reflexivity.
  - f_equal. rewrite (key_compare_finite _ _ _ _ _ _ Vx Vy). reflexivity.
Qed.

(** ** Subtraction *)

Lemma pos_iter_xO (m d : positive) :
  Zpos (Pos.iter xO m d) = Zpos m * 2 ^ Zpos d.
Proof.
  induction d as [| d IH] using Pos.peano_ind.
  - simpl. lia.
  - rewrite Pos.iter_succ, Pos2Z.inj_xO, IH, Pos2Z.inj_succ.
    rewrite Z.pow_succ_r by lia. lia.
Qed.

Lemma shl_align_le (m : positive) (e e' : Z) :
  e' <= e ->
  Zpos (fst (shl_align m e e')) = Zpos m * 2 ^ (e - e') /\
  snd (shl_align m e e') = e'.
Proof.
  intros H. unfold shl_align. destruct (e' - e) as [| d | d] eqn:Hd; [| lia |].
  - assert (e' = e) by lia. subst. rewrite Z.sub_diag. simpl. lia.
  - cbn [fst snd]. rewrite pos_iter_xO. split; [| done]. do 2 f_equal. lia.
Qed.

Lemma shl_align_gt (m : positive) (e e' : Z) :
  e < e' -> shl_align m e e' = (m, e).
Proof.
  intros H. unfold shl_align. destruct (e' - e) as [| d | d] eqn:Hd; [lia | done | lia].
Qed.

Lemma round_pos_mono (A1 B1 A2 B2 : Z) :
  0 <= A1 -> 0 < B1 -> 0 < B2 -> A1 * B2 <= A2 * B1 ->
  round_pos A1 B1 <= round_pos A2 B2.
Proof.
  intros. unfold round_pos.
  pose proof (round_key_mono A1 B1 A2 B2). lia.
Qed.

Lemma round_pos_bounds (A B : Z) : 0 <= A -> 0 < B -> 0 <= round_pos A B <= INF.
Proof.
  intros HA HB. unfold round_pos. pose proof (round_key_nonneg A B HA HB).
  assert (0 < INF) by (apply pow2_pos; done). lia.
Qed.

Lemma binary_round_key (sx : bool) (mx : positive) (ex : Z) :
  emin <= ex ->
  SFkey (binary_round prec emax sx mx ex)
  = Some (cond_Zopp sx (round_pos (Zpos mx * 2 ^ (ex - emin)) 1)).
Proof.
  intros He. unfold binary_round, round_pos.
  change (Z.pos (digits2_pos mx)) with (dg (Zpos mx)).
  set (e' := fexp64 (dg (Z.pos mx) + ex)).
  assert (He' : emin <= e') by apply fexp_ge_emin.
  destruct (shl_align mx ex e') as [mz ez] eqn:Hsh.
  assert (Hz : Zpos mz * 2 ^ (ez - emin) = Zpos mx * 2 ^ (ex - emin) /\
               emin <= ez /\ ez <= fexp64 (dg (Zpos mz) + ez)).
  { destruct (Z_lt_le_dec ex e') as [Hlt | Hge].
    - rewrite shl_align_gt in Hsh by done. injection Hsh as <- <-.
      fold e'. lia.
    - destruct (shl_align_le mx ex e' Hge) as [H1 H2]. rewrite Hsh in H1, H2.
      cbn [fst snd] in H1, H2. subst ez. rewrite H1.
      pose proof (pow2_pos (ex - e') ltac:(lia)) as P.
      split; [| split; [done |]].
      + rewrite <- Z.mul_assoc, <- Z.pow_add_r by lia. do 2 f_equal. lia.
      + rewrite (dg_scaled (Zpos mx) (Z.pos mx * 2 ^ (ex - e')) (ex - e'));
          [| lia | lia | nia].
        replace (dg (Z.pos mx) + (ex - e') + e') with (dg (Z.pos mx) + ex) by lia.
        fold e'. lia. }
  destruct Hz as (Hv & Hez & Hc).
  rewrite (binary_round_aux_key sx (Zpos mz) ez loc_Exact (Zpos mz) 1);
    [| lia | lia | by rewrite Z.div_1_r | by rewrite Z.mod_1_r | done].
  unfold keyA, keyB. rewrite (Z.max_l (ez - emin) 0), (Z.max_r _ 0) by lia.
  rewrite Hv. reflexivity.
Qed.

(** A float is a fixed point of the rounding. *)
Lemma round_pos_fixed (s : bool) (m : positive) (e : Z) :
  valid_binary (S754_finite s m e) = true ->
  round_pos (Zpos m * 2 ^ (e - emin)) 1 = Zpos m * 2 ^ (e - emin).
Proof.
  intros V. pose proof (key_finite_lt_INF _ _ _ V) as HK.
  destruct (valid_finite _ _ _ V) as [Hc He].
  pose proof (valid_finite_bounds _ _ _ V) as (Hemin & _).
  unfold round_pos.
  assert (Hr : round_key (Z.pos m * 2 ^ (e - emin)) 1 = Z.pos m * 2 ^ (e - emin)).
  2:{ rewrite Hr. lia. }
  unfold round_key. rewrite Z.div_1_r.
  pose proof (pow2_pos (e - emin) ltac:(lia)) as P.
  rewrite (dg_scaled (Zpos m) _ (e - emin)); [| lia | lia | nia].
  assert (HE : Z.max (dg (Z.pos m) + (e - emin) - prec) 0 = e - emin).
  { unfold fexp in Hc. lia. }
  rewrite HE, Z.mul_1_l, rnd_exact by done. lia.
Qed.

Lemma round_signed_mono (K1 K2 : Z) :
  K1 <= K2 -> round_signed K1 <= round_signed K2.
Proof.
  intros H. unfold round_signed.
  destruct (Z.ltb_spec K1 0), (Z.ltb_spec K2 0).
  - pose proof (round_pos_mono (- K2) 1 (- K1) 1). lia.
  - pose proof (round_pos_bounds (- K1) 1). pose proof (round_pos_bounds K2 1).
    lia.
  - lia.
  - apply round_pos_mono; lia.
Qed.

Lemma round_signed_fixed (x : spec_float) (k : Z) :
  valid_binary x = true -> is_finite_SF x = true -> SFkey x = Some k ->
  round_signed k = k.
Proof.
  intros V F K. destruct x as [s | s | | s m e]; try discriminate.
  - injection K as <-. unfold round_signed. simpl. unfold round_pos.
    rewrite round_key_0 by lia. assert (0 < INF) by (apply pow2_pos; done). lia.
  - injection K as <-. pose proof (key_finite_lt_INF _ _ _ V).
    pose proof (round_pos_fixed _ _ _ V) as Hf.
    unfold round_signed. destruct s; simpl.
    + destruct (Z.ltb_spec (- (Z.pos m * 2 ^ (e - emin))) 0); [| lia].
      rewrite Z.opp_involutive, Hf. done.
    + destruct (Z.ltb_spec (Z.pos m * 2 ^ (e - emin)) 0); [lia |]. done.
Qed.

Lemma binary_normalize_key (D e : Z) (sz : bool) :
  emin <= e ->
  SFkey (binary_normalize prec emax D e sz)
  = Some (round_signed (D * 2 ^ (e - emin))).
Proof.
  intros He. pose proof (pow2_pos (e - emin) ltac:(lia)) as P.
  unfold binary_normalize, round_signed. destruct D as [| p | p].
  - simpl. unfold round_pos. rewrite round_key_0 by lia.
    assert (0 < INF) by (apply pow2_pos; done). f_equal; lia.
  - rewrite binary_round_key by done.
    destruct (Z.ltb_spec (Z.pos p * 2 ^ (e - emin)) 0); [lia |]. done.
  - rewrite binary_round_key by done.
    destruct (Z.ltb_spec (Z.neg p * 2 ^ (e - emin)) 0); [| lia].
    simpl. do 3 f_equal. lia.
Qed.

Lemma SFsub_key (x y : spec_float) (kx ky : Z) :
  valid_binary x = true -> valid_binary y = true ->
  is_finite_SF x = true -> is_finite_SF y = true ->
  SFkey x = Some kx -> SFkey y = Some ky ->
  SFkey (SF64sub x y) = Some (round_signed (kx - ky)).
Proof.
  intros Vx Vy Fx Fy Kx Ky.
  destruct x as [sx | sx | | sx mx ex], y as [sy | sy | | sy my ey];
    try discriminate.
  - (* zero - zero *)
    injection Kx as <-. injection Ky as <-. change (0 - 0) with 0.
    rewrite (round_signed_fixed (S754_zero false) 0) by done.
    by destruct sx, sy.
  - (* zero - finite *)
    injection Kx as <-. injection Ky as <-.
    assert (V' : valid_binary (S754_finite (negb sy) my ey) = true) by done.
    rewrite (round_signed_fixed (S754_finite (negb sy) my ey)
               (0 - cond_Zopp sy (Z.pos my * 2 ^ (ey - emin)))); try done.
    + simpl. f_equal. destruct sy; simpl; lia.
    + simpl. f_equal. destruct sy; simpl; lia.
  - (* finite - zero *)
    injection Kx as <-. injection Ky as <-. rewrite Z.sub_0_r.
    rewrite (round_signed_fixed (S754_finite sx mx ex) _ Vx); try done.
  - (* finite - finite *)
    injection Kx as <-. injection Ky as <-.
    pose proof (valid_finite_bounds _ _ _ Vx) as (Ax & _).
    pose proof (valid_finite_bounds _ _ _ Vy) as (Ay & _).
    unfold SF64sub, SFsub. set (ez := Z.min ex ey).
    rewrite binary_normalize_key by lia. f_equal. f_equal.
    destruct (shl_align_le mx ex ez ltac:(lia)) as [Hx _].
    destruct (shl_align_le my ey ez ltac:(lia)) as [Hy _].
    rewrite Hx, Hy.
    pose proof (pow2_pos (ez - emin) ltac:(lia)).
    assert (Px : 2 ^ (ex - ez) * 2 ^ (ez - emin) = 2 ^ (ex - emin)).
    { rewrite <- Z.pow_add_r by lia. f_equal. lia. }
    assert (Py : 2 ^ (ey - ez) * 2 ^ (ez - emin) = 2 ^ (ey - emin)).
    { rewrite <- Z.pow_add_r by lia. f_equal. lia. }
    destruct sx, sy; simpl; nia.
Qed.

(** ** Division by a positive float *)

Lemma new_location_rem (Y r : Z) :
  0 < Y -> 0 <= r < Y -> new_location Y r = loc_of_rem r Y.
Proof.
  intros HY Hr. unfold new_location, new_location_even, new_location_odd,
    loc_of_rem.
  destruct (Z.even Y) eqn:Hev.
  - reflexivity.
  - destruct (Z.eqb_spec r 0); [reflexivity |]. f_equal.
    assert (Hodd : Z.odd Y = true) by (rewrite <- Z.negb_even, Hev; done).
    apply Z.odd_spec in Hodd as [c Hc].
    destruct (Z.compare_spec (2 * r + 1) Y); symmetry;
      [apply Z.compare_lt_iff | apply Z.compare_lt_iff | apply Z.compare_gt_iff];
      lia.
Qed.

Lemma dg_ge (q j : Z) : 0 <= j -> 2 ^ j <= q -> j + 1 <= dg q.
Proof.
  intros Hj H. pose proof (pow2_pos j Hj).
  destruct (dg_bounds q ltac:(lia)) as [_ Hi].
  destruct (Z_lt_le_dec j (dg q)) as [| Hle]; [lia |].
  pose proof (dg_nonneg q). pose proof (pow2_le (dg q) j ltac:(lia)). lia.
Qed.

Lemma fexp_mono (a b : Z) : a <= b -> fexp64 a <= fexp64 b.
Proof. unfold fexp. lia. Qed.

Lemma round_pos_mono_scaled (kd K1 K2 c : Z) :
  0 < kd -> 0 < c -> 0 <= K1 <= K2 ->
  round_pos (K1 * c) kd <= round_pos (K2 * c) kd.
Proof.
  intros Hkd Hc [H1 H2].
  apply round_pos_mono; try lia; try (apply Z.mul_nonneg_nonneg; lia).
  apply Z.mul_le_mono_nonneg_r; [lia |].
  apply Z.mul_le_mono_nonneg_r; lia.
Qed.

Lemma round_div_mono (kd K1 K2 : Z) :
  0 < kd -> - INF <= K1 -> K2 <= INF -> K1 <= K2 ->
  round_div kd K1 <= round_div kd K2.
Proof.
  intros Hkd HK1 HK2 H. unfold round_div.
  assert (HI : 0 < INF) by (apply pow2_pos; done).
  assert (P : 0 < 2 ^ (- emin)) by (apply pow2_pos; done).
  assert (B : forall A, 0 <= A -> 0 <= round_pos A kd <= INF)
    by (intros; by apply round_pos_bounds).
  repeat match goal with
         | |- context [?a =? ?b] => destruct (Z.eqb_spec a b)
         | |- context [?a <? ?b] => destruct (Z.ltb_spec a b)
         end; try lia.
  all: try (assert (0 <= round_pos (K1 * 2 ^ (- emin)) kd <= INF)
              by (apply B; nia));
       try (assert (0 <= round_pos (- K1 * 2 ^ (- emin)) kd <= INF)
              by (apply B; nia));
       try (assert (0 <= round_pos (K2 * 2 ^ (- emin)) kd <= INF)
              by (apply B; nia));
       try (assert (0 <= round_pos (- K2 * 2 ^ (- emin)) kd <= INF)
              by (apply B; nia));
       try (assert (round_pos (- K2 * 2 ^ (- emin)) kd
                    <= round_pos (- K1 * 2 ^ (- emin)) kd)
              by (apply round_pos_mono_scaled; lia));
       try (assert (round_pos (K1 * 2 ^ (- emin)) kd
                    <= round_pos (K2 * 2 ^ (- emin)) kd)
              by (apply round_pos_mono_scaled; lia));
       lia.
Qed.

Lemma SFdiv_core_key (sx : bool) (mx md : positive) (ex ed : Z) :
  valid_binary (S754_finite sx mx ex) = true ->
  valid_binary (S754_finite false md ed) = true ->
  let '(mz, ez, lz) := SFdiv_core_binary prec emax (Zpos mx) ex (Zpos md) ed in
  SFkey (binary_round_aux prec emax sx mz ez lz)
  = Some (cond_Zopp sx
            (round_pos (Zpos mx * 2 ^ (ex - emin) * 2 ^ (- emin))
                       (Zpos md * 2 ^ (ed - emin)))).
Proof.
  intros Vx Vd.
  pose proof (valid_finite_bounds _ _ _ Vx) as (Ax & _).
  pose proof (valid_finite_bounds _ _ _ Vd) as (Ad & _).
  pose proof emin_val as Vemin.
  unfold SFdiv_core_binary. fold (dg (Zpos mx)). fold (dg (Zpos md)).
  set (d1 := dg (Zpos mx)). set (d2 := dg (Zpos md)).
  set (e' := Z.min (fexp64 (d1 + ex - (d2 + ed))) (ex - ed)).
  set (s := ex - ed - e').
  assert (Hs : 0 <= s) by (unfold s, e'; lia).
  set (m' := match s with
             | 0 => Z.pos mx
             | Z.pos _ => Z.shiftl (Z.pos mx) s
             | Z.neg _ => 0
             end).
  assert (Hm' : m' = Zpos mx * 2 ^ s).
  { unfold m'. destruct s as [| p | p] eqn:Es; [lia | | lia].
    rewrite Z.shiftl_mul_pow2; lia. }
  pose proof (pow2_pos s Hs) as Ps.
  destruct (Z.div_eucl m' (Z.pos md)) as [q r] eqn:Hqr.
  assert (Hq : q = m' / Zpos md) by (unfold Z.div; by rewrite Hqr).
  assert (Hr : r = m' mod Zpos md) by (unfold Z.modulo; by rewrite Hqr).
  pose proof (Z.mod_pos_bound m' (Zpos md) ltac:(lia)) as Hrb.
  rewrite <- Hr in Hrb.
  rewrite (binary_round_aux_key sx q e' _ m' (Zpos md));
    [| nia | lia | done | rewrite <- Hr; apply new_location_rem; lia |].
  - f_equal. f_equal. unfold round_pos. f_equal.
    pose proof (pow2_pos (ex - emin) ltac:(lia)).
    pose proof (pow2_pos (ed - emin) ltac:(lia)).
    pose proof (pow2_pos (- emin) ltac:(lia)).
    apply round_key_ext.
    + unfold keyA. pose proof (pow2_pos (Z.max (e' - emin) 0) ltac:(lia)). nia.
    + nia.
    + unfold keyB. pose proof (pow2_pos (Z.max (- (e' - emin)) 0) ltac:(lia)). nia.
    + nia.
    + unfold keyA, keyB. rewrite Hm'.
      destruct (Z_le_gt_dec 0 (e' - emin)) as [Hk | Hk].
      * rewrite (Z.max_l (e' - emin) 0), (Z.max_r (- (e' - emin)) 0) by lia.
        rewrite Z.pow_0_r.
        replace (Z.pos mx * 2 ^ s * 2 ^ (e' - emin) * (Z.pos md * 2 ^ (ed - emin)))
          with (Z.pos mx * Z.pos md * (2 ^ s * 2 ^ (e' - emin) * 2 ^ (ed - emin))) by ring.
        replace (Z.pos mx * 2 ^ (ex - emin) * 2 ^ (- emin) * (Z.pos md * 1))
          with (Z.pos mx * Z.pos md * (2 ^ (ex - emin) * 2 ^ (- emin))) by ring.
        f_equal. rewrite <- !Z.pow_add_r by lia. f_equal. unfold s. lia.
      * rewrite (Z.max_r (e' - emin) 0), (Z.max_l (- (e' - emin)) 0) by lia.
        rewrite Z.pow_0_r.
        replace (Z.pos mx * 2 ^ s * 1 * (Z.pos md * 2 ^ (ed - emin)))
          with (Z.pos mx * Z.pos md * (2 ^ s * 2 ^ (ed - emin))) by ring.
        replace (Z.pos mx * 2 ^ (ex - emin) * 2 ^ (- emin)
                 * (Z.pos md * 2 ^ (- (e' - emin))))
          with (Z.pos mx * Z.pos md
                * (2 ^ (ex - emin) * 2 ^ (- emin) * 2 ^ (- (e' - emin)))) by ring.
        f_equal. rewrite <- !Z.pow_add_r by lia. f_equal. unfold s. lia.
  - (* the quotient has enough digits *)
    assert (Hdq : d1 + s - d2 <= dg q).
    { pose proof (dg_nonneg q).
      destruct (Z_le_gt_dec (d1 + s - d2) 0) as [| Hpos]; [lia |].
      replace (d1 + s - d2) with ((d1 + s - d2 - 1) + 1) by lia.
      apply dg_ge; [lia |]. rewrite Hq. apply Z.div_le_lower_bound; [lia |].
      destruct (dg_bounds (Zpos mx) ltac:(lia)) as [Lo1 _].
      destruct (dg_bounds (Zpos md) ltac:(lia)) as [_ Hi2].
      fold d1 in Lo1. fold d2 in Hi2.
      pose proof (dg_pos (Zpos mx) ltac:(lia)). pose proof (dg_pos (Zpos md) ltac:(lia)).
      fold d1 in H0. fold d2 in H1.
      assert (E : 2 ^ d2 * 2 ^ (d1 + s - d2 - 1) = 2 ^ (d1 - 1) * 2 ^ s).
      { rewrite <- !Z.pow_add_r by lia. f_equal. lia. }
      pose proof (pow2_pos (d1 + s - d2 - 1) ltac:(lia)).
      pose proof (pow2_pos (d1 - 1) ltac:(lia)).
      rewrite Hm'. nia. }
    pose proof (fexp_mono (d1 + ex - (d2 + ed)) (dg q + e') ltac:(unfold s in *; lia)).
    unfold e' at 1. lia.
Qed.

Lemma SFdiv_key (x d : spec_float) (md : positive) (ed : Z) (kx kd : Z) :
  valid_binary x = true -> valid_binary d = true ->
  d = S754_finite false md ed ->
  SFkey x = Some kx -> SFkey d = Some kd ->
  SFkey (SF64div x d) = Some (round_div kd kx).
Proof.
  intros Vx Vd -> Kx Kd. injection Kd as <-.
  assert (HI : 0 < INF) by (apply pow2_pos; done).
  pose proof (key_finite_lt_INF _ _ _ Vd) as Hkd.
  destruct x as [sx | sx | | sx mx ex]; try discriminate; injection Kx as <-.
  - (* zero *)
    unfold SF64div, SFdiv, SFkey. unfold round_div.
    destruct (Z.eqb_spec 0 INF); [lia |]. destruct (Z.eqb_spec 0 (- INF)); [lia |].
    rewrite Z.ltb_irrefl, Z.mul_0_l.
    unfold round_pos. rewrite round_key_0 by lia. f_equal; lia.
  - (* infinity *)
    unfold SF64div, SFdiv, SFkey. rewrite xorb_false_r. f_equal.
    unfold round_div, cond_Zopp. destruct sx.
    + destruct (Z.eqb_spec (- INF) INF); [lia |]. by rewrite Z.eqb_refl.
    + by rewrite Z.eqb_refl.
  - (* finite *)
    pose proof (key_finite_lt_INF _ _ _ Vx) as Hkx.
    pose proof (SFdiv_core_key sx mx md ex ed Vx Vd) as H.
    unfold SF64div, SFdiv. rewrite xorb_false_r.
    destruct (SFdiv_core_binary prec emax (Z.pos mx) ex (Z.pos md) ed)
      as [[mz ez] lz].
    rewrite H. f_equal. unfold round_div, cond_Zopp.
    destruct sx.
    + destruct (Z.eqb_spec (- (Z.pos mx * 2 ^ (ex - emin))) INF); [lia |].
      destruct (Z.eqb_spec (- (Z.pos mx * 2 ^ (ex - emin))) (- INF)); [lia |].
      destruct (Z.ltb_spec (- (Z.pos mx * 2 ^ (ex - emin))) 0); [| lia].
      by rewrite Z.opp_involutive.
    + destruct (Z.eqb_spec (Z.pos mx * 2 ^ (ex - emin)) INF); [lia |].
      destruct (Z.eqb_spec (Z.pos mx * 2 ^ (ex - emin)) (- INF)); [lia |].
      destruct (Z.ltb_spec (Z.pos mx * 2 ^ (ex - emin)) 0); [lia |]. done.
Qed.

(** ** Primitive floats *)

Lemma compare_keys (x y : float) :
  SFcompare (Prim2SF x) (Prim2SF y) =
  match fkey x, fkey y with
  | Some a, Some b => Some (a ?= b)
  | _, _ => None
  end.
Proof. apply SFcompare_key; apply Prim2SF_valid. Qed.

Lemma leb_keys (x y : float) (a b : Z) :
  fkey x = Some a -> fkey y = Some b -> (x <=? y)%float = (a <=? b).
Proof.
  intros Hx Hy. rewrite FloatAxioms.leb_spec. unfold SFleb. rewrite compare_keys, Hx, Hy.
  unfold Z.leb. by destruct (a ?= b).
Qed.

Lemma ltb_keys (x y : float) (a b : Z) :
  fkey x = Some a -> fkey y = Some b -> (x <? y)%float = (a <? b).
Proof.
  intros Hx Hy. rewrite FloatAxioms.ltb_spec. unfold SFltb. rewrite compare_keys, Hx, Hy.
  unfold Z.ltb. by destruct (a ?= b).
Qed.

Lemma eqb_keys (x y : float) (a b : Z) :
  fkey x = Some a -> fkey y = Some b -> (x =? y)%float = (a =? b).
Proof.
  intros Hx Hy. rewrite FloatAxioms.eqb_spec. unfold SFeqb. rewrite compare_keys, Hx, Hy.
  destruct (Z.eqb_spec a b) as [-> | Hne].
  - by rewrite Z.compare_refl.
  - destruct (Z.compare_spec a b); [lia | done | done].
Qed.

Lemma leb_true_keys (x y : float) :
  (x <=? y)%float = true ->
  exists a b, fkey x = Some a /\ fkey y = Some b /\ a <= b.
Proof.
  rewrite FloatAxioms.leb_spec. unfold SFleb. rewrite compare_keys.
  destruct (fkey x) as [a|], (fkey y) as [b|]; try discriminate.
  intros H. exists a, b. repeat split.
  destruct (Z.compare_spec a b); try discriminate; lia.
Qed.

Lemma ltb_true_keys (x y : float) :
  (x <? y)%float = true ->
  exists a b, fkey x = Some a /\ fkey y = Some b /\ a < b.
Proof.
  rewrite FloatAxioms.ltb_spec. unfold SFltb. rewrite compare_keys.
  destruct (fkey x) as [a|], (fkey y) as [b|]; try discriminate.
  intros H. exists a, b. repeat split.
  destruct (Z.compare_spec a b); try discriminate; lia.
Qed.

Lemma fkey_bounds (x : float) (k : Z) : fkey x = Some k -> - INF <= k <= INF.
Proof.
  unfold fkey. pose proof (Prim2SF_valid x) as V.
  assert (HI : 0 < INF) by (apply pow2_pos; done).
  destruct (Prim2SF x) as [s | s | | s m e]; intros [= <-]; try lia.
  - destruct s; simpl; lia.
  - pose proof (key_finite_lt_INF _ _ _ V). destruct s; simpl; lia.
Qed.

(** [is_finite] *)
Lemma is_finite_SF_spec (x : float) :
  is_finite x = true -> is_finite_SF (Prim2SF x) = true.
Proof.
  unfold is_finite, is_nan, is_infinity. intros H.
  apply negb_true_iff, orb_false_iff in H as [Hn Hi].
  apply negb_false_iff in Hn. rewrite FloatAxioms.eqb_spec in Hn, Hi.
  rewrite FloatAxioms.abs_spec in Hi.
  change (Prim2SF infinity) with (S754_infinity false) in Hi.
  destruct (Prim2SF x) as [s | s | | s m e]; try done.
Qed.

Lemma is_finite_key (x : float) :
  is_finite x = true -> exists k, fkey x = Some k /\ - INF < k < INF.
Proof.
  intros H. apply is_finite_SF_spec in H. unfold fkey.
  pose proof (Prim2SF_valid x) as V.
  assert (HI : 0 < INF) by (apply pow2_pos; done).
  destruct (Prim2SF x) as [s | s | | s m e]; try discriminate.
  - exists 0. split; [done | lia].
  - pose proof (key_finite_lt_INF _ _ _ V). eexists. split; [done |].
    destruct s; simpl; lia.
Qed.

Lemma sub_key (x y : float) (kx ky : Z) :
  is_finite x = true -> is_finite y = true ->
  fkey x = Some kx -> fkey y = Some ky ->
  fkey (x - y) = Some (round_signed (kx - ky)).
Proof.
  intros Fx Fy Kx Ky. unfold fkey. rewrite FloatAxioms.sub_spec.
  apply SFsub_key; try apply Prim2SF_valid; try by apply is_finite_SF_spec.
  all: done.
Qed.

Lemma positive_finite (d : float) :
  is_finite d = true -> (0 <? d)%float = true ->
  exists md ed, Prim2SF d = S754_finite false md ed.
Proof.
  intros F P. apply is_finite_SF_spec in F. rewrite FloatAxioms.ltb_spec in P.
  change (Prim2SF 0) with (S754_zero false) in P.
  destruct (Prim2SF d) as [s | s | | s m e]; try discriminate.
  destruct s; [discriminate |]. eauto.
Qed.

Lemma div_key (x d : float) (kx kd : Z) :
  is_finite d = true -> (0 <? d)%float = true ->
  fkey x = Some kx -> fkey d = Some kd ->
  fkey (x / d) = Some (round_div kd kx) /\ 0 < kd.
Proof.
  intros F P Kx Kd. destruct (positive_finite d F P) as (md & ed & Hd).
  split.
  - unfold fkey. rewrite FloatAxioms.div_spec.
    eapply SFdiv_key; try apply Prim2SF_valid; try done.
  - unfold fkey in Kd. pose proof (Prim2SF_valid d) as V. rewrite Hd in Kd, V.
    injection Kd as <-. pose proof (key_finite_lt_INF _ _ _ V). simpl. lia.
Qed.

Lemma round_signed_bounds (K : Z) : - INF <= round_signed K <= INF.
Proof.
  unfold round_signed. destruct (Z.ltb_spec K 0).
  - pose proof (round_pos_bounds (- K) 1). lia.
  - pose proof (round_pos_bounds K 1). lia.
Qed.

Lemma SFkey_inj (x y : spec_float) (k : Z) :
  valid_binary x = true -> valid_binary y = true ->
  SFkey x = Some k -> SFkey y = Some k -> k <> 0 -> x = y.
Proof.
  intros Vx Vy Kx Ky Hk.
  assert (HI : 0 < INF) by (apply pow2_pos; done).
  destruct x as [sx | sx | | sx mx ex], y as [sy | sy | | sy my ey];
    try discriminate;
    try pose proof (key_finite_lt_INF _ _ _ Vx) as Bx;
    try pose proof (key_finite_lt_INF _ _ _ Vy) as By;
    injection Kx as Kx; injection Ky as Ky; subst k;
    try (destruct sx, sy; unfold cond_Zopp in *; lia).
  - destruct sx, sy; unfold cond_Zopp in *; try lia; reflexivity.
  - assert (Hs : sx = sy) by (destruct sx, sy; unfold cond_Zopp in *; lia).
    subst sy.
    assert (Hm : Z.pos mx * 2 ^ (ex - emin) = Z.pos my * 2 ^ (ey - emin))
      by (destruct sx; unfold cond_Zopp in *; lia).
    pose proof (key_compare_finite _ _ _ _ _ _ Vx Vy) as Hc.
    rewrite Hm, Z.compare_refl in Hc.
    destruct (Z.compare_spec ex ey) as [-> | |]; try discriminate.
    symmetry in Hc. apply Pos.compare_eq in Hc. by subst.
Qed.

Lemma fkey_inj (x y : float) (k : Z) :
  fkey x = Some k -> fkey y = Some k -> k <> 0 -> x = y.
Proof.
  intros Kx Ky Hk. apply Prim2SF_inj.
  eapply SFkey_inj; try apply Prim2SF_valid; done.
Qed.

(** ** The order of the floats, and the raw progress *)

Lemma fkey_one : fkey 1%float = Some K1.
Proof. reflexivity. Qed.

Lemma fkey_zero : fkey 0%float = Some 0.
Proof. reflexivity. Qed.

Lemma fle_trans (x y z : float) : fle x y -> fle y z -> fle x z.
Proof.
  unfold fle. intros H1 H2.
  apply leb_true_keys in H1 as (a & b & Ka & Kb & Hab).
  apply leb_true_keys in H2 as (b' & c & Kb' & Kc & Hbc).
  rewrite Kb in Kb'. injection Kb' as <-.
  rewrite (leb_keys x z a c Ka Kc). apply Z.leb_le. lia.
Qed.

Lemma fle_refl (x : float) : is_finite x = true -> fle x x.
Proof.
  intros F. destruct (is_finite_key x F) as (k & K & _). unfold fle.
  rewrite (leb_keys x x k k K K). apply Z.leb_refl.
Qed.

Lemma py_min_key (q : float) (kq : Z) :
  fkey q = Some kq -> fkey (py_min q 1) = Some (Z.min kq K1).
Proof.
  intros Kq. unfold py_min. rewrite (ltb_keys 1 q K1 kq fkey_one Kq).
  destruct (Z.ltb_spec K1 kq).
  - rewrite fkey_one. f_equal. lia.
  - rewrite Kq. f_equal. lia.
Qed.

Lemma progress_key (now st d : float) :
  is_finite now = true -> is_finite st = true -> is_finite d = true ->
  (0 <? d)%float = true ->
  exists kn ks kd, fkey now = Some kn /\ fkey st = Some ks /\ fkey d = Some kd /\
    0 < kd /\
    fkey (py_min ((now - st) / d) 1)
      = Some (Z.min (round_div kd (round_signed (kn - ks))) K1).
Proof.
  intros Fn Fs Fd Pd.
  destruct (is_finite_key now Fn) as (kn & Kn & _).
  destruct (is_finite_key st Fs) as (ks & Ks & _).
  destruct (is_finite_key d Fd) as (kd & Kd & _).
  exists kn, ks, kd. repeat split; try done.
  - by destruct (div_key 0 d 0 kd Fd Pd fkey_zero Kd).
  - apply py_min_key.
    apply (div_key _ d _ kd Fd Pd (sub_key now st kn ks Fn Fs Kn Ks) Kd).
Qed.

Lemma progress_mono (a b st d : float) :
  is_finite a = true -> is_finite b = true -> is_finite st = true ->
  is_finite d = true -> (0 <? d)%float = true -> fle a b ->
  fle (py_min ((a - st) / d) 1) (py_min ((b - st) / d) 1).
Proof.
  intros Fa Fb Fs Fd Pd Hab.
  destruct (progress_key a st d Fa Fs Fd Pd) as (ka & ks & kd & Ka & Ks & Kd & Hkd & Pa).
  destruct (progress_key b st d Fb Fs Fd Pd) as (kb & ks' & kd' & Kb & Ks' & Kd' & _ & Pb).
  rewrite Ks in Ks'. injection Ks' as <-. rewrite Kd in Kd'. injection Kd' as <-.
  apply leb_true_keys in Hab as (a' & b' & Ka' & Kb' & Hle).
  rewrite Ka in Ka'. injection Ka' as <-. rewrite Kb in Kb'. injection Kb' as <-.
  unfold fle. rewrite (leb_keys _ _ _ _ Pa Pb). apply Z.leb_le.
  pose proof (round_signed_mono (ka - ks) (kb - ks) ltac:(lia)) as Hs.
  pose proof (round_signed_bounds (ka - ks)).
  pose proof (round_signed_bounds (kb - ks)).
  pose proof (round_div_mono kd (round_signed (ka - ks))
                (round_signed (kb - ks)) Hkd ltac:(lia) ltac:(lia) Hs). lia.
Qed.

Lemma py_min_top (q : float) :
  (1 <=? py_min q 1)%float = true -> py_min q 1 = 1%float.
Proof.
  unfold py_min. destruct (1 <? q)%float eqn:Hlt; [done |].
  intros Hle. apply leb_true_keys in Hle as (a & b & Ka & Kb & Hab).
  rewrite fkey_one in Ka. injection Ka as <-.
  rewrite (ltb_keys 1 q K1 b fkey_one Kb) in Hlt. apply Z.ltb_ge in Hlt.
  assert (b = K1) by lia. subst b.
  apply (fkey_inj q 1 K1 Kb fkey_one). unfold K1.
  pose proof (pow2_pos 1074 ltac:(lia)). lia.
Qed.

Lemma positive_nonzero (d : float) :
  is_finite d = true -> (0 <? d)%float = true -> (d =? 0)%float = false.
Proof.
  intros F P. destruct (is_finite_key d F) as (kd & Kd & _).
  destruct (div_key 0 d 0 kd F P fkey_zero Kd) as [_ Hpos].
  rewrite (eqb_keys d 0 kd 0 Kd fkey_zero). apply Z.eqb_neq. lia.
Qed.

End FloatOrder.

(** * Monotonic completion *)

Lemma nondecreasing_snoc (l : list float) (y : float) :
  nondecreasing l -> Forall (fun x => fle x y) l -> nondecreasing (l ++ [y]).
Proof.
  induction l as [| x l IH]; intros Hs Hall; [exact I |].
  apply Forall_cons in Hall as [Hx Hall].
  destruct l as [| x' l]; simpl.
  - split; [exact Hx | exact I].
  - simpl in Hs. destruct Hs as [Hxx Hs]. split; [exact Hxx |].
    apply IH; assumption.
Qed.

Lemma callbacks_of_app (i : nat) (l1 l2 : list event) :
  callbacks_of i (l1 ++ l2) = callbacks_of i l1 ++ callbacks_of i l2.
Proof. apply List.filter_app. Qed.

Lemma callbacks_of_other (i : nat) (l : list event) :
  updates_of i l = [] -> completions_of i l = [] -> callbacks_of i l = [].
Proof.
  unfold updates_of, completions_of, callbacks_of, is_callback_of.
  induction l as [| ev l IH]; [done |]. simpl.
  destruct (is_update_of i ev); [done |].
  destruct (is_completion_of i ev); [done |]. simpl. exact IH.
Qed.

Lemma callbacks_of_completion (i : nat) (t : thread) :
  callbacks_of i (completion_events i t) = [] \/
  callbacks_of i (completion_events i t) = [CompletionCalled i].
Proof.
  unfold completion_events, callbacks_of, is_callback_of.
  destruct (completion_callback t) as [[|]|]; simpl;
    rewrite ?Nat.eqb_refl; simpl; auto.
Qed.

Lemma set_at_same (t : thread) : set_at (at_ t) t = t.
Proof. by destruct t. Qed.

Section SingleIteration.
Variable math_pow : float -> float -> result float.
Variable math_sin : float -> result float.
Variable i : nat.
Variable t : thread.

Hypothesis once : repeat_count (config t) = 1%Z.
Hypothesis forward : auto_reverse (config t) = false.
Hypothesis finite_duration : is_finite (duration (config t)) = true.
Hypothesis positive_duration : (0 <? duration (config t))%float = true.
Hypothesis quiet_update : forall v, update_callback t v = false.
Hypothesis running : do_run t = true.

Abbreviation phase' := (phase math_pow math_sin i t).
Abbreviation ticks_ok' := (ticks_ok math_pow math_sin t).
Abbreviation step' := (_animation_loop math_pow math_sin i).

Lemma in_iteration_later (st c now : float) (ticks : list (float * float)) :
in_iteration t st c ticks -> is_finite now = true -> fle c now ->
in_iteration t st now ticks.
Proof.
intros (Fst & Fc & Hle & Hb) Fnow Hnow. repeat split; try done.
- exact (fle_trans st c now Hle Hnow).
- intros x Fx Hx. apply Hb; [done |]. exact (fle_trans c now x Hnow Hx).
Qed.

(** One tick. *)
Lemma tick_step (st c now : float) (ticks : list (float * float)) :
in_iteration t st c ticks -> ticks_ok' ticks ->
is_finite now = true -> fle c now ->
exists ticks' new,
  phase' (next (step' now (set_at (AtTick 0 st) t))) ticks' [] (Some now) /\
  ticks_ok' ticks' /\ ticks' = ticks ++ new /\
  callbacks_of i (emitted (step' now (set_at (AtTick 0 st) t)))
    = map (tick_event i) new.
Proof.
intros Hin [Hsorted Hvals] Fnow Hnow.
pose proof Hin as (Fst & Fc & Hle & Hb).
unfold _animation_loop, current_value, py_div. simpl.
rewrite (positive_nonzero _ finite_duration positive_duration). simpl.
fold (progress_at t st now). set (p := progress_at t st now).
destruct (easing_func math_pow math_sin (easing (config t)) p) as [e|err] eqn:He;
  simpl.
2:{ exists ticks, []. rewrite app_nil_r. repeat split; try done. constructor. }
rewrite forward. simpl. rewrite quiet_update.
set (v := (start_value t + (end_value t - start_value t) * e)%float).
exists (ticks ++ [(p, v)]), [(p, v)].
assert (Hok : ticks_ok' (ticks ++ [(p, v)])).
{ split.
  - rewrite map_app. simpl. apply nondecreasing_snoc; [done |].
    apply Forall_map. by apply Hb.
  - apply Forall_app. split; [done |]. constructor; [| constructor].
    split; [by exists st, now | by exists e]. }
split; [| split; [done | split; [done |]]].
- destruct (1 <=? p)%float eqn:Hp.
  + apply phase_leave. apply py_min_top in Hp. fold (progress_at t st now) in Hp.
    fold p in Hp. exists e. rewrite <- Hp at 1. split; [done |].
    rewrite last_snoc. by rewrite <- Hp.
  + apply phase_sleep. repeat split; try done.
    * exact (fle_trans st c now Hle Hnow).
    * intros x Fx Hx. apply Forall_app. split.
      -- apply Hb; [done |]. exact (fle_trans c now x Hnow Hx).
      -- constructor; [| constructor]. simpl.
         by apply progress_mono.
- simpl. unfold callbacks_of, is_callback_of. simpl.
  by rewrite Nat.eqb_refl.
Qed.

Lemma quiet_step (pos p : position) (ticks : list (float * float))
  (done : list event) (now : float) :
step' now (set_at pos t) = goto p ->
phase' p ticks done (Some now) -> ticks_ok' ticks ->
exists ticks' done',
  phase' (next (step' now (set_at pos t))) ticks' done' (Some now) /\
  ticks_ok' ticks' /\
  map (tick_event i) ticks ++ done
    ++ callbacks_of i (emitted (step' now (set_at pos t)))
  = map (tick_event i) ticks' ++ done'.
Proof.
intros Hs Hph Hok. rewrite Hs. exists ticks, done. simpl.
rewrite app_nil_r. done.
Qed.

(** One step of the thread keeps it in a phase. *)
Lemma thread_step (pos : position) (ticks : list (float * float))
  (done : list event) (c : option float) (now : float) :
phase' pos ticks done c -> ticks_ok' ticks ->
is_finite now = true ->
match c with Some c0 => fle c0 now | None => True end ->
exists ticks' done',
  phase' (next (step' now (set_at pos t))) ticks' done' (Some now) /\
  ticks_ok' ticks' /\
  map (tick_event i) ticks ++ done
    ++ callbacks_of i (emitted (step' now (set_at pos t)))
  = map (tick_event i) ticks' ++ done'.
Proof.
intros Hph Hok Fnow Hnow. inversion Hph; subst.
- (* in the delay *)
  unfold _animation_loop at 1 2. simpl.
  destruct (int_fits_float _); simpl.
  + destruct (_ =? 0)%Z; exists [], []; repeat split; try done; constructor.
  + exists [], []. repeat split; try done. constructor.
- (* entering the iteration *)
  eapply quiet_step; [| | done].
  + unfold _animation_loop. simpl. rewrite once. reflexivity.
  + apply phase_while. repeat split; try done. by apply fle_refl.
- (* reading the flag *)
  eapply quiet_step; [| | done].
  + unfold _animation_loop. simpl. rewrite running. reflexivity.
  + apply phase_tick. by eapply in_iteration_later.
- (* a tick *)
  destruct (tick_step st c0 now ticks H Hok Fnow Hnow)
    as (ticks' & new & Hph' & Hok' & -> & Hcb).
  exists (ticks ++ new), []. split; [done |]. split; [done |].
  rewrite Hcb, map_app, !app_nil_r. reflexivity.
- (* asleep *)
  destruct (fps (config t) <? 0)%Z eqn:Hfps.
  + eapply quiet_step; [| | done].
    * unfold _animation_loop. simpl. rewrite Hfps. reflexivity.
    * constructor.
  + eapply quiet_step; [| | done].
    * unfold _animation_loop. simpl. rewrite Hfps. reflexivity.
    * apply phase_while. by eapply in_iteration_later.
- (* leaving the loop *)
  eapply quiet_step; [| | done].
  + unfold _animation_loop. simpl. rewrite once. reflexivity.
  + by apply phase_cleanup.
- (* cleaning up *)
  exists ticks, []. unfold _animation_loop. simpl. rewrite !app_nil_r.
  split; [by apply phase_completion | done].
- (* the completion callback *)
  exists ticks, (callbacks_of i (completion_events i t)).
  split; [| split; [done |]].
  + replace (next (step' now (set_at AtCompletion t))) with Finished
      by (unfold _animation_loop; simpl; by destruct (completion_callback t)).
    by apply phase_finished.
  + simpl. do 2 f_equal. unfold _animation_loop, completion_events. simpl.
    by destruct (completion_callback t).
- (* finished *)
  eapply quiet_step; [| | done].
  + reflexivity.
  + by apply phase_finished.
- (* died *)
  eapply quiet_step; [| | done].
  + reflexivity.
  + constructor.
Qed.

Abbreviation on_course' := (on_course math_pow math_sin i t).

Lemma flag_cleared_on_course (m0 m1 m2 : manager) (c : option float)
  (pos : position) (ticks : list (float * float)) (done : list event)
  (new : list event) (t' : thread) :
log m1 = log m0 ++ new -> log m2 = log m1 ->
threads m2 !! i = Some t' -> flag_cleared (set_at pos t) t' ->
phase' pos ticks done c -> ticks_ok' ticks ->
callbacks_of i new = map (tick_event i) ticks ++ done ->
on_course' m0 m2 c.
Proof.
intros Hlog Hlog2 Ht' F Hph Hok Hcb. exists new.
split; [by rewrite Hlog2 |]. destruct F as [-> | ->].
- right. by exists pos, ticks, done.
- left. by eexists.
Qed.

Lemma exec_on_course (m0 m1 m2 : manager) (a : action) (rest : list action)
  (c : option float) :
on_course' m0 m1 c -> clock_from c (readings i (a :: rest)) ->
exec math_pow math_sin a m1 = Ok m2 ->
exists c', on_course' m0 m2 c' /\ clock_from c' (readings i rest).
Proof.
intros (new & Hlog & Hcase) Hclock He.
destruct Hcase as [(t' & Ht' & Hrun) | (pos & ticks & done & Ht & Hph & Hok & Hcb)].
- (* already flagged *)
  destruct (exec_flag_cleared math_pow math_sin a m1 m2 i t' He Ht' Hrun)
    as (t2 & Ht2 & Hrun2 & _).
  destruct (exec_log math_pow math_sin a m1 m2 He) as [l Hl].
  assert (Hc : exists c', clock_from c' (readings i rest)).
  { destruct a; simpl in Hclock; try by exists c.
    destruct (Nat.eqb th i); [| by exists c].
    exists (Some now). by destruct Hclock as (_ & _ & H). }
  destruct Hc as [c' Hc']. exists c'. split; [| done].
  exists (new ++ l). split; [by rewrite Hl, Hlog, app_assoc |].
  left. by exists t2.
- destruct a; simpl in He, Hclock.
  + (* animate *)
    exists c. split; [| done].
    destruct (animate_thread _ _ _ _ _ _ _ _ _ _ He Ht) as (t' & Ht' & F).
    apply animate_shape in He as (_ & _ & _ & Hl).
    by eapply flag_cleared_on_course.
  + (* stop_animation *)
    exists c. split; [| done].
    destruct (stop_animation_thread _ _ _ _ _ He Ht) as (t' & Ht' & F).
    apply stop_animation_registry in He as [_ Hl].
    by eapply flag_cleared_on_course.
  + (* stop_all_animations *)
    exists c. split; [| done]. injection He as <-.
    destruct (foldr_alter_flag_cleared
                (map snd (map_to_list (_active_animations m1))) _ _ _ Ht)
      as (t' & Ht' & F).
    by eapply (flag_cleared_on_course m0 m1).
  + (* a step of some thread *)
    injection He as <-. destruct (Nat.eqb_spec th i) as [-> | Hne].
    * destruct Hclock as (Fnow & Hnow & Hrest).
      exists (Some now). split; [| done].
      destruct (step_thread_at math_pow math_sin i now m1 _ Ht) as [Hth Hl].
      rewrite set_at_set_at in Hth.
      destruct (thread_step pos ticks done c now Hph Hok Fnow Hnow)
        as (ticks' & done' & Hph' & Hok' & Heq).
      exists (new ++ emitted (step' now (set_at pos t))).
      split; [by rewrite Hl, Hlog, app_assoc |].
      right. exists (next (step' now (set_at pos t))), ticks', done'.
      split; [exact Hth |]. split; [exact Hph' |]. split; [exact Hok' |].
      rewrite callbacks_of_app, Hcb, <- app_assoc. exact Heq.
    * exists c. split; [| done]. unfold step_thread.
      destruct (threads m1 !! th) as [tj|] eqn:Hj.
      -- exists (new ++ emitted (_animation_loop math_pow math_sin th now tj)).
         simpl. split; [by rewrite Hlog, app_assoc |].
         right. exists pos, ticks, done.
         rewrite list_lookup_insert_ne by done.
         split; [exact Ht |]. split; [exact Hph |]. split; [exact Hok |].
         rewrite callbacks_of_app, Hcb.
         destruct (loop_step_other math_pow math_sin i th now tj) as [Hu Hc];
           [done |].
         rewrite (callbacks_of_other i _ Hu Hc). by rewrite app_nil_r.
      -- exists new. split; [done |]. right. by exists pos, ticks, done.
Qed.

Lemma run_on_course (acts : list action) (m0 m1 m2 : manager)
  (c : option float) :
on_course' m0 m1 c -> clock_from c (readings i acts) ->
run math_pow math_sin acts m1 = Ok m2 ->
exists c', on_course' m0 m2 c'.
Proof.
revert m1 c. induction acts as [| a acts IH]; intros m1 c Hon Hclock Hr.
- injection Hr as <-. by exists c.
- simpl in Hr.
  destruct (exec math_pow math_sin a m1) as [m1'|] eqn:He; [| done].
  destruct (exec_on_course m0 m1 m1' a acts c Hon Hclock He)
    as (c' & Hon' & Hclock').
  by apply (IH m1' c').
Qed.
End SingleIteration.

Example fade_out_log :
  option_map log
    (match run pow_by_mul sin_unavailable fade_out_run fade_out_scene with
     | Ok m => Some m
     | Raise _ => None
     end)
  = Some [UpdateCalled 0 1 0.09999999999999998; CompletionCalled 0].
Proof. reflexivity. Qed.

(** C6, as stated, fails on the code: the value delivered at raw progress
    [1] is [start_value + (end_value - start_value) * easing(1.0)] computed
    in floating point.  Fading from [1.0] to [0.1] with the linear easing,
    the last value before the completion callback is
    [0.09999999999999998], not [0.1]. *)
Lemma last_value_misses_end_value :
  ~ monotonic_completion pow_by_mul sin_unavailable fade_out_scene 0
      fade_out_run.
Proof.
  intros H.
  destruct (run pow_by_mul sin_unavailable fade_out_run fade_out_scene)
    as [m'|] eqn:E; [| discriminate].
  destruct (H (fresh_thread "opacity" 1 0.1 never_raises one_second_linear
                 (Some false))
              m' [(1%float, 0.09999999999999998%float)]
              eq_refl eq_refl eq_refl (fun v => eq_refl) E) as [_ [p Hp]].
  - vm_compute in E. injection E as <-. reflexivity.
  - apply (f_equal (fun o => match o with
                            | Some (_, v) => (v =? 0.1)%float
                            | None => false
                            end)) in Hp.
    vm_compute in Hp. discriminate.
Qed.

(** C6 (amended): take an animation with [repeat_count = 1] and without
    [auto_reverse], of finite positive duration, whose update callback does
    not raise, started and never stopped, in any run in which the clock its
    thread reads is finite and does not go backwards.  Its callbacks are
    called as a sequence of ticks followed by at most one completion call;
    the raw progress of the ticks is non-decreasing; each tick delivers
    [start_value + (end_value - start_value) * easing(p)] for its raw
    progress [p = min(elapsed / duration, 1.0)]; and when the completion
    callback has been called, the last tick before it was made at raw
    progress exactly [1.0], delivering
    [start_value + (end_value - start_value) * easing(1.0)] as the floating
    point arithmetic evaluates it (which need not be [end_value]). *)
Theorem monotonic_completion_binary64 math_pow math_sin (m m' : manager)
    (i : nat) (t : thread) (acts : list action) :
  threads m !! i = Some t -> at_ t = AtDelay -> do_run t = true ->
  repeat_count (config t) = 1%Z -> auto_reverse (config t) = false ->
  is_finite (duration (config t)) = true ->
  (0 <? duration (config t))%float = true ->
  (forall v, update_callback t v = false) ->
  steady_clock (readings i acts) ->
  run math_pow math_sin acts m = Ok m' ->
  (exists t', threads m' !! i = Some t' /\ do_run t' = true) ->
  exists ticks done,
    callbacks_of i (events_since (length (log m)) m')
      = map (tick_event i) ticks ++ done /\
    (done = [] \/ done = [CompletionCalled i]) /\
    nondecreasing (map fst ticks) /\
    Forall (interpolated math_pow math_sin t) ticks /\
    (done = [CompletionCalled i] -> ends_at_one math_pow math_sin t ticks).
Proof.
  intros Ht Hat Hrun Hrc Har Hfin Hpos Hupd Hclock Hr (t' & Ht' & Hrun').
  assert (Hinit : on_course math_pow math_sin i t m m None).
  { exists []. split; [by rewrite app_nil_r |]. right.
    exists AtDelay, [], []. rewrite <- Hat, set_at_same.
    split; [done |]. rewrite Hat. split; [constructor |].
    split; [| done]. split; [exact I | constructor]. }
  destruct (run_on_course math_pow math_sin i t Hrc Har Hfin Hpos Hupd Hrun
              acts m m m' None Hinit Hclock Hr)
    as (c' & new & Hlog & Hcase).
  destruct Hcase as [(t2 & Ht2 & Hrun2) | (pos & ticks & done & _ & Hph & Hok & Hcb)].
  { rewrite Ht' in Ht2. injection Ht2 as <-. congruence. }
  exists ticks, done. unfold events_since. rewrite Hlog, drop_app_length.
  destruct Hok as [Hsorted Hvals].
  split; [exact Hcb |]. split; [| split; [exact Hsorted | split; [exact Hvals |]]].
  - inversion Hph; subst; auto. apply callbacks_of_completion.
  - intros Hdone. inversion Hph; subst; try discriminate; assumption.
Qed.

Lemma monotonic_completion_binary64_witness :
  exists ticks done,
    [UpdateCalled 0 1 0.09999999999999998; CompletionCalled 0]
      = map (tick_event 0) ticks ++ done /\
    (done = [CompletionCalled 0] ->
     ends_at_one pow_by_mul sin_unavailable
       (fresh_thread "opacity" 1 0.1 never_raises one_second_linear (Some false))
       ticks).
Proof.
  destruct (run pow_by_mul sin_unavailable fade_out_run fade_out_scene)
    as [m'|] eqn:E; [| discriminate].
  destruct (monotonic_completion_binary64 pow_by_mul sin_unavailable
              fade_out_scene m' 0
              (fresh_thread "opacity" 1 0.1 never_raises one_second_linear
                 (Some false))
              fade_out_run eq_refl eq_refl eq_refl eq_refl eq_refl
              eq_refl eq_refl (fun v => eq_refl))
    as (ticks & done & Hcb & _ & _ & _ & Hend).
  - unfold steady_clock. simpl. repeat split; reflexivity.
  - exact E.
  - vm_compute in E. injection E as <-. eexists. split; reflexivity.
  - exists ticks, done. split; [| exact Hend].
    vm_compute in E. injection E as <-. exact Hcb.
Defined.
(** * Further properties of the manager *)

(** The cases of a step of [_animation_loop], once the position is known. *)
Ltac loop_cases :=
  repeat match goal with
         | |- context [completion_callback ?t] =>
             destruct (completion_callback t) as [[|]|]; simpl
         | |- context [current_value ?a ?b ?c ?d ?e ?f] =>
             destruct (current_value a b c d e f) as [[? ?]|]; simpl
         | |- context [if ?b then _ else _] => destruct b; simpl
         end.

(** ** Steps and the other threads *)

Lemma step_thread_other math_pow math_sin (i j : nat) (now : float)
    (m : manager) :
  i <> j ->
  threads (step_thread math_pow math_sin j now m) !! i = threads m !! i.
Proof.
  intros Hne. unfold step_thread. destruct (threads m !! j); simpl; [| done].
  by rewrite list_lookup_insert_ne.
Qed.

Lemma step_thread_registry math_pow math_sin (i : nat) (now : float)
    (m : manager) (id : string) (th : nat) :
  _active_animations (step_thread math_pow math_sin i now m) !! id = Some th ->
  _active_animations m !! id = Some th.
Proof.
  unfold step_thread. destruct (threads m !! i) as [t|]; simpl; [| done].
  destruct (unregisters _); [| done].
  intros H. apply lookup_delete_Some in H. tauto.
Qed.

Lemma loop_keeps_registered math_pow math_sin (i : nat) (now : float)
    (t : thread) :
  past_cleanup (at_ t) = false ->
  unregisters (_animation_loop math_pow math_sin i now t) = false ->
  past_cleanup (next (_animation_loop math_pow math_sin i now t)) = false.
Proof.
  unfold _animation_loop.
  destruct (at_ t); simpl; try done;
    repeat match goal with
           | |- context [if ?b then _ else _] => destruct b; simpl
           | |- context [match ?x with _ => _ end] =>
               destruct x as [[? ?]|]; simpl
           | |- context [match ?x with _ => _ end] => destruct x; simpl
           end; done.
Qed.

(** ** The registry invariant *)

Lemma stop_animation_registry_ok (id : string) (m m1 : manager) :
  registry_ok m -> stop_animation id m = Ok m1 -> registry_ok m1.
Proof.
  rewrite stop_animation_unfold. intros Hok [= <-].
  destruct (_active_animations m !! id) as [old|] eqn:Hold; [| done].
  intros id' th H. simpl in H. apply lookup_delete_Some in H as [Hne H].
  destruct (Hok id' th H) as (t & Ht & Hid & Hrun & Hp).
  exists t. simpl. split; [| done].
  rewrite list_lookup_alter_ne; [done |].
  intros ->. destruct (Hok id th Hold) as (t' & Ht' & Hid' & _).
  congruence.
Qed.

Lemma animate_registry_ok id s e u c k (m m1 : manager) :
  registry_ok m -> animate id s e u c k m = Ok m1 -> registry_ok m1.
Proof.
  unfold animate. intros Hok H.
  destruct (stop_animation id m) as [m0|] eqn:E; [| done]. simpl in H.
  injection H as <-.
  pose proof (stop_animation_registry_ok _ _ _ Hok E) as Hok0.
  intros id' th H. simpl in H. simpl.
  destruct (decide (id' = id)) as [-> | Hne].
  - rewrite lookup_insert_eq in H. injection H as <-.
    eexists. split.
    + rewrite lookup_app_r by lia. rewrite Nat.sub_diag. reflexivity.
    + done.
  - rewrite lookup_insert_ne in H by done.
    destruct (Hok0 id' th H) as (t & Ht & Hrest).
    exists t. split; [| done]. rewrite lookup_app_l; [done |].
    by eapply lookup_lt_Some.
Qed.

Lemma step_thread_registry_ok math_pow math_sin (i : nat) (now : float)
    (m : manager) :
  registry_ok m -> registry_ok (step_thread math_pow math_sin i now m).
Proof.
  intros Hok id th H.
  pose proof (step_thread_registry _ _ _ _ _ _ _ H) as H0.
  destruct (Hok id th H0) as (t & Ht & Hid & Hrun & Hp).
  destruct (decide (th = i)) as [-> | Hne].
  - destruct (step_thread_at math_pow math_sin i now m t Ht) as [Hs _].
    eexists. split; [exact Hs |]. simpl. split; [done |]. split; [done |].
    apply loop_keeps_registered; [done |].
    unfold step_thread in H. rewrite Ht in H. simpl in H.
    destruct (unregisters _); [| done].
    rewrite Hid, lookup_delete_eq in H. discriminate.
  - exists t. by rewrite step_thread_other.
Qed.

Lemma exec_registry_ok math_pow math_sin (a : action) (m m1 : manager) :
  registry_ok m -> exec math_pow math_sin a m = Ok m1 -> registry_ok m1.
Proof.
  intros Hok. destruct a; simpl.
  - by apply animate_registry_ok.
  - by apply stop_animation_registry_ok.
  - intros [= <-]. intros id th H. simpl in H.
    rewrite lookup_empty in H. discriminate.
  - intros [= <-]. by apply step_thread_registry_ok.
Qed.

Lemma run_registry_ok math_pow math_sin (acts : list action)
    (m m1 : manager) :
  registry_ok m -> run math_pow math_sin acts m = Ok m1 -> registry_ok m1.
Proof.
  revert m. induction acts as [| a acts IH]; intros m Hok; simpl.
  - by intros [= <-].
  - destruct (exec math_pow math_sin a m) as [m0|] eqn:E; [| done]. simpl.
    apply IH. by eapply exec_registry_ok.
Qed.

(** ** What a thread does depends on the others through its flag only *)

Lemma loop_events_own math_pow math_sin (j : nat) (now : float) (t : thread) :
  Forall (fun ev => of_thread j ev = true)
         (emitted (_animation_loop math_pow math_sin j now t)).
Proof.
  unfold _animation_loop.
  destruct (at_ t); simpl;
    repeat match goal with
           | |- context [if ?b then _ else _] => destruct b; simpl
           | |- context [match ?x with _ => _ end] =>
               destruct x as [[? ?]|]; simpl
           | |- context [match ?x with _ => _ end] => destruct x; simpl
           end;
    repeat constructor; simpl; apply Nat.eqb_refl.
Qed.

Lemma events_of_own (i : nat) (l : list event) :
  Forall (fun ev => of_thread i ev = true) l -> events_of i l = l.
Proof.
  induction 1 as [| ev l Hev _ IH]; simpl; [done |].
  unfold events_of in *. simpl. by rewrite Hev, IH.
Qed.

Lemma events_of_other (i j : nat) (l : list event) :
  i <> j -> Forall (fun ev => of_thread j ev = true) l -> events_of i l = [].
Proof.
  intros Hne. induction 1 as [| ev l Hev _ IH]; simpl; [done |].
  unfold events_of in *. simpl. rewrite IH.
  destruct ev; simpl in *; apply Nat.eqb_eq in Hev; subst;
    by rewrite (proj2 (Nat.eqb_neq _ _)) by done.
Qed.

Lemma events_of_app (i : nat) (l1 l2 : list event) :
  events_of i (l1 ++ l2) = events_of i l1 ++ events_of i l2.
Proof. apply List.filter_app. Qed.

Lemma filter_events_of (f : event -> bool) (i : nat) (l : list event) :
  (forall ev, f ev = true -> of_thread i ev = true) ->
  List.filter f (events_of i l) = List.filter f l.
Proof.
  intros Hf. unfold events_of. induction l as [| ev l IH]; simpl; [done |].
  destruct (of_thread i ev) eqn:Ho; simpl.
  - by rewrite IH.
  - destruct (f ev) eqn:Hfe; [| done]. apply Hf in Hfe. congruence.
Qed.

Lemma updates_of_events_of (i : nat) (l : list event) :
  updates_of i (events_of i l) = updates_of i l.
Proof. apply filter_events_of. by intros []. Qed.

Lemma completions_of_events_of (i : nat) (l : list event) :
  completions_of i (events_of i l) = completions_of i l.
Proof. apply filter_events_of. by intros []. Qed.

Lemma callbacks_of_events_of (i : nat) (l : list event) :
  callbacks_of i (events_of i l) = callbacks_of i l.
Proof.
  apply filter_events_of. intros []; simpl; try done.
  unfold is_callback_of. simpl. by rewrite orb_false_r.
Qed.

Section ThreadLocal.
Variable math_pow : float -> float -> result float.
Variable math_sin : float -> result float.
Variable i : nat.

(** A property [R] of a thread and of the events it has logged, which holds
    of a thread when it is created, which a cleared flag does not break and
    which every step of the thread keeps. *)
Variable R : thread -> list event -> Prop.
Hypothesis R_flag : forall t l, R t l -> R (set_do_run false t) l.
Hypothesis R_step : forall t l now,
  R t l ->
  R (set_at (next (_animation_loop math_pow math_sin i now t)) t)
    (l ++ emitted (_animation_loop math_pow math_sin i now t)).

Abbreviation holds_of_thread m :=
  (match threads m !! i with
   | Some t => R t (events_of i (log m))
   | None => events_of i (log m) = []
   end).

Lemma R_flag_cleared t t' l : flag_cleared t t' -> R t l -> R t' l.
Proof. intros [-> | ->]; [done | apply R_flag]. Qed.

Lemma exec_thread_local (a : action) (m m1 : manager) (t : thread) :
  threads m !! i = Some t -> R t (events_of i (log m)) ->
  exec math_pow math_sin a m = Ok m1 ->
  exists t', threads m1 !! i = Some t' /\ R t' (events_of i (log m1)).
Proof.
  intros Ht H He.
  destruct a as [id s e u c k | id | | j now]; simpl in He.
  - destruct (animate_thread _ _ _ _ _ _ _ _ _ _ He Ht) as (t' & Ht' & F).
    apply animate_shape in He as (_ & _ & _ & ->).
    exists t'. split; [done |]. by eapply R_flag_cleared.
  - destruct (stop_animation_thread _ _ _ _ _ He Ht) as (t' & Ht' & F).
    apply stop_animation_registry in He as [_ ->].
    exists t'. split; [done |]. by eapply R_flag_cleared.
  - injection He as <-. simpl.
    destruct (foldr_alter_flag_cleared
                (map snd (map_to_list (_active_animations m))) _ _ _ Ht)
      as (t' & Ht' & F).
    exists t'. split; [done |]. by eapply R_flag_cleared.
  - injection He as <-. destruct (decide (j = i)) as [-> | Hne].
    + destruct (step_thread_at math_pow math_sin i now m t Ht) as [Hs ->].
      eexists. split; [exact Hs |]. rewrite events_of_app.
      rewrite (events_of_own i (emitted _)) by apply loop_events_own.
      by apply R_step.
    + exists t. rewrite step_thread_other by done. split; [done |].
      assert (Hl : events_of i (log (step_thread math_pow math_sin j now m))
                   = events_of i (log m)).
      { unfold step_thread. destruct (threads m !! j) as [tj|]; simpl;
          [| done].
        rewrite events_of_app.
        rewrite (events_of_other i j (emitted _)); [apply app_nil_r | done |].
        apply loop_events_own. }
      by rewrite Hl.
Qed.

Lemma run_thread_local (acts : list action) (m m1 : manager) (t : thread) :
  threads m !! i = Some t -> R t (events_of i (log m)) ->
  run math_pow math_sin acts m = Ok m1 ->
  exists t', threads m1 !! i = Some t' /\ R t' (events_of i (log m1)).
Proof.
  revert m t. induction acts as [| a acts IH]; intros m t Ht H; simpl.
  - intros [= <-]. eauto.
  - destruct (exec math_pow math_sin a m) as [m0|] eqn:E; [| done]. simpl.
    destruct (exec_thread_local _ _ _ _ Ht H E) as (t' & Ht' & H').
    by apply (IH _ _ Ht' H').
Qed.

Lemma exec_holds_of_thread (a : action) (m m1 : manager) :
  (forall id s e u c k, R (fresh_thread id s e u c k) []) ->
  holds_of_thread m -> exec math_pow math_sin a m = Ok m1 ->
  holds_of_thread m1.
Proof.
  intros R_fresh H He.
  destruct (threads m !! i) as [t|] eqn:Ht.
  { destruct (exec_thread_local _ _ _ _ Ht H He) as (t' & -> & H'). done. }
  destruct a as [id s e u c k | id | | j now]; simpl in He.
  - pose proof (animate_shape _ _ _ _ _ _ _ _ He) as (Hlen & _ & Hnew & ->).
    apply lookup_ge_None in Ht.
    destruct (decide (i = length (threads m))) as [-> | Hne].
    + rewrite Hnew, H. apply R_fresh.
    + rewrite (proj2 (lookup_ge_None _ _)) by lia. done.
  - rewrite stop_animation_unfold in He. injection He as <-.
    destruct (_active_animations m !! id); simpl; [| by rewrite Ht].
    rewrite (proj2 (lookup_ge_None _ _)); [done |].
    rewrite length_alter. by apply lookup_ge_None.
  - injection He as <-. simpl.
    rewrite (proj2 (lookup_ge_None _ _)); [done |].
    apply lookup_ge_None in Ht. revert Ht.
    generalize (map snd (map_to_list (_active_animations m))).
    intros l Ht. induction l as [| x l IH]; simpl; [done |].
    by rewrite length_alter.
  - injection He as <-. destruct (decide (j = i)) as [-> | Hne].
    + unfold step_thread. by rewrite Ht, Ht.
    + rewrite step_thread_other, Ht by done.
      unfold step_thread. destruct (threads m !! j) as [tj|]; simpl;
        [| done].
      rewrite events_of_app.
      rewrite (events_of_other i j (emitted _)); [by rewrite app_nil_r | done |].
      apply loop_events_own.
Qed.

Lemma run_holds_of_thread (acts : list action) (m m1 : manager) :
  (forall id s e u c k, R (fresh_thread id s e u c k) []) ->
  holds_of_thread m -> run math_pow math_sin acts m = Ok m1 ->
  holds_of_thread m1.
Proof.
  intros R_fresh. revert m.
  induction acts as [| a acts IH]; intros m H; simpl.
  - by intros [= <-].
  - destruct (exec math_pow math_sin a m) as [m0|] eqn:E; [| done]. simpl.
    apply IH. by eapply exec_holds_of_thread.
Qed.
End ThreadLocal.

(** ** The callbacks of a thread: updates, then the completion *)

(** Until a thread has finished it has not called its completion callback;
    when it has finished, its callbacks were updates followed by at most
    one completion. *)
Lemma no_completion_all_updates (i : nat) (l : list event) :
  completions_of i l = [] ->
  Forall (fun ev => is_update_of i ev = true) (callbacks_of i l).
Proof.
  unfold completions_of, callbacks_of, is_callback_of.
  induction l as [| ev l IH]; simpl; [constructor |].
  destruct (is_completion_of i ev) eqn:Hc; [discriminate |].
  rewrite orb_false_r. intros H.
  destruct (is_update_of i ev) eqn:Hu; [constructor |]; auto.
Qed.

Lemma callbacks_shape_step math_pow math_sin (i : nat) (t : thread)
    (l : list event) (now : float) :
  match at_ t with
  | Finished => updates_then_completion i l
  | _ => completions_of i l = []
  end ->
  match next (_animation_loop math_pow math_sin i now t) with
  | Finished =>
      updates_then_completion i
        (l ++ emitted (_animation_loop math_pow math_sin i now t))
  | _ =>
      completions_of i
        (l ++ emitted (_animation_loop math_pow math_sin i now t)) = []
  end.
Proof.
  unfold _animation_loop.
  destruct (at_ t) eqn:Hat; simpl; loop_cases;
    intros H; rewrite ?app_nil_r; try done;
    try (unfold completions_of in *; rewrite List.filter_app, H; done).
  all: exists (callbacks_of i l).
  1, 2: exists [CompletionCalled i].
  3: exists [].
  all: split; [| split; [by apply no_completion_all_updates | auto]].
  all: unfold callbacks_of, is_callback_of; rewrite ?List.filter_app; simpl;
    rewrite ?Nat.eqb_refl; simpl; by rewrite ?app_nil_r.
Qed.

Lemma run_callbacks_shape math_pow math_sin (i : nat) (acts : list action)
    (m : manager) :
  run math_pow math_sin acts new_manager = Ok m ->
  match threads m !! i with
  | Some t =>
      match at_ t with
      | Finished => updates_then_completion i (log m)
      | _ => completions_of i (log m) = []
      end
  | None => events_of i (log m) = []
  end.
Proof.
  intros Hr.
  assert (H := run_holds_of_thread math_pow math_sin i
    (fun t l => match at_ t with
                | Finished => updates_then_completion i l
                | _ => completions_of i l = []
                end)).
  specialize (H (fun t l H => H)).
  specialize (H (fun t l now => callbacks_shape_step math_pow math_sin i t l now)).
  specialize (H acts new_manager m (fun _ _ _ _ _ _ => eq_refl) eq_refl Hr).
  simpl in H. destruct (threads m !! i) as [t|]; [| done].
  destruct (at_ t); unfold updates_then_completion in *;
    rewrite ?callbacks_of_events_of, ?completions_of_events_of in H; done.
Qed.

(** X2: In every run from a new manager, the callbacks of each thread are
    called as a sequence of update calls followed by at most one call of
    the completion callback: no update follows the completion, and the
    completion callback is not called twice. *)
Theorem callbacks_are_updates_then_completion math_pow math_sin
    (acts : list action) (i : nat) :
  exists m, run math_pow math_sin acts new_manager = Ok m /\
    updates_then_completion i (log m).
Proof.
  destruct (run_total math_pow math_sin acts new_manager) as [m Hr].
  exists m. split; [done |].
  pose proof (run_callbacks_shape math_pow math_sin i acts m Hr) as H.
  destruct (threads m !! i) as [t|].
  - destruct (at_ t); try done;
      exists (callbacks_of i (log m)), [];
      (split; [by rewrite app_nil_r |]);
      (split; [by apply no_completion_all_updates | by left]).
  - exists [], []. split; [| split; [constructor | by left]].
    by rewrite <- callbacks_of_events_of, H.
Qed.


(** ** [stop_all_animations] *)

Lemma foldr_alter_lookup (l : list nat) (ts : list thread) (i : nat) :
  foldr (fun th ts => alter (set_do_run false) th ts) ts l !! i
  = if bool_decide (i ∈ l) then set_do_run false <$> ts !! i else ts !! i.
Proof.
  induction l as [| th l IH]; simpl; [done |].
  destruct (decide (th = i)) as [-> | Hne].
  - rewrite list_lookup_alter_eq, IH.
    rewrite (bool_decide_eq_true_2 (i ∈ i :: l)) by (apply list_elem_of_here).
    destruct (bool_decide (i ∈ l)); [| done].
    by destruct (ts !! i).
  - rewrite list_lookup_alter_ne, IH by done.
    destruct (decide (i ∈ l)) as [Hin | Hin].
    + rewrite (bool_decide_eq_true_2 _ Hin).
      by rewrite bool_decide_eq_true_2 by (by apply list_elem_of_further).
    + rewrite (bool_decide_eq_false_2 _ Hin).
      rewrite bool_decide_eq_false_2; [done |].
      intros [? | ?]%elem_of_cons; congruence.
Qed.

Lemma registered_values (d : gmap string nat) (i : nat) :
  i ∈ map snd (map_to_list d) <-> exists id, d !! id = Some i.
Proof.
  rewrite list_elem_of_fmap. split.
  - intros ([id th] & -> & Hin). exists id. by apply elem_of_map_to_list.
  - intros [id Hid]. exists (id, i). split; [done |].
    by apply elem_of_map_to_list.
Qed.


(** ** What [animate] and [stop_animation] leave alone *)

Lemma is_animating_lookup (id : string) (m : manager) :
  is_animating id m = match _active_animations m !! id with
                      | Some _ => true
                      | None => false
                      end.
Proof.
  unfold is_animating. destruct (_active_animations m !! id).
  - by apply bool_decide_eq_true_2.
  - apply bool_decide_eq_false_2. by intros [? ?].
Qed.


(** X5: [stop_animation] touches nothing but the id it is given: the other ids
    stay registered to the same threads, every thread but the one that was
    registered under the id is as it was, and the number of registered
    animations drops by one exactly when the id was registered. *)
Theorem stop_animation_frame (id : string) (m : manager) :
  exists m1, stop_animation id m = Ok m1 /\
    (forall id', id' <> id ->
       _active_animations m1 !! id' = _active_animations m !! id') /\
    get_active_count m1
      = (if is_animating id m then Nat.pred (get_active_count m)
         else get_active_count m) /\
    (forall th, _active_animations m !! id <> Some th ->
       threads m1 !! th = threads m !! th).
Proof.
  eexists. split; [apply stop_animation_unfold |].
  rewrite is_animating_lookup. unfold get_active_count.
  destruct (_active_animations m !! id) as [old|] eqn:Hold; simpl.
  - split; [| split].
    + intros id' Hne. by rewrite lookup_delete_ne.
    + by rewrite map_size_delete, Hold.
    + intros th Hne. rewrite list_lookup_alter_ne; [done | congruence].
  - done.
Qed.

(** ** A thread that an exception ends *)

Lemma dying_step_is_silent math_pow math_sin (i : nat) (now : float)
    (t : thread) (e : exn) :
  next (_animation_loop math_pow math_sin i now t) = Died e ->
  _animation_loop math_pow math_sin i now t = goto (Died e).
Proof.
  unfold _animation_loop.
  destruct (at_ t); simpl; loop_cases; intros H; try discriminate;
    by rewrite <- ?H.
Qed.

Lemma dead_thread_stays math_pow math_sin (i : nat) (nows : list float)
    (m : manager) (t : thread) (e : exn) :
  threads m !! i = Some t -> at_ t = Died e ->
  run_thread math_pow math_sin i nows m = m.
Proof.
  intros Ht Hat. induction nows as [| now nows IH]; simpl; [done |].
  change (run_thread math_pow math_sin i nows
            (step_thread math_pow math_sin i now m) = m).
  assert (Hs : step_thread math_pow math_sin i now m = m).
  { unfold step_thread. rewrite Ht. unfold _animation_loop. rewrite Hat. simpl.
    rewrite app_nil_r. destruct m as [d ts l]. simpl in *. f_equal.
    apply list_insert_id. rewrite Ht. f_equal. destruct t. simpl in *.
    by rewrite Hat. }
  by rewrite Hs.
Qed.

(** X6: When a step of a thread ends with an exception (the frame rate is zero
    or does not fit a float, the duration is zero, the easing function
    raises, [time.sleep] refuses a negative frame duration), the thread
    calls no callback at that step nor ever after, not even the completion
    callback, and, left alone, its id stays registered: [is_animating]
    keeps answering true. *)
Theorem killed_thread_stays_registered math_pow math_sin (m : manager)
    (th : nat) (t : thread) (now : float) (e : exn) :
  threads m !! th = Some t ->
  _active_animations m !! animation_id t = Some th ->
  next (_animation_loop math_pow math_sin th now t) = Died e ->
  (forall nows,
     run_thread math_pow math_sin th (now :: nows) m
     = alter_thread (set_at (Died e)) th m) /\
  is_animating (animation_id t) (alter_thread (set_at (Died e)) th m) = true /\
  (forall acts, exists m2,
     run math_pow math_sin (Step th now :: acts) m = Ok m2 /\
     events_of th (events_since (length (log m)) m2) = []).
Proof.
  intros Ht Hid Hn. apply dying_step_is_silent in Hn.
  assert (Hs : step_thread math_pow math_sin th now m
               = alter_thread (set_at (Died e)) th m).
  { unfold step_thread, alter_thread. rewrite Ht, Hn. simpl.
    rewrite app_nil_r. f_equal. apply list_eq. intros j.
    destruct (decide (j = th)) as [-> | Hne].
    - rewrite list_lookup_alter_eq, Ht, list_lookup_insert_eq; [done |].
      by eapply lookup_lt_Some.
    - by rewrite list_lookup_alter_ne, list_lookup_insert_ne. }
  assert (Hd : threads (alter_thread (set_at (Died e)) th m) !! th
               = Some (set_at (Died e) t)).
  { simpl. by rewrite list_lookup_alter_eq, Ht. }
  split; [| split].
  - intros nows.
    change (run_thread math_pow math_sin th (now :: nows) m)
      with (run_thread math_pow math_sin th nows
              (step_thread math_pow math_sin th now m)).
    rewrite Hs. by eapply dead_thread_stays.
  - rewrite is_animating_lookup. simpl. by rewrite Hid.
  - intros acts. simpl. rewrite Hs.
    destruct (run_total math_pow math_sin acts
                (alter_thread (set_at (Died e)) th m)) as [m2 Hr].
    exists m2. split; [done |].
    destruct (run_thread_local math_pow math_sin th
                (fun t' l => at_ t' = Died e /\ l = events_of th (log m))
                ltac:(by intros ? ? [? ?])) with (2 := Hd) (4 := Hr)
      as (t2 & _ & _ & Hl).
    { intros t' l now' [Hat ->]. unfold _animation_loop. rewrite Hat. simpl.
      by rewrite app_nil_r. }
    { done. }
    apply run_log in Hr as [new Hnew]. simpl in Hnew.
    unfold events_since. rewrite Hnew, drop_app_length.
    rewrite Hnew, events_of_app in Hl.
    by apply app_inv_head with (l := events_of th (log m)); rewrite app_nil_r.
Qed.


Lemma killed_thread_stays_registered_witness :
  run_thread pow_by_mul sin_unavailable 0 [0; 1; 2]%float
    (one_animation (fresh_thread "fade" 0 1 never_raises zero_fps (Some false)))
  = alter_thread (set_at (Died ZeroDivisionError)) 0
      (one_animation
         (fresh_thread "fade" 0 1 never_raises zero_fps (Some false))) /\
  is_animating "fade"
    (alter_thread (set_at (Died ZeroDivisionError)) 0
       (one_animation
          (fresh_thread "fade" 0 1 never_raises zero_fps (Some false))))
  = true.
Proof.
  destruct (killed_thread_stays_registered pow_by_mul sin_unavailable
              (one_animation
                 (fresh_thread "fade" 0 1 never_raises zero_fps (Some false)))
              0%nat _ 0%float ZeroDivisionError eq_refl eq_refl eq_refl)
    as (H1 & H2 & _).
  split; [exact (H1 [1; 2]%float) | exact H2].
Defined.

(** ** The cleanup removes the id, whoever holds it *)

Lemma past_cleanup_step math_pow math_sin (i : nat) (now : float)
    (t : thread) :
  past_cleanup (next (_animation_loop math_pow math_sin i now t)) = true ->
  unregisters (_animation_loop math_pow math_sin i now t) = true \/
  past_cleanup (at_ t) = true.
Proof.
  destruct (past_cleanup (at_ t)) eqn:Hp; [by right |].
  destruct (unregisters _) eqn:Hu; [by left |].
  rewrite (loop_keeps_registered _ _ _ _ _ Hp Hu). discriminate.
Qed.

Lemma run_thread_other math_pow math_sin (i j : nat) (nows : list float)
    (m : manager) :
  i <> j ->
  threads (run_thread math_pow math_sin j nows m) !! i = threads m !! i.
Proof.
  intros Hne. revert m. induction nows as [| now nows IH]; intros m; [done |].
  change (threads (run_thread math_pow math_sin j nows
                     (step_thread math_pow math_sin j now m)) !! i
          = threads m !! i).
  by rewrite IH, step_thread_other.
Qed.

(** Once a thread is past its cleanup, nothing is registered under its
    id. *)
Lemma run_thread_unregisters math_pow math_sin (i : nat) (nows : list float) :
  forall (m : manager) (t : thread),
  threads m !! i = Some t ->
  (past_cleanup (at_ t) = true ->
   _active_animations m !! animation_id t = None) ->
  exists t', threads (run_thread math_pow math_sin i nows m) !! i = Some t' /\
    animation_id t' = animation_id t /\
    (past_cleanup (at_ t') = true ->
     _active_animations (run_thread math_pow math_sin i nows m)
       !! animation_id t = None).
Proof.
  induction nows as [| now nows IH]; intros m t Ht Hp; [by exists t |].
  change (run_thread math_pow math_sin i (now :: nows) m)
    with (run_thread math_pow math_sin i nows
            (step_thread math_pow math_sin i now m)).
  destruct (step_thread_at math_pow math_sin i now m t Ht) as [Hs _].
  destruct (IH _ _ Hs) as (t' & Ht' & Hid & Hp'); [| by exists t'].
  simpl. intros Hn. unfold step_thread. rewrite Ht. simpl.
  destruct (past_cleanup_step _ _ _ _ _ Hn) as [-> | Hold].
  - apply lookup_delete_eq.
  - destruct (unregisters _); [apply lookup_delete_eq | by apply Hp].
Qed.

(** X7: [animate] on a registered id whose thread is between two ticks: when
    the old thread has run to its end, its cleanup has removed the id from
    the registry although the id names the new thread by then.  The new
    thread has not taken a step and its flag is set, but [is_animating]
    answers false for its id, [stop_animation] with this id does nothing,
    and [stop_all_animations] does not clear its flag. *)
Theorem replaced_thread_unregisters_successor math_pow math_sin id s e u c k
    (m : manager) (old : nat) (t : thread) :
  registry_ok m ->
  _active_animations m !! id = Some old -> threads m !! old = Some t ->
  between_ticks t = true ->
  exists m1 n, animate id s e u c k m = Ok m1 /\
    _active_animations m1 !! id = Some (length (threads m)) /\
    forall nows, length nows = n ->
      threads (run_thread math_pow math_sin old nows m1) !! length (threads m)
        = Some (fresh_thread id s e u (default default_config c) k) /\
      is_animating id (run_thread math_pow math_sin old nows m1) = false /\
      stop_animation id (run_thread math_pow math_sin old nows m1)
        = Ok (run_thread math_pow math_sin old nows m1) /\
      threads (stop_all_animations
                 (run_thread math_pow math_sin old nows m1))
        !! length (threads m)
        = Some (fresh_thread id s e u (default default_config c) k).
Proof.
  intros Hok Hid Ht Hq.
  destruct (animate id s e u c k m) as [m1|] eqn:E.
  2:{ rewrite animate_unfold in E. discriminate. }
  pose proof (animate_registry_ok _ _ _ _ _ _ _ _ Hok E) as Hok1.
  pose proof (animate_shape _ _ _ _ _ _ _ _ E) as (Hlen & Hreg & Hnew & Hlog).
  assert (Hlt : old < length (threads m)) by by eapply lookup_lt_Some.
  assert (Hold1 : threads m1 !! old = Some (set_do_run false t)).
  { rewrite animate_unfold in E. injection E as <-. rewrite Hid. simpl.
    rewrite lookup_app_l by (by rewrite length_alter).
    by rewrite list_lookup_alter_eq, Ht. }
  destruct (Hok id old Hid) as (t0 & Ht0 & Hname & _ & Hpc).
  assert (t0 = t) by congruence. subst t0.
  destruct (cleared_thread_completes math_pow math_sin old m1 _ Hold1 eq_refl Hq)
    as [n Hn].
  exists m1, n. split; [done |]. split; [done |]. intros nows Hlen'.
  destruct (Hn nows Hlen') as [Hfin _].
  set (m2 := run_thread math_pow math_sin old nows m1) in *.
  assert (Hnew2 : threads m2 !! length (threads m)
                  = Some (fresh_thread id s e u (default default_config c) k)).
  { unfold m2. rewrite run_thread_other by lia. done. }
  assert (Hnone : _active_animations m2 !! id = None).
  { destruct (run_thread_unregisters math_pow math_sin old nows m1 _ Hold1)
      as (t' & Ht' & _ & Hp').
    { simpl. rewrite Hpc. discriminate. }
    fold m2 in Ht', Hp'. rewrite Hfin in Ht'. injection Ht' as <-.
    simpl in Hp'. rewrite Hname in Hp'. by apply Hp'. }
  assert (Hok2 : registry_ok m2).
  { eapply (run_registry_ok math_pow math_sin); [exact Hok1 |].
    apply run_thread_run. }
  split; [done |]. split; [| split].
  - by rewrite is_animating_lookup, Hnone.
  - by apply stop_animation_unknown.
  - simpl. rewrite foldr_alter_lookup, bool_decide_eq_false_2; [done |].
    rewrite registered_values. intros [id' Hid'].
    destruct (Hok2 id' _ Hid') as (t' & Ht' & Hname' & _).
    rewrite Hnew2 in Ht'. injection Ht' as <-. simpl in Hname'. subst id'.
    congruence.
Qed.

Lemma replaced_thread_unregisters_successor_witness :
  exists m1 n,
    animate "fade" 100 0 never_raises None None mid_flight = Ok m1 /\
    forall nows, length nows = n ->
      is_animating "fade" (run_thread pow_by_mul sin_unavailable 0 nows m1)
      = false.
Proof.
  assert (Hok : registry_ok mid_flight).
  { intros id th H. simpl in H. apply lookup_singleton_Some in H as [<- <-].
    eexists. split; [reflexivity |]. done. }
  destruct (replaced_thread_unregisters_successor pow_by_mul sin_unavailable
              "fade" 100%float 0%float never_raises None None mid_flight
              0%nat _ Hok eq_refl eq_refl eq_refl)
    as (m1 & n & E & _ & H).
  exists m1, n. split; [exact E |]. intros nows Hn.
  exact (proj1 (proj2 (H nows Hn))).
Defined.

(** ** [auto_reverse] with a single iteration *)

Lemma set_auto_reverse_loop math_pow math_sin (b : bool) (i : nat)
    (now : float) (t : thread) :
  first_iteration (at_ t) = true -> (repeat_count (config t) <= 1)%Z ->
  _animation_loop math_pow math_sin i now (set_auto_reverse b t)
    = _animation_loop math_pow math_sin i now t /\
  first_iteration (next (_animation_loop math_pow math_sin i now t)) = true.
Proof.
  intros Hf Hr. unfold _animation_loop. simpl.
  destruct (at_ t) as [| r | r st | r st | r st | | | |] eqn:Hat; simpl in *;
    try done.
  - split; [done |]. by loop_cases.
  - split; [done |]. destruct (r <? repeat_count (config t))%Z eqn:Hlt;
      simpl; [| done].
    apply Z.ltb_lt in Hlt. apply Z.leb_le in Hf. apply Z.eqb_eq. lia.
  - split; [done |]. apply Z.eqb_eq in Hf. subst r. by destruct (do_run t).
  - apply Z.eqb_eq in Hf. subst r.
    assert (Hc : current_value math_pow math_sin (set_auto_reverse b t) 0 st now
                 = current_value math_pow math_sin t 0 st now).
    { unfold current_value. simpl. by rewrite !andb_false_r. }
    rewrite Hc. split; [done |]. by loop_cases.
  - split; [done |]. by loop_cases.
  - split; [done |]. by loop_cases.
Qed.

Lemma alter_flag_commute (f : thread -> thread) (i j : nat)
    (ts : list thread) :
  (forall t, f (set_do_run false t) = set_do_run false (f t)) ->
  alter (set_do_run false) j (alter f i ts)
  = alter f i (alter (set_do_run false) j ts).
Proof.
  intros Hf. destruct (decide (j = i)) as [-> | Hne].
  - rewrite !list_alter_alter_eq. apply list_alter_ext; [| done].
    intros t _. simpl. by rewrite Hf.
  - by apply list_alter_alter_ne.
Qed.

Lemma alter_insert_commute (f : thread -> thread) (i j : nat) (x : thread)
    (ts : list thread) :
  i <> j -> <[j := x]> (alter f i ts) = alter f i (<[j := x]> ts).
Proof.
  intros Hne. apply list_eq. intros k.
  destruct (decide (k = j)) as [-> | Hj].
  - rewrite list_lookup_alter_ne by done.
    destruct (decide (j < length ts)) as [Hlt | Hge].
    + by rewrite !list_lookup_insert_eq by (by rewrite ?length_alter).
    + rewrite !(proj2 (lookup_ge_None _ _));
        [done | rewrite length_insert; lia |
         rewrite length_insert, length_alter; lia].
  - rewrite list_lookup_insert_ne by done.
    destruct (decide (k = i)) as [-> | Hi].
    + by rewrite !list_lookup_alter_eq, list_lookup_insert_ne.
    + by rewrite !list_lookup_alter_ne, list_lookup_insert_ne.
Qed.

Section AutoReverse.
Variable math_pow : float -> float -> result float.
Variable math_sin : float -> result float.
Variable b : bool.
Variable i : nat.

Abbreviation flip := (alter_thread (set_auto_reverse b) i).

Lemma stop_animation_flip (id : string) (m m1 : manager) :
  stop_animation id m = Ok m1 -> stop_animation id (flip m) = Ok (flip m1).
Proof.
  rewrite !stop_animation_unfold. intros [= <-]. simpl.
  destruct (_active_animations m !! id) as [old|]; [| done].
  unfold alter_thread. simpl. by rewrite alter_flag_commute.
Qed.

Lemma exec_flip (a : action) (m m1 : manager) (t : thread) :
  threads m !! i = Some t -> first_iteration (at_ t) = true ->
  (repeat_count (config t) <= 1)%Z ->
  exec math_pow math_sin a m = Ok m1 ->
  exec math_pow math_sin a (flip m) = Ok (flip m1).
Proof.
  intros Ht Hf Hr He.
  assert (Hlt : i < length (threads m)) by by eapply lookup_lt_Some.
  destruct a as [id s e u c k | id | | j now]; simpl in *.
  - unfold animate in *.
    destruct (stop_animation id m) as [m0|] eqn:E; [| done].
    rewrite (stop_animation_flip _ _ _ E). simpl in *. injection He as <-.
    unfold alter_thread. simpl. rewrite length_alter. do 2 f_equal.
    rewrite alter_app_l; [done |].
    rewrite stop_animation_unfold in E. injection E as <-.
    destruct (_active_animations m !! id); simpl; by rewrite ?length_alter.
  - by apply stop_animation_flip.
  - injection He as <-. unfold stop_all_animations, alter_thread. simpl.
    do 2 f_equal.
    induction (map snd (map_to_list (_active_animations m))) as [| x l IH];
      simpl; [done |].
    by rewrite IH, alter_flag_commute.
  - injection He as <-. unfold step_thread. simpl.
    destruct (decide (j = i)) as [-> | Hne].
    + rewrite list_lookup_alter_eq, Ht. simpl.
      destruct (set_auto_reverse_loop math_pow math_sin b i now t Hf Hr)
        as [-> _].
      unfold alter_thread. simpl. do 2 f_equal.
      apply list_eq. intros k. destruct (decide (k = i)) as [-> | Hk].
      * rewrite list_lookup_alter_eq.
        by rewrite !list_lookup_insert_eq by (by rewrite ?length_alter).
      * by rewrite list_lookup_alter_ne, !list_lookup_insert_ne,
             list_lookup_alter_ne.
    + rewrite list_lookup_alter_ne by done.
      destruct (threads m !! j) as [tj|]; [| done].
      unfold alter_thread. simpl. do 2 f_equal.
      by apply alter_insert_commute.
Qed.

Lemma run_flip (acts : list action) :
  forall (m m1 : manager) (t : thread),
  threads m !! i = Some t -> first_iteration (at_ t) = true ->
  (repeat_count (config t) <= 1)%Z ->
  run math_pow math_sin acts m = Ok m1 ->
  run math_pow math_sin acts (flip m) = Ok (flip m1).
Proof.
  induction acts as [| a acts IH]; intros m m1 t Ht Hf Hr; simpl.
  - by intros [= <-].
  - destruct (exec math_pow math_sin a m) as [m0|] eqn:E; [| done]. simpl.
    rewrite (exec_flip _ _ _ _ Ht Hf Hr E). simpl.
    destruct (exec_thread_local math_pow math_sin i
                (fun t' _ => first_iteration (at_ t') = true /\
                             (repeat_count (config t') <= 1)%Z)
                ltac:(done)) with (2 := Ht) (4 := E) as (t' & Ht' & Hf' & Hr').
    { intros t' _ now [Hf' Hr']. split; [| done].
      by apply set_auto_reverse_loop. }
    { done. }
    by apply (IH _ _ _ Ht' Hf' Hr').
Qed.
End AutoReverse.

(** X8: With a repeat count of one or less, [auto_reverse] changes nothing.
    Two managers that differ in the [auto_reverse] of one thread that has
    not started its loop go through every run alike: the same calls return,
    the same callbacks are called with the same values in the same order,
    and the same ids are registered. *)
Theorem auto_reverse_needs_second_iteration math_pow math_sin (b : bool)
    (i : nat) (m : manager) (t : thread) (acts : list action) :
  threads m !! i = Some t -> at_ t = AtDelay ->
  (repeat_count (config t) <= 1)%Z ->
  exists m1, run math_pow math_sin acts m = Ok m1 /\
    run math_pow math_sin acts (alter_thread (set_auto_reverse b) i m)
      = Ok (alter_thread (set_auto_reverse b) i m1).
Proof.
  intros Ht Hat Hr.
  destruct (run_total math_pow math_sin acts m) as [m1 Hrun].
  exists m1. split; [done |].
  apply (run_flip math_pow math_sin b i acts m m1 t Ht); [| done..].
  by rewrite Hat.
Qed.

Lemma auto_reverse_needs_second_iteration_witness :
  exists m1,
    run pow_by_mul sin_unavailable [Step 0 10; Step 0 10; Step 0 10; Step 0 11]
      (one_animation
         (fresh_thread "fade" 0 1 never_raises one_second_linear None))
    = Ok m1 /\
    run pow_by_mul sin_unavailable [Step 0 10; Step 0 10; Step 0 10; Step 0 11]
      (alter_thread (set_auto_reverse true) 0
         (one_animation
            (fresh_thread "fade" 0 1 never_raises one_second_linear None)))
    = Ok (alter_thread (set_auto_reverse true) 0 m1).
Proof.
  apply (auto_reverse_needs_second_iteration pow_by_mul sin_unavailable true
           0%nat
           (one_animation
              (fresh_thread "fade" 0 1 never_raises one_second_linear None))
           (fresh_thread "fade" 0 1 never_raises one_second_linear None)
           _ eq_refl eq_refl).
  simpl. lia.
Defined.
(** * Further properties of the widget *)

(** ** What a step of a property thread changes *)

Lemma object_setattr_Ok (name : string) (v : pyval) (w w' : widget) :
  object_setattr name v w = Ok w' ->
  attributes w' = <[name := v]> (attributes w) /\
  property_threads w' = property_threads w /\
  appearance_updates w' = appearance_updates w.
Proof.
  unfold object_setattr. repeat case_bool_decide; try discriminate.
  by intros [= <-].
Qed.

Lemma call_update_appearance_Ok (w w' : widget) :
  call_update_appearance w = Ok w' ->
  attributes w' = attributes w /\
  property_threads w' = property_threads w /\
  appearance_updates w' = S (appearance_updates w).
Proof.
  unfold call_update_appearance. destruct (attributes w !! _); [done |].
  by intros [= <-].
Qed.

(** The cases of a step of [_animate_property_thread]. *)
Ltac thread_cases :=
  unfold _animate_property_thread, move;
  repeat match goal with
         | |- context [match ?x with _ => _ end] => destruct x eqn:?; simpl
         end.

Ltac written :=
  repeat match goal with
         | H : object_setattr _ _ _ = Ok _ |- _ =>
             apply object_setattr_Ok in H as (? & ? & ?)
         | H : call_update_appearance _ = Ok _ |- _ =>
             apply call_update_appearance_Ok in H as (? & ? & ?)
         end.

Lemma step_property_threads (th : nat) (now : float) (s : stage) :
  property_threads (self (_animate_property_thread th now s))
  = property_threads (self s).
Proof.
  thread_cases; try done; written; congruence.
Qed.

Lemma step_place_other (th th' : nat) (now : float) (s : stage) :
  th' <> th -> place th' (_animate_property_thread th now s) = place th' s.
Proof.
  intros Hne. unfold place. thread_cases; try done;
    by rewrite lookup_insert_ne.
Qed.

Lemma step_writes_other (th th' : nat) (now : float) (s : stage) :
  th' <> th ->
  writes_of th' (writes (_animate_property_thread th now s))
  = writes_of th' (writes s).
Proof.
  intros Hne. unfold writes_of. thread_cases; try done;
    rewrite List.filter_app; simpl;
    rewrite (proj2 (Nat.eqb_neq th th')) by done; apply app_nil_r.
Qed.

(** A step writes the attribute that its thread animates, and no other. *)
Lemma step_attributes (th : nat) (now : float) (s : stage) (n : string) :
  (forall t, property_threads (self s) !! th = Some t ->
             pt_property_name t <> n) ->
  attributes (self (_animate_property_thread th now s)) !! n
  = attributes (self s) !! n.
Proof.
  intros Hn. thread_cases; try done; written;
    repeat match goal with
           | H : attributes _ = _ |- _ => rewrite H
           end;
    (rewrite lookup_insert_ne; [done |]); by apply Hn.
Qed.

(** ** What a call of the widget does to a thread *)

Lemma pt_set_do_run_cleared (t : property_thread) :
  pt_do_run t = false -> pt_set_do_run false t = t.
Proof. destruct t. simpl. by intros ->. Qed.

Lemma pt_alter_cleared (ts : list property_thread) (th i : nat)
    (t : property_thread) :
  ts !! i = Some t -> pt_do_run t = false ->
  alter (pt_set_do_run false) th ts !! i = Some t.
Proof.
  intros Ht Hrun. destruct (decide (th = i)) as [-> | Hne].
  - rewrite list_lookup_alter_eq, Ht. simpl.
    by rewrite (pt_set_do_run_cleared t Hrun).
  - by rewrite list_lookup_alter_ne.
Qed.

Lemma pt_foldr_alter_cleared (l : list nat) (ts : list property_thread)
    (i : nat) (t : property_thread) :
  ts !! i = Some t -> pt_do_run t = false ->
  foldr (fun th ts => alter (pt_set_do_run false) th ts) ts l !! i = Some t.
Proof.
  intros Ht Hrun. induction l as [| th l IH]; simpl; [done |].
  by apply pt_alter_cleared.
Qed.

Lemma animate_property_cleared math_pow n x y d f (w w' : widget) (i : nat)
    (t : property_thread) :
  animate_property math_pow n x y d f w = Ok w' ->
  property_threads w !! i = Some t -> pt_do_run t = false ->
  property_threads w' !! i = Some t.
Proof.
  unfold animate_property. intros H Ht Hrun.
  destruct (get_config w) as [c|]; [| done]. simpl in H.
  destruct (enable_animations c); simpl in H.
  - destruct (get_current_animations w) as [anims|]; [| done]. simpl in H.
    injection H as <-. simpl.
    assert (Hlt : i < length (property_threads w)) by by eapply lookup_lt_Some.
    destruct (anims !! n) as [th|].
    + rewrite lookup_app_l by (by rewrite length_alter).
      by apply pt_alter_cleared.
    + by rewrite lookup_app_l.
  - destruct (object_setattr n (VFloat y) w) as [w1|] eqn:E1; [| done].
    simpl in H. written. congruence.
Qed.

Lemma stop_all_animations_cleared (w w' : widget) (i : nat)
    (t : property_thread) :
  AnimatedWidget.stop_all_animations w = Ok w' ->
  property_threads w !! i = Some t -> pt_do_run t = false ->
  property_threads w' !! i = Some t.
Proof.
  unfold AnimatedWidget.stop_all_animations. intros H Ht Hrun.
  destruct (attributes w !! "_current_animations") as [[]|]; try done;
    injection H as <-; simpl; [done |].
  by apply pt_foldr_alter_cleared.
Qed.

(** ** A property thread whose flag is cleared *)

Lemma step_cleared (th : nat) (now : float) (s : stage)
    (t : property_thread) :
  property_threads (self s) !! th = Some t -> pt_do_run t = false ->
  length (writes_of th (writes (_animate_property_thread th now s)))
    + pt_pending (place th (_animate_property_thread th now s))
  <= length (writes_of th (writes s)) + pt_pending (place th s).
Proof.
  intros Ht Hrun. unfold _animate_property_thread. rewrite Ht.
  destruct (place th s) eqn:Hp; unfold move; simpl; rewrite ?Hrun;
    unfold place in *; simpl; rewrite ?lookup_insert_eq, ?Hp; simpl; try lia.
  repeat match goal with
         | |- context [match ?x with _ => _ end] => destruct x eqn:?; simpl
         end; unfold writes_of; rewrite ?List.filter_app, ?length_app; simpl;
    rewrite ?lookup_insert_eq, ?Nat.eqb_refl, ?Hp; simpl; lia.
Qed.

Lemma exec_cleared math_pow (a : AnimatedWidget.action) (s s' : stage)
    (i : nat) (t : property_thread) :
  AnimatedWidget.exec math_pow a s = Ok s' ->
  property_threads (self s) !! i = Some t -> pt_do_run t = false ->
  property_threads (self s') !! i = Some t /\
  length (writes_of i (writes s')) + pt_pending (place i s')
    <= length (writes_of i (writes s)) + pt_pending (place i s).
Proof.
  intros He Ht Hrun. destruct a as [n x y d f | | th now]; simpl in He.
  - unfold AnimatedWidget.call in He.
    destruct (animate_property math_pow n x y d f (self s)) as [w|] eqn:E;
      [| done].
    injection He as <-. simpl. split; [| done].
    by eapply animate_property_cleared.
  - unfold AnimatedWidget.call in He.
    destruct (AnimatedWidget.stop_all_animations (self s)) as [w|] eqn:E;
      [| done].
    injection He as <-. simpl. split; [| done].
    by eapply stop_all_animations_cleared.
  - injection He as <-. rewrite step_property_threads. split; [done |].
    destruct (decide (i = th)) as [-> | Hne].
    + by eapply step_cleared.
    + by rewrite step_writes_other, step_place_other.
Qed.

(** Once its flag is cleared, a property thread writes its attribute at
    most once more, and only if it was in a tick. *)
Lemma run_cleared math_pow (acts : list AnimatedWidget.action) :
  forall (s s' : stage) (i : nat) (t : property_thread),
  AnimatedWidget.run math_pow acts s = Ok s' ->
  property_threads (self s) !! i = Some t -> pt_do_run t = false ->
  length (writes_of i (writes s')) + pt_pending (place i s')
    <= length (writes_of i (writes s)) + pt_pending (place i s).
Proof.
  induction acts as [| a acts IH]; intros s s' i t Hr Ht Hrun; simpl in Hr.
  - by injection Hr as <-.
  - destruct (AnimatedWidget.exec math_pow a s) as [s1|] eqn:E; [| done].
    simpl in Hr. destruct (exec_cleared _ _ _ _ _ _ E Ht Hrun) as [Ht1 B1].
    pose proof (IH _ _ _ _ Hr Ht1 Hrun). lia.
Qed.

(** ** [animate_property] with animations enabled *)

Lemma animate_property_enabled math_pow n x y d f (w : widget)
    (c : WidgetConfig) (anims : gmap string nat) :
  attributes w !! "config" = Some (VConfig c) ->
  enable_animations c = true ->
  attributes w !! "_current_animations" = Some (VThreads anims) ->
  animate_property math_pow n x y d f w =
  Ok {| attributes :=
          <["_current_animations" :=
              VThreads (<[n := length (property_threads w)]> anims)]>
          (attributes w);
        property_threads :=
          match anims !! n with
          | Some th => alter (pt_set_do_run false) th (property_threads w)
          | None => property_threads w
          end ++
          [{| pt_property_name := n; pt_start_value := x; pt_end_value := y;
              pt_duration :=
                match d with
                | Some d0 =>
                    if (d0 =? 0)%float then animation_duration c else d0
                | None => animation_duration c
                end;
              pt_easing_function := default (_ease_out_cubic math_pow) f;
              pt_do_run := true |}];
        appearance_updates := appearance_updates w |}.
Proof.
  intros Hc Hen Ha. unfold animate_property, get_config, get_current_animations.
  rewrite Hc. simpl. rewrite Hen, Ha. simpl. do 3 f_equal.
  destruct (anims !! n); by rewrite ?length_alter.
Qed.

Lemma exec_writes math_pow (a : AnimatedWidget.action) (s s' : stage) :
  AnimatedWidget.exec math_pow a s = Ok s' ->
  exists l, writes s' = writes s ++ l.
Proof.
  destruct a as [n x y d f | | th now]; simpl; unfold AnimatedWidget.call.
  - destruct (animate_property _ _ _ _ _ _ _); [| done].
    intros [= <-]. exists []. by rewrite app_nil_r.
  - destruct (AnimatedWidget.stop_all_animations _); [| done].
    intros [= <-]. exists []. by rewrite app_nil_r.
  - intros [= <-]. thread_cases; eauto; exists []; by rewrite app_nil_r.
Qed.

Lemma run_writes math_pow (acts : list AnimatedWidget.action) :
  forall s s', AnimatedWidget.run math_pow acts s = Ok s' ->
  exists l, writes s' = writes s ++ l.
Proof.
  induction acts as [| a acts IH]; intros s s' Hr; simpl in Hr.
  - injection Hr as <-. exists []. by rewrite app_nil_r.
  - destruct (AnimatedWidget.exec math_pow a s) as [s1|] eqn:E; [| done].
    apply exec_writes in E as [l1 E]. apply IH in Hr as [l2 Hr].
    exists (l1 ++ l2). by rewrite Hr, E, app_assoc.
Qed.

Lemma run_cleared_since math_pow (acts : list AnimatedWidget.action)
    (s s' : stage) (i : nat) (t : property_thread) :
  AnimatedWidget.run math_pow acts s = Ok s' ->
  property_threads (self s) !! i = Some t -> pt_do_run t = false ->
  length (writes_of i (drop (length (writes s)) (writes s')))
    <= pt_pending (place i s).
Proof.
  intros Hr Ht Hrun.
  pose proof (run_cleared math_pow acts s s' i t Hr Ht Hrun) as B.
  apply run_writes in Hr as [l Hl]. rewrite Hl, drop_app_length.
  rewrite Hl in B. unfold writes_of in *.
  rewrite List.filter_app, length_app in B. lia.
Qed.



(** ** [stop_all_animations] of the widget *)

Lemma pt_foldr_alter_lookup (l : list nat) (ts : list property_thread)
    (i : nat) :
  foldr (fun th ts => alter (pt_set_do_run false) th ts) ts l !! i
  = if bool_decide (i ∈ l) then pt_set_do_run false <$> ts !! i else ts !! i.
Proof.
  induction l as [| th l IH]; simpl; [done |].
  destruct (decide (th = i)) as [-> | Hne].
  - rewrite list_lookup_alter_eq, IH.
    rewrite (bool_decide_eq_true_2 (i ∈ i :: l)) by (apply list_elem_of_here).
    destruct (bool_decide (i ∈ l)); [| done].
    by destruct (ts !! i).
  - rewrite list_lookup_alter_ne, IH by done.
    destruct (decide (i ∈ l)) as [Hin | Hin].
    + rewrite (bool_decide_eq_true_2 _ Hin).
      by rewrite bool_decide_eq_true_2 by (by apply list_elem_of_further).
    + rewrite (bool_decide_eq_false_2 _ Hin).
      rewrite bool_decide_eq_false_2; [done |].
      intros [? | ?]%elem_of_cons; congruence.
Qed.

(** X13: [stop_all_animations] of a widget empties the table of its current
    animations, so that [is_animating] answers false, and clears the flag
    of the threads that were in it; the attributes that the threads animate
    are left as they are.  Whatever is called and however the threads are
    scheduled afterwards, each of these threads writes its property at most
    once more, namely when it was inside a tick. *)
Theorem widget_stop_all_animations_effect math_pow (s : stage)
    (anims : gmap string nat) :
  attributes (self s) !! "_current_animations" = Some (VThreads anims) ->
  exists s1,
    AnimatedWidget.exec math_pow AnimatedWidget.StopAll s = Ok s1 /\
    AnimatedWidget.is_animating (self s1) = Ok false /\
    (forall n, n <> "_current_animations" ->
       attributes (self s1) !! n = attributes (self s) !! n) /\
    appearance_updates (self s1) = appearance_updates (self s) /\
    forall n th t, anims !! n = Some th ->
      property_threads (self s) !! th = Some t ->
      property_threads (self s1) !! th = Some (pt_set_do_run false t) /\
      forall acts s2, AnimatedWidget.run math_pow acts s1 = Ok s2 ->
        length (writes_of th (drop (length (writes s)) (writes s2)))
          <= pt_pending (place th s).
Proof.
  intros Ha.
  destruct (AnimatedWidget.exec math_pow AnimatedWidget.StopAll s)
    as [s1|] eqn:E; simpl in E;
    unfold AnimatedWidget.call, AnimatedWidget.stop_all_animations in E;
    rewrite Ha in E; [| done].
  simpl in E. injection E as E.
  exists s1. split; [done |]. split.
  { rewrite <- E. unfold AnimatedWidget.is_animating. simpl.
    by rewrite lookup_insert_eq. }
  split.
  { intros n Hn. rewrite <- E. simpl. by rewrite lookup_insert_ne. }
  split; [by rewrite <- E |].
  intros n th t Hn Ht.
  assert (H1 : property_threads (self s1) !! th
               = Some (pt_set_do_run false t)).
  { rewrite <- E. simpl.
    rewrite pt_foldr_alter_lookup, bool_decide_eq_true_2, Ht; [done |].
    apply registered_values. eauto. }
  split; [exact H1 |]. intros acts s2 Hr.
  pose proof (run_cleared_since math_pow acts s1 s2 th _ Hr H1 eq_refl) as B.
  by rewrite <- E in B at 1 2.
Qed.

Lemma widget_stop_all_animations_effect_witness :
  exists s1,
    AnimatedWidget.exec pow_by_mul AnimatedWidget.StopAll
      (on_stage fading_widget) = Ok s1 /\
    AnimatedWidget.is_animating (self s1) = Ok false.
Proof.
  destruct (widget_stop_all_animations_effect pow_by_mul
              (on_stage fading_widget) {[ "opacity" := 0%nat ]})
    as (s1 & E & H & _); [reflexivity |].
  exists s1. split; [exact E | exact H].
Defined.

(** ** The attributes that the calls and the threads leave alone *)

Lemma steps_property_threads (l : list (nat * float)) (s : stage) :
  property_threads (self (steps l s)) = property_threads (self s).
Proof.
  revert s. induction l as [| [th now] l IH]; intros s; [done |].
  unfold steps in *. simpl. by rewrite IH, step_property_threads.
Qed.

Lemma steps_attributes (l : list (nat * float)) (s : stage) (n : string) :
  not_animated n (self s) ->
  attributes (self (steps l s)) !! n = attributes (self s) !! n.
Proof.
  revert s. induction l as [| [th now] l IH]; intros s Hn; [done |].
  unfold steps in *. simpl. rewrite IH.
  - apply step_attributes. intros t Ht. unfold not_animated in Hn.
    rewrite Forall_forall in Hn. apply Hn. by eapply list_elem_of_lookup_2.
  - unfold not_animated. by rewrite step_property_threads.
Qed.

Lemma alter_not_animated (n : string) (th : nat)
    (ts : list property_thread) :
  Forall (fun t => pt_property_name t <> n) ts ->
  Forall (fun t => pt_property_name t <> n)
         (alter (pt_set_do_run false) th ts).
Proof.
  rewrite !Forall_forall. intros Hts t Ht.
  apply list_elem_of_lookup_1 in Ht as [i Hi].
  destruct (decide (i = th)) as [-> | Hne].
  - rewrite list_lookup_alter_eq in Hi.
    destruct (ts !! th) as [t0|] eqn:E0; [| done].
    injection Hi as <-. simpl. apply Hts. by eapply list_elem_of_lookup_2.
  - rewrite list_lookup_alter_ne in Hi by done.
    apply Hts. by eapply list_elem_of_lookup_2.
Qed.

Lemma exec_not_animated math_pow (a : AnimatedWidget.action) (s s' : stage)
    (n : string) :
  ~ animates a n -> not_animated n (self s) ->
  AnimatedWidget.exec math_pow a s = Ok s' -> not_animated n (self s').
Proof.
  intros Ha Hts He.
  destruct a as [n' x y d f | | th now]; simpl in *;
    unfold AnimatedWidget.call in He.
  - destruct (animate_property math_pow n' x y d f (self s)) as [w|] eqn:E;
      [| done].
    injection He as <-. simpl. unfold animate_property in E.
    destruct (get_config (self s)) as [c|]; [| done]. simpl in E.
    destruct (enable_animations c); simpl in E.
    + destruct (get_current_animations (self s)) as [anims|]; [| done].
      simpl in E. injection E as <-. simpl.
      unfold not_animated. simpl. apply Forall_app. split.
      * destruct (anims !! n'); [| done]. by apply alter_not_animated.
      * repeat constructor. simpl. congruence.
    + destruct (object_setattr n' (VFloat y) (self s)) as [w1|] eqn:E1;
        [| done].
      simpl in E. written. unfold not_animated.
      repeat match goal with
             | H : property_threads _ = _ |- _ => rewrite H
             end.
      done.
  - destruct (AnimatedWidget.stop_all_animations (self s)) as [w|] eqn:E;
      [| done].
    injection He as <-. simpl. unfold AnimatedWidget.stop_all_animations in E.
    destruct (attributes (self s) !! "_current_animations") as [[| | | | |anims]|];
      try done; injection E as <-; simpl; [done |].
    unfold not_animated in *. simpl.
    induction (map snd (map_to_list anims)) as [| th l IH]; simpl; [done |].
    by apply alter_not_animated.
  - injection He as <-. unfold not_animated. by rewrite step_property_threads.
Qed.

Lemma exec_frame math_pow (a : AnimatedWidget.action) (s s' : stage)
    (n : string) :
  n <> "_current_animations" -> ~ animates a n ->
  not_animated n (self s) ->
  AnimatedWidget.exec math_pow a s = Ok s' ->
  attributes (self s') !! n = attributes (self s) !! n /\
  not_animated n (self s').
Proof.
  intros Hn Ha Hts He. split; [| by eapply exec_not_animated].
  destruct a as [n' x y d f | | th now]; simpl in *;
    unfold AnimatedWidget.call in He.
  - destruct (animate_property math_pow n' x y d f (self s)) as [w|] eqn:E;
      [| done].
    injection He as <-. simpl. unfold animate_property in E.
    destruct (get_config (self s)) as [c|]; [| done]. simpl in E.
    destruct (enable_animations c); simpl in E.
    + destruct (get_current_animations (self s)) as [anims|]; [| done].
      simpl in E. injection E as <-. simpl. by rewrite lookup_insert_ne.
    + destruct (object_setattr n' (VFloat y) (self s)) as [w1|] eqn:E1;
        [| done].
      simpl in E. written.
      repeat match goal with
             | H : attributes _ = _ |- _ => rewrite H
             end.
      rewrite lookup_insert_ne; [done | congruence].
  - destruct (AnimatedWidget.stop_all_animations (self s)) as [w|] eqn:E;
      [| done].
    injection He as <-. simpl. unfold AnimatedWidget.stop_all_animations in E.
    destruct (attributes (self s) !! "_current_animations") as [[]|];
      try done; injection E as <-; simpl; by rewrite lookup_insert_ne.
  - injection He as <-.
    apply step_attributes. intros t Ht. unfold not_animated in Hts.
    rewrite Forall_forall in Hts. apply Hts.
    by eapply list_elem_of_lookup_2.
Qed.

Lemma run_frame math_pow (acts : list AnimatedWidget.action) (n : string) :
  forall s s' : stage,
  n <> "_current_animations" -> Forall (fun a => ~ animates a n) acts ->
  not_animated n (self s) ->
  AnimatedWidget.run math_pow acts s = Ok s' ->
  attributes (self s') !! n = attributes (self s) !! n /\
  not_animated n (self s').
Proof.
  induction acts as [| a acts IH]; intros s s' Hn Ha Hts Hr; simpl in Hr.
  - by injection Hr as <-.
  - destruct (AnimatedWidget.exec math_pow a s) as [s1|] eqn:E; [| done].
    simpl in Hr. apply Forall_cons in Ha as [Ha1 Ha2].
    destruct (exec_frame _ _ _ _ _ Hn Ha1 Hts E) as [H1 Hts1].
    destruct (IH _ _ Hn Ha2 Hts1 Hr) as [H2 Hts2].
    split; [congruence | done].
Qed.

(** ** [is_animating] of the widget *)

(** X14: With animations enabled, a property animation that has been started
    stays in the table of current animations: nothing removes it when its
    thread ends.  However the threads are scheduled, also once they have
    all finished, [is_animating] answers true until [stop_all_animations]
    is called. *)
Theorem finished_animation_still_animating math_pow (s : stage)
    (c : WidgetConfig) (anims : gmap string nat) n x y d f :
  attributes (self s) !! "config" = Some (VConfig c) ->
  enable_animations c = true ->
  attributes (self s) !! "_current_animations" = Some (VThreads anims) ->
  n <> "_current_animations" ->
  not_animated "_current_animations" (self s) ->
  exists s1,
    AnimatedWidget.exec math_pow (AnimatedWidget.AnimateProperty n x y d f) s
      = Ok s1 /\
    forall l, AnimatedWidget.is_animating (self (steps l s1)) = Ok true.
Proof.
  intros Hc Hen Ha Hn Hts.
  destruct (AnimatedWidget.exec math_pow
              (AnimatedWidget.AnimateProperty n x y d f) s) as [s1|] eqn:E.
  2:{ simpl in E. unfold AnimatedWidget.call in E.
      by rewrite (animate_property_enabled _ _ _ _ _ _ _ _ _ Hc Hen Ha) in E. }
  exists s1. split; [done |]. intros l.
  assert (Hts1 : not_animated "_current_animations" (self s1)).
  { eapply exec_not_animated; [| exact Hts | exact E]. simpl. congruence. }
  unfold AnimatedWidget.is_animating.
  rewrite steps_attributes by done.
  simpl in E. unfold AnimatedWidget.call in E.
  rewrite (animate_property_enabled _ _ _ _ _ _ _ _ _ Hc Hen Ha) in E.
  injection E as <-. simpl. rewrite lookup_insert_eq. f_equal.
  apply Nat.ltb_lt. rewrite map_size_insert.
  destruct (anims !! n) eqn:En; simpl; [| lia].
  assert (anims <> ∅) by (intros ->; by rewrite lookup_empty in En).
  assert (size anims <> 0%nat) by by rewrite map_size_non_empty_iff.
  lia.
Qed.


Lemma finished_animation_still_animating_witness :
  exists s1,
    AnimatedWidget.exec pow_by_mul
      (AnimatedWidget.AnimateProperty "opacity" 0 1 None None)
      (on_stage (new_widget None)) = Ok s1 /\
    place 0 (steps [(0%nat, 10%float); (0%nat, 10%float); (0%nat, 11%float)] s1)
      = PtFinished /\
    AnimatedWidget.is_animating
      (self (steps [(0%nat, 10%float); (0%nat, 10%float); (0%nat, 11%float)]
               s1))
      = Ok true.
Proof.
  destruct (finished_animation_still_animating pow_by_mul
              (on_stage (new_widget None)) default_widget_config ∅
              "opacity" 0%float 1%float None None)
    as (s1 & E & H); [reflexivity.. | discriminate | constructor |].
  exists s1. split; [exact E |]. split; [| apply H].
  simpl in E. injection E as <-. vm_compute. reflexivity.
Defined.

(** ** [fade_in] and [fade_out] *)

(** X19: [fade_in] and [fade_out] raise [AttributeError]: they pass
    [self._ease_out_quad], which [AnimatedWidget] does not define.  This
    holds of a new widget and after any calls and thread steps that do not
    animate a property of that very name; nothing is animated or set. *)
Theorem fade_raises_attribute_error math_pow (config : option WidgetConfig)
    (acts : list AnimatedWidget.action) (s : stage)
    (duration : option float) :
  Forall (fun a => ~ animates a "_ease_out_quad") acts ->
  AnimatedWidget.run math_pow acts (on_stage (new_widget config)) = Ok s ->
  fade_in math_pow duration (self s) = Raise AttributeError /\
  fade_out math_pow duration (self s) = Raise AttributeError.
Proof.
  intros Ha Hr.
  destruct (run_frame math_pow acts "_ease_out_quad"
              (on_stage (new_widget config)) s) as [H _];
    [done | done | constructor | done |].
  unfold fade_in, fade_out, fade. rewrite H. by simpl.
Qed.

Lemma fade_raises_attribute_error_witness :
  fade_in pow_by_mul None fading_widget = Raise AttributeError /\
  fade_out pow_by_mul None fading_widget = Raise AttributeError.
Proof.
  apply (fade_raises_attribute_error pow_by_mul None
           [AnimatedWidget.AnimateProperty "opacity" 0 1 None None]
           (on_stage fading_widget) None).
  - repeat constructor. simpl. discriminate.
  - reflexivity.
Defined.

(** ** [set_size] *)

(** X18: With animations enabled, [set_size] with [animate] does not resize the
    widget: it animates an attribute [size_animation] from 0 to 1 and
    leaves [config.width] and [config.height] as they are, when it returns
    and at every later step of the threads (the function that would apply
    the size is stored on the thread object, where nothing calls it).
    Without [animate], the size is set at once and [update_appearance] is
    called once. *)
Theorem set_size_animated_keeps_size math_pow (s : stage) (c : WidgetConfig)
    (anims : gmap string nat) (width height : Z) :
  attributes (self s) !! "config" = Some (VConfig c) ->
  enable_animations c = true ->
  attributes (self s) !! "_current_animations" = Some (VThreads anims) ->
  attributes (self s) !! "animate_property" = None ->
  not_animated "config" (self s) ->
  (exists w1, set_size math_pow width height true (self s) = Ok w1 /\
     attributes w1 !! "config" = Some (VConfig c) /\
     appearance_updates w1 = appearance_updates (self s) /\
     property_threads w1 !! length (property_threads (self s))
       = Some {| pt_property_name := "size_animation"; pt_start_value := 0;
                 pt_end_value := 1; pt_duration := animation_duration c;
                 pt_easing_function := get_ease_out_cubic math_pow (self s);
                 pt_do_run := true |} /\
     forall l,
       attributes
         (self (steps l {| self := w1; places := places s;
                           writes := writes s |})) !! "config"
       = Some (VConfig c)) /\
  (attributes (self s) !! "update_appearance" = None ->
   exists w2, set_size math_pow width height false (self s) = Ok w2 /\
     attributes w2 !! "config" = Some (VConfig (resize width height c)) /\
     appearance_updates w2 = S (appearance_updates (self s)) /\
     property_threads w2 = property_threads (self s)).
Proof.
  intros Hc Hen Ha Hm Hts. split.
  - unfold set_size, get_config, bound_method. rewrite Hc. simpl.
    rewrite Hen, Hm. simpl.
    rewrite (animate_property_enabled _ _ _ _ _ _ _ _ _ Hc Hen Ha). simpl.
    unfold set_update_callback, dict_getitem. simpl.
    rewrite !lookup_insert_eq. simpl.
    eexists. split; [reflexivity |]. simpl.
    split; [by rewrite lookup_insert_ne |]. split; [done |].
    assert (Hd : (if (animation_duration c =? 0)%float
                  then animation_duration c else animation_duration c)
                 = animation_duration c) by by destruct (_ =? _)%float.
    split.
    + rewrite lookup_app_r by (destruct (anims !! _); by rewrite ?length_alter).
      replace (length (property_threads (self s)) - _)%nat with 0%nat
        by (destruct (anims !! _); rewrite ?length_alter; lia).
      simpl. by rewrite Hd.
    + intros l. rewrite steps_attributes.
      * simpl. by rewrite lookup_insert_ne.
      * unfold not_animated. simpl. apply Forall_app. split.
        -- destruct (anims !! _); [| done]. by apply alter_not_animated.
        -- repeat constructor. simpl. discriminate.
  - intros Hup. unfold set_size, get_config, call_update_appearance.
    rewrite Hc. simpl. rewrite lookup_insert_ne by done. rewrite Hup.
    eexists. split; [reflexivity |]. simpl.
    by rewrite lookup_insert_eq.
Qed.

Lemma set_size_animated_keeps_size_witness :
  exists w1, set_size pow_by_mul 300 80 true (new_widget None) = Ok w1 /\
    attributes w1 !! "config" = Some (VConfig default_widget_config) /\
    forall l,
      attributes (self (steps l (on_stage w1))) !! "config"
      = Some (VConfig default_widget_config).
Proof.
  destruct (set_size_animated_keeps_size pow_by_mul
              (on_stage (new_widget None)) default_widget_config ∅ 300 80)
    as [(w1 & E & H1 & _ & _ & H2) _];
    [reflexivity.. | constructor |].
  exists w1. split; [exact E |]. split; [exact H1 | exact H2].
Defined.

(** ** [animate_multiple_properties] *)

Lemma animate_property_disabled_step math_pow n x y d f (w : widget)
    (c : WidgetConfig) :
  attributes w !! "config" = Some (VConfig c) ->
  enable_animations c = false ->
  attributes w !! "update_appearance" = None ->
  n ∉ guarded_names ->
  animate_property math_pow n x y d f w =
  Ok {| attributes := <[n := VFloat y]> (attributes w);
        property_threads := property_threads w;
        appearance_updates := S (appearance_updates w) |}.
Proof.
  intros Hc Hen Hup Hname.
  assert (Hne : n <> "update_appearance" /\ n <> "_current_animations" /\
                n <> "__class__" /\ n <> "__dict__" /\ n <> "__weakref__").
  { unfold guarded_names in Hname. rewrite !not_elem_of_cons in Hname. tauto. }
  destruct Hne as (N1 & N2 & N3 & N4 & N5).
  unfold animate_property, get_config. rewrite Hc. simpl. rewrite Hen. simpl.
  unfold object_setattr. rewrite !bool_decide_eq_false_2 by done. simpl.
  unfold call_update_appearance. simpl.
  rewrite lookup_insert_ne by done. by rewrite Hup.
Qed.

Lemma animate_each_disabled math_pow (d : float) (f : float -> result float)
    (c : WidgetConfig) (items : list (string * (float * float))) :
  forall w : widget,
  attributes w !! "config" = Some (VConfig c) ->
  enable_animations c = false ->
  attributes w !! "update_appearance" = None ->
  attributes w !! "animate_property" = None ->
  NoDup (map fst items) ->
  Forall (fun item =>
            fst item ∉ "config" :: "animate_property" :: guarded_names)
         items ->
  exists w1,
    foldl (fun r item =>
             try! w := r in
             try! _ := bound_method "animate_property" w in
             animate_property math_pow (fst item) (fst (snd item))
               (snd (snd item)) (Some d) (Some f) w)
          (Ok w) items = Ok w1 /\
    (forall n x y, (n, (x, y)) ∈ items ->
       attributes w1 !! n = Some (VFloat y)) /\
    (forall n, n ∉ map fst items -> attributes w1 !! n = attributes w !! n) /\
    appearance_updates w1 = (appearance_updates w + length items)%nat /\
    property_threads w1 = property_threads w.
Proof.
  induction items as [| [n [x y]] items IH]; intros w Hc Hen Hup Hm Hnd Hns.
  - exists w. simpl. split; [done |]. split; [by intros ? ? ? ?%elem_of_nil |].
    split; [done |]. split; [lia | done].
  - apply Forall_cons in Hns as [Hn Hns]. simpl in Hn.
    apply NoDup_cons in Hnd as [Hnin Hnd].
    rewrite !not_elem_of_cons in Hn. destruct Hn as (N1 & N2 & Hn).
    simpl. unfold bound_method at 2. rewrite Hm. simpl.
    rewrite (animate_property_disabled_step _ _ _ _ _ _ _ _ Hc Hen Hup)
      by done.
    unfold guarded_names in Hn. rewrite !not_elem_of_cons in Hn.
    destruct Hn as (N3 & _).
    destruct (IH {| attributes := <[n := VFloat y]> (attributes w);
                    property_threads := property_threads w;
                    appearance_updates := S (appearance_updates w) |})
      as (w1 & E & H1 & H2 & H3 & H4); try done.
    { simpl. by rewrite lookup_insert_ne. }
    { simpl. by rewrite lookup_insert_ne. }
    { simpl. by rewrite lookup_insert_ne. }
    exists w1. split; [exact E |]. split; [| split; [| split]].
    + intros n' x' y' Hin. apply elem_of_cons in Hin as [Heq | Hin].
      * injection Heq as -> -> ->. rewrite (H2 n) by done. simpl.
        apply lookup_insert_eq.
      * by eapply H1.
    + intros n' Hn'. simpl in Hn'. rewrite not_elem_of_cons in Hn'.
      destruct Hn' as [Hne Hn']. rewrite (H2 n' Hn'). simpl.
      by rewrite lookup_insert_ne.
    + rewrite H3. simpl. lia.
    + by rewrite H4.
Qed.

(** X16: With animations disabled, [animate_multiple_properties] sets every
    property of the dictionary to its end value, calls [update_appearance]
    once for each and starts no thread, whatever duration and easing it is
    given, provided that none of the names is [config], [animate_property]
    or one of the names that [animate_property] cannot be given. *)
Theorem animate_multiple_properties_disabled math_pow (w : widget)
    (c : WidgetConfig) (items : list (string * (float * float)))
    (d : option float) (f : option (float -> result float)) :
  attributes w !! "config" = Some (VConfig c) ->
  enable_animations c = false ->
  attributes w !! "update_appearance" = None ->
  attributes w !! "animate_property" = None ->
  NoDup (map fst items) ->
  Forall (fun item =>
            fst item ∉ "config" :: "animate_property" :: guarded_names)
         items ->
  exists w1,
    animate_multiple_properties math_pow items d f w = Ok w1 /\
    (forall n x y, (n, (x, y)) ∈ items ->
       attributes w1 !! n = Some (VFloat y)) /\
    (forall n, n ∉ map fst items -> attributes w1 !! n = attributes w !! n) /\
    appearance_updates w1 = (appearance_updates w + length items)%nat /\
    property_threads w1 = property_threads w.
Proof.
  intros Hc Hen Hup Hm Hnd Hns. unfold animate_multiple_properties, get_config.
  rewrite Hc.
  destruct d as [d0|]; simpl; [destruct (d0 =? 0)%float; simpl |];
    by apply (animate_each_disabled math_pow _ _ c).
Qed.

Lemma animate_multiple_properties_disabled_witness :
  exists w1,
    animate_multiple_properties pow_by_mul
      [("opacity", (0, 1)); ("scale", (1, 2))]%float None None disabled_widget
      = Ok w1 /\
    attributes w1 !! "opacity" = Some (VFloat 1) /\
    attributes w1 !! "scale" = Some (VFloat 2).
Proof.
  destruct (animate_multiple_properties_disabled pow_by_mul disabled_widget
              {| width := 120; height := 40; background_color := "#3498db";
                 text_color := "#ffffff"; border_radius := 8;
                 border_width := 0; border_color := "#2c3e50";
                 font_family := "Arial"; font_size := 12;
                 animation_duration := 0.3; enable_animations := false |}
              [("opacity", (0, 1)); ("scale", (1, 2))]%float None None)
    as (w1 & E & H & _); [reflexivity.. | | |].
  - apply (bool_decide_unpack _). vm_compute. exact I.
  - apply (bool_decide_unpack _). vm_compute. exact I.
  - exists w1. split; [exact E |]. split.
    + apply (H "opacity" 0%float 1%float). apply list_elem_of_here.
    + apply (H "scale" 1%float 2%float).
      apply list_elem_of_further, list_elem_of_here.
Defined.

(** ** [animate_multiple_properties] with animations enabled *)



(** * Callbacks and state of the widget *)

Lemma bind_callback_lookup (et et' : string) (cb : callback) (w : listener) :
  _callbacks (bind_callback et' cb w) !! et
  = (fun l => l ++ (if String.eqb et' et then [cb] else []))
      <$> _callbacks w !! et.
Proof.
  unfold bind_callback.
  destruct (String.eqb_spec et' et) as [-> | Hne].
  - destruct (_callbacks w !! et) as [l|] eqn:E; simpl.
    + by rewrite lookup_insert_eq.
    + by rewrite E.
  - destruct (_callbacks w !! et') as [l|] eqn:E; simpl.
    + rewrite lookup_insert_ne by done.
      destruct (_callbacks w !! et); simpl; by rewrite ?app_nil_r.
    + destruct (_callbacks w !! et); simpl; by rewrite ?app_nil_r.
Qed.

Lemma bind_callback_calls (et : string) (cb : callback) (w : listener) :
  calls (bind_callback et cb w) = calls w /\
  _widget_state (bind_callback et cb w) = _widget_state w /\
  appearances (bind_callback et cb w) = appearances w.
Proof. unfold bind_callback. by destruct (_callbacks w !! et). Qed.

Lemma bind_all_lookup (bindings : list (string * callback)) (et : string) :
  forall w : listener,
  _callbacks (bind_all bindings w) !! et
  = (fun l => l ++ bound_to et bindings) <$> _callbacks w !! et.
Proof.
  induction bindings as [| [et' cb] bs IH]; intros w.
  - unfold bound_to. simpl. destruct (_callbacks w !! et); simpl;
      by rewrite ?app_nil_r.
  - unfold bind_all in *. simpl. rewrite IH, bind_callback_lookup.
    unfold bound_to. simpl.
    destruct (_callbacks w !! et) as [l|]; simpl; [| done].
    destruct (String.eqb et' et); simpl; by rewrite <- ?app_assoc.
Qed.

Lemma bind_all_calls (bindings : list (string * callback)) :
  forall w : listener,
  calls (bind_all bindings w) = calls w /\
  _widget_state (bind_all bindings w) = _widget_state w /\
  appearances (bind_all bindings w) = appearances w.
Proof.
  induction bindings as [| [et cb] bs IH]; intros w; [done |].
  unfold bind_all in *. simpl.
  destruct (IH (bind_callback et cb w)) as (-> & -> & ->).
  apply bind_callback_calls.
Qed.

Lemma new_listener_lookup (et : string) :
  _callbacks new_listener !! et
  = if bool_decide (et ∈ event_types) then Some [] else None.
Proof.
  unfold new_listener. cbn [_callbacks]. case_bool_decide as Hin.
  - apply elem_of_list_to_map_1.
    + apply (bool_decide_unpack _). vm_compute. exact I.
    + apply list_elem_of_fmap. by exists et.
  - apply not_elem_of_list_to_map_1. rewrite <- list_fmap_compose.
    intros Hin'. apply Hin. apply list_elem_of_fmap in Hin' as (e & -> & He).
    done.
Qed.

(** X20: Callbacks are bound to the twelve event types that [__init__] lists and
    to no other: [bind_callback] with another event type does nothing and
    does not raise.  After any bindings on a new widget, [trigger_callback]
    calls the callbacks bound to the event type, each once and in the order
    in which they were bound, with the arguments it is given; a callback
    that raises is reported and does not keep the following ones from being
    called; and for an event type that is not listed nothing is called. *)
Theorem trigger_callback_calls_bound_callbacks
    (bindings : list (string * callback)) (event_type : string)
    (args : list arg) :
  calls (trigger_callback event_type args (bind_all bindings new_listener))
  = flat_map (call_guarded event_type args)
      (if bool_decide (event_type ∈ event_types)
       then bound_to event_type bindings else []).
Proof.
  unfold trigger_callback.
  rewrite bind_all_lookup, new_listener_lookup.
  destruct (bind_all_calls bindings new_listener) as (Hc & _).
  case_bool_decide; simpl; by rewrite Hc.
Qed.

(** ** The state of the widget *)

(** X21: [set_state] with the state that the widget is in does nothing: no
    callback is called and [update_appearance] is not called.  With
    another state it calls the [state_changed] callbacks with the old and
    the new state, then [update_appearance] once.  Either way [get_state]
    then returns the state given, and a second [set_state] with it does
    nothing. *)
Theorem set_state_once (new_state : string) (w : listener) :
  get_state (set_state new_state w) = new_state /\
  set_state new_state (set_state new_state w) = set_state new_state w /\
  _callbacks (set_state new_state w) = _callbacks w /\
  (_widget_state w = new_state -> set_state new_state w = w) /\
  (_widget_state w <> new_state ->
   calls (set_state new_state w)
     = calls w ++
       flat_map (call_guarded "state_changed"
                   [AStr (_widget_state w); AStr new_state])
                (default [] (_callbacks w !! "state_changed")) /\
   appearances (set_state new_state w) = S (appearances w)).
Proof.
  assert (Hget : get_state (set_state new_state w) = new_state).
  { unfold set_state, get_state.
    destruct (String.eqb_spec (_widget_state w) new_state) as [E | E];
      simpl; [done |].
    unfold _on_state_changed, trigger_callback. simpl.
    by destruct (_callbacks w !! "state_changed"). }
  split; [exact Hget |]. split; [| split; [| split]].
  - unfold set_state at 1. unfold get_state in Hget. rewrite Hget.
    by rewrite String.eqb_refl.
  - unfold set_state.
    destruct (String.eqb (_widget_state w) new_state); simpl; [done |].
    unfold _on_state_changed, trigger_callback. simpl.
    by destruct (_callbacks w !! "state_changed").
  - intros E. unfold set_state. by rewrite E, String.eqb_refl.
  - intros E. unfold set_state.
    rewrite (proj2 (String.eqb_neq _ _) E). simpl.
    unfold _on_state_changed, trigger_callback. simpl.
    destruct (_callbacks w !! "state_changed"); simpl; [done |].
    by rewrite app_nil_r.
Qed.
(** * The tick that finds the duration elapsed *)

Section LateTick.
Local Open Scope Z_scope.

Lemma round_div_self (kd : Z) : 0 < kd -> kd < INF -> round_div kd kd = K1.
Proof.
  intros Hpos Hlt. unfold round_div.
  rewrite (proj2 (Z.eqb_neq kd INF)) by lia.
  rewrite (proj2 (Z.eqb_neq kd (- INF))) by lia.
  rewrite (proj2 (Z.ltb_ge kd 0)) by lia.
  assert (H1 : round_signed K1 = K1).
  { apply (round_signed_fixed (Prim2SF 1%float) K1);
      [apply Prim2SF_valid | reflexivity | reflexivity]. }
  unfold round_signed in H1.
  assert (HK : 0 < K1) by (apply pow2_pos; lia).
  rewrite (proj2 (Z.ltb_ge K1 0)) in H1 by lia.
  rewrite <- H1. unfold round_pos. f_equal.
  assert (HE : 2 ^ (- emin) = K1) by reflexivity.
  rewrite HE. apply round_key_ext; nia.
Qed.

Lemma elapsed_duration_progress (x d : float) :
  is_finite d = true -> (0 <? d)%float = true -> fle d x ->
  py_min (x / d) 1 = 1%float.
Proof.
  intros Fd Pd Hle. apply py_min_top.
  apply leb_true_keys in Hle as (kd & kx & Kd & Kx & Hk).
  destruct (div_key x d kx kd Fd Pd Kx Kd) as [Kq Hpos].
  destruct (is_finite_key d Fd) as (kd' & Kd' & Hb).
  rewrite Kd in Kd'. injection Kd' as <-.
  pose proof (fkey_bounds x kx Kx) as Hbx.
  pose proof (round_div_mono kd kd kx Hpos ltac:(lia) ltac:(lia) Hk) as Hm.
  rewrite round_div_self in Hm by lia.
  rewrite (leb_keys 1 (py_min (x / d) 1) K1 _ fkey_one (py_min_key _ _ Kq)).
  apply Z.leb_le. lia.
Qed.
End LateTick.

Lemma late_tick math_pow math_sin (i : nat) (now : float) (t : thread)
    (r : Z) (st e1 : float) :
  at_ t = AtTick r st ->
  is_finite (duration (config t)) = true ->
  (0 <? duration (config t))%float = true ->
  fle (duration (config t)) (now - st) ->
  easing_func math_pow math_sin (easing (config t)) 1 = Ok e1 ->
  _animation_loop math_pow math_sin i now t
  = {| next := AtFor (r + 1);
       emitted :=
         UpdateCalled i 1
           (start_value t + (end_value t - start_value t) *
            (if auto_reverse (config t) && (r mod 2 =? 1)%Z
             then 1 - e1 else e1))%float ::
         (if update_callback t
               (start_value t + (end_value t - start_value t) *
                (if auto_reverse (config t) && (r mod 2 =? 1)%Z
                 then 1 - e1 else e1))%float
          then [ErrorPrinted i] else []);
       unregisters := false |}.
Proof.
  intros Hat Fd Pd Hle He.
  unfold _animation_loop. rewrite Hat.
  unfold current_value, py_div.
  rewrite (positive_nonzero _ Fd Pd). simpl.
  rewrite (elapsed_duration_progress _ _ Fd Pd Hle), He. simpl.
  by destruct (update_callback t _).
Qed.

(** X9: A tick of [_animation_loop] that reads the clock a duration or more
    after the start of its iteration is the last tick of the iteration:
    with a finite positive duration, the raw progress is exactly [1.0], the
    update callback receives the value interpolated at the easing of
    [1.0] (reversed in the odd iterations of an auto-reversing animation),
    and the thread is next at the head of the [for] loop, whether the
    callback raises or not. *)
Theorem elapsed_duration_ends_iteration math_pow math_sin (i : nat)
    (now : float) (t : thread) (r : Z) (st e1 : float) :
  at_ t = AtTick r st ->
  is_finite (duration (config t)) = true ->
  (0 <? duration (config t))%float = true ->
  fle (duration (config t)) (now - st) ->
  easing_func math_pow math_sin (easing (config t)) 1 = Ok e1 ->
  let v := (start_value t + (end_value t - start_value t) *
            (if auto_reverse (config t) && (r mod 2 =? 1)%Z
             then 1 - e1 else e1))%float in
  _animation_loop math_pow math_sin i now t
  = {| next := AtFor (r + 1);
       emitted := UpdateCalled i 1 v ::
                  (if update_callback t v then [ErrorPrinted i] else []);
       unregisters := false |}.
Proof.
  intros Hat Fd Pd Hle He v.
  by apply (late_tick math_pow math_sin i now t r st e1).
Qed.

Lemma elapsed_duration_ends_iteration_witness :
  _animation_loop pow_by_mul sin_unavailable 0 11.5
    (set_at (AtTick 0 10)
       (fresh_thread "fade" 0 100 never_raises one_second_linear None))
  = {| next := AtFor 1; emitted := [UpdateCalled 0 1 100];
       unregisters := false |}.
Proof.
  apply (elapsed_duration_ends_iteration pow_by_mul sin_unavailable 0%nat
           11.5%float
           (set_at (AtTick 0 10)
              (fresh_thread "fade" 0 100 never_raises one_second_linear None))
           0%Z 10%float 1%float); reflexivity.
Defined.

Lemma last_tick_run math_pow math_sin (i : nat) (m : manager) (t : thread)
    (r : Z) (st e1 now n1 n2 n3 : float) :
  threads m !! i = Some t -> at_ t = AtTick r st ->
  (repeat_count (config t) <= r + 1)%Z ->
  is_finite (duration (config t)) = true ->
  (0 <? duration (config t))%float = true ->
  fle (duration (config t)) (now - st) ->
  easing_func math_pow math_sin (easing (config t)) 1 = Ok e1 ->
  threads (run_thread math_pow math_sin i [now; n1; n2; n3] m) !! i
    = Some (set_at Finished t) /\
  log (run_thread math_pow math_sin i [now; n1; n2; n3] m)
    = log m ++
      UpdateCalled i 1
        (start_value t + (end_value t - start_value t) *
         (if auto_reverse (config t) && (r mod 2 =? 1)%Z
          then 1 - e1 else e1))%float ::
      (if update_callback t
            (start_value t + (end_value t - start_value t) *
             (if auto_reverse (config t) && (r mod 2 =? 1)%Z
              then 1 - e1 else e1))%float
       then [ErrorPrinted i] else []) ++
      completion_events i t /\
  is_animating (animation_id t)
    (run_thread math_pow math_sin i [now; n1; n2; n3] m) = false.
Proof.
  intros Ht Hat Hr Fd Pd Hle He.
  set (m' := run_thread math_pow math_sin i [now; n1; n2; n3] m).
  destruct (step_thread_at math_pow math_sin i now m t Ht) as [H1 L1].
  rewrite (late_tick _ _ _ _ _ _ _ _ Hat Fd Pd Hle He) in H1, L1.
  simpl in H1, L1.
  destruct (loop_exit math_pow math_sin i n1 n2 n3 _ _ (r + 1)%Z H1 eq_refl Hr)
    as [H2 L2].
  rewrite set_at_set_at in H2.
  assert (Em : m' = run_thread math_pow math_sin i [n1; n2; n3]
                      (step_thread math_pow math_sin i now m)) by done.
  split; [by rewrite Em |]. split.
  - rewrite Em, L2, L1, <- app_assoc. done.
  - destruct (run_thread_unregisters math_pow math_sin i [now; n1; n2; n3]
                m t Ht) as (t' & Ht' & _ & Hp).
    { by rewrite Hat. }
    fold m' in Ht', Hp. rewrite Em, H2 in Ht'. injection Ht' as <-.
    rewrite is_animating_lookup, Hp; done.
Qed.

(** X10: The natural end of an animation: in its last iteration, the tick that
    finds the duration elapsed delivers the value at raw progress [1.0];
    three steps later the thread has removed its id from the registry,
    called the completion callback if there is one, and finished, without
    another update. *)
Theorem last_tick_completes_animation math_pow math_sin (i : nat)
    (m : manager) (t : thread) (r : Z) (st e1 now n1 n2 n3 : float) :
  threads m !! i = Some t -> at_ t = AtTick r st ->
  (repeat_count (config t) <= r + 1)%Z ->
  is_finite (duration (config t)) = true ->
  (0 <? duration (config t))%float = true ->
  fle (duration (config t)) (now - st) ->
  easing_func math_pow math_sin (easing (config t)) 1 = Ok e1 ->
  let v := (start_value t + (end_value t - start_value t) *
            (if auto_reverse (config t) && (r mod 2 =? 1)%Z
             then 1 - e1 else e1))%float in
  let m' := run_thread math_pow math_sin i [now; n1; n2; n3] m in
  threads m' !! i = Some (set_at Finished t) /\
  log m' = log m ++
           UpdateCalled i 1 v ::
           (if update_callback t v then [ErrorPrinted i] else []) ++
           completion_events i t /\
  is_animating (animation_id t) m' = false.
Proof.
  intros Ht Hat Hr Fd Pd Hle He v m'.
  by apply (last_tick_run math_pow math_sin i m t r st e1).
Qed.

Lemma last_tick_completes_animation_witness :
  log (run_thread pow_by_mul sin_unavailable 0 [11.5; 11.5; 11.5; 11.5]%float
         {| _active_animations := {[ "fade" := 0%nat ]};
            threads :=
              [set_at (AtTick 0 10)
                 (fresh_thread "fade" 0 100 never_raises one_second_linear
                    (Some false))];
            log := [] |})
  = [UpdateCalled 0 1 100; CompletionCalled 0].
Proof.
  apply (last_tick_completes_animation pow_by_mul sin_unavailable 0%nat
           {| _active_animations := {[ "fade" := 0%nat ]};
              threads :=
                [set_at (AtTick 0 10)
                   (fresh_thread "fade" 0 100 never_raises one_second_linear
                      (Some false))];
              log := [] |}
           _ 0%Z 10%float 1%float 11.5%float 11.5%float 11.5%float
           11.5%float eq_refl eq_refl);
    [simpl; lia | reflexivity..].
Defined.

(** X15: A tick of a property thread that reads the clock a duration or more
    after the thread's start is its last: with a finite positive duration,
    it writes the value interpolated at the easing of [1.0] to the
    property, calls [update_appearance] once, and the thread ends without
    another step. *)
Theorem property_thread_last_tick (th : nat) (now : float) (s : stage)
    (t : property_thread) (st e1 : float) :
  property_threads (self s) !! th = Some t -> place th s = PtTick st ->
  is_finite (pt_duration t) = true -> (0 <? pt_duration t)%float = true ->
  fle (pt_duration t) (now - st) ->
  pt_easing_function t 1 = Ok e1 ->
  pt_property_name t ∉ guarded_names ->
  attributes (self s) !! "update_appearance" = None ->
  let v := (pt_start_value t + (pt_end_value t - pt_start_value t) * e1)%float
  in
  attributes (self (_animate_property_thread th now s)) !! pt_property_name t
    = Some (VFloat v) /\
  appearance_updates (self (_animate_property_thread th now s))
    = S (appearance_updates (self s)) /\
  writes (_animate_property_thread th now s)
    = writes s ++ [(th, pt_property_name t, v)] /\
  place th (_animate_property_thread th now s) = PtFinished /\
  forall now',
    _animate_property_thread th now' (_animate_property_thread th now s)
    = _animate_property_thread th now s.
Proof.
  intros Ht Hp Fd Pd Hle He Hname Hup v.
  assert (Hne : pt_property_name t <> "update_appearance" /\
                pt_property_name t <> "_current_animations" /\
                pt_property_name t <> "__class__" /\
                pt_property_name t <> "__dict__" /\
                pt_property_name t <> "__weakref__").
  { unfold guarded_names in Hname. rewrite !not_elem_of_cons in Hname. tauto. }
  destruct Hne as (N1 & N2 & N3 & N4 & N5).
  assert (Hs : _animate_property_thread th now s
               = {| self :=
                      {| attributes :=
                           <[pt_property_name t := VFloat v]>
                             (attributes (self s));
                         property_threads := property_threads (self s);
                         appearance_updates := S (appearance_updates (self s)) |};
                    places := <[th := PtFinished]> (places s);
                    writes := writes s ++ [(th, pt_property_name t, v)] |}).
  { unfold _animate_property_thread. rewrite Ht, Hp.
    unfold property_value, py_div. rewrite (positive_nonzero _ Fd Pd). simpl.
    rewrite (elapsed_duration_progress _ _ Fd Pd Hle), He. simpl. fold v.
    unfold object_setattr. rewrite !bool_decide_eq_false_2 by done. simpl.
    unfold call_update_appearance. simpl.
    rewrite lookup_insert_ne by done. by rewrite Hup. }
  rewrite Hs. simpl. split; [apply lookup_insert_eq |]. split; [done |].
  split; [done |]. split.
  - unfold place. simpl. by rewrite lookup_insert_eq.
  - intros now'. unfold _animate_property_thread at 1. simpl. rewrite Ht.
    unfold place. simpl. by rewrite lookup_insert_eq.
Qed.

Lemma property_thread_last_tick_witness :
  attributes
    (self (steps [(0%nat, 10%float); (0%nat, 10%float); (0%nat, 11%float)]
             (on_stage fading_widget))) !! "opacity"
  = Some (VFloat 1).
Proof.
  apply (property_thread_last_tick 0 11%float
           (steps [(0%nat, 10%float); (0%nat, 10%float)]
              (on_stage fading_widget))
           fading_thread 10%float 1%float); try reflexivity.
  apply (bool_decide_unpack _). vm_compute. exact I.
Defined.

(** ** The configurations for common patterns *)

Lemma helper_config_fields (h : helper_call) :
  fps (config_of h) = 60%Z /\ repeat_count (config_of h) = 1%Z /\
  auto_reverse (config_of h) = false.
Proof.
  destruct h; simpl; try done;
    unfold create_checkbox_animation, create_switch_animation;
    repeat match goal with
           | |- context [if ?b then _ else _] => destruct b
           end; done.
Qed.

(** X11: An animation started with a configuration made by one of the
    [create_*_animation] functions passes the set-up of the loop (the frame
    rate is 60) and plays one iteration forward.  With a finite positive
    duration, if its first tick comes a duration or more after the start of
    the iteration, it delivers one update, the value at raw progress
    [1.0], then removes its id from the registry, calls the completion
    callback if there is one, and finishes. *)
Theorem helper_animation_plays_once math_pow math_sin (h : helper_call)
    (id : string) (s e : float) (u : float -> bool) (k : option bool)
    (m : manager) (n0 st n2 late n4 n5 n6 e1 : float) :
  is_finite (duration (config_of h)) = true ->
  (0 <? duration (config_of h))%float = true ->
  fle (duration (config_of h)) (late - st) ->
  easing_func math_pow math_sin (easing (config_of h)) 1 = Ok e1 ->
  exists m1, animate id s e u (Some (config_of h)) k m = Ok m1 /\
    let i := length (threads m) in
    let v := (s + (e - s) * e1)%float in
    let m' := run_thread math_pow math_sin i
                [n0; st; n2; late; n4; n5; n6] m1 in
    threads m' !! i
      = Some (set_at Finished (fresh_thread id s e u (config_of h) k)) /\
    log m' = log m ++
             UpdateCalled i 1 v :: (if u v then [ErrorPrinted i] else []) ++
             completion_events i (fresh_thread id s e u (config_of h) k) /\
    is_animating id m' = false.
Proof.
  intros Fd Pd Hle He.
  destruct (helper_config_fields h) as (Hfps & Hrc & Har).
  destruct (animate id s e u (Some (config_of h)) k m) as [m1|] eqn:E.
  2:{ rewrite animate_unfold in E. discriminate. }
  apply animate_shape in E as (_ & _ & Hnew & Hlog). simpl in Hnew.
  exists m1. split; [done |]. intros i v m'.
  set (t := fresh_thread id s e u (config_of h) k) in *.
  destruct (silent_step math_pow math_sin i n0 m1 t (AtFor 0) Hnew)
    as [H1 L1].
  { unfold _animation_loop. simpl. by rewrite Hfps. }
  destruct (silent_step math_pow math_sin i st _ _ (AtWhile 0 st) H1)
    as [H2 L2].
  { unfold _animation_loop. simpl. by rewrite Hrc. }
  rewrite set_at_set_at in H2.
  destruct (silent_step math_pow math_sin i n2 _ _ (AtTick 0 st) H2)
    as [H3 L3].
  { unfold _animation_loop. by simpl. }
  rewrite set_at_set_at in H3.
  destruct (last_tick_run math_pow math_sin i _ _ 0%Z st e1 late n4 n5 n6
              H3 eq_refl) as (H4 & L4 & R4); try done.
  { simpl. rewrite Hrc. lia. }
  assert (Em : m' = run_thread math_pow math_sin i [late; n4; n5; n6]
                      (run_thread math_pow math_sin i [n2]
                         (run_thread math_pow math_sin i [st]
                            (run_thread math_pow math_sin i [n0] m1))))
    by done.
  rewrite Em. split; [by rewrite H4 |]. split; [| exact R4].
  rewrite L4, L3, L2, L1, Hlog. simpl. rewrite Har. done.
Qed.

Lemma helper_animation_plays_once_witness :
  exists m1,
    animate "fade" 0 1 never_raises
      (Some (create_fade_animation 0 1 (Some 0.5%float))) (Some false)
      new_manager = Ok m1 /\
    log (run_thread pow_by_mul sin_unavailable 0
           [0; 10; 10; 11; 11; 11; 11]%float m1)
    = [UpdateCalled 0 1 1; CompletionCalled 0].
Proof.
  destruct (helper_animation_plays_once pow_by_mul sin_unavailable
              (Fade 0 1 (Some 0.5%float)) "fade" 0%float 1%float
              never_raises (Some false) new_manager
              0%float 10%float 10%float 11%float 11%float 11%float 11%float
              1%float)
    as (m1 & E & _ & L & _); [reflexivity.. |].
  exists m1. split; [exact E | exact L].
Defined.

(** * A negative duration *)

Section NegativeDivisor.
Local Open Scope Z_scope.

Lemma negative_finite (d : float) :
  is_finite d = true -> (d <? 0)%float = true ->
  exists md ed, Prim2SF d = S754_finite true md ed.
Proof.
  intros F P. apply is_finite_SF_spec in F. rewrite FloatAxioms.ltb_spec in P.
  change (Prim2SF 0) with (S754_zero false) in P.
  destruct (Prim2SF d) as [s | s | | s m e]; try discriminate.
  destruct s; [eauto | discriminate].
Qed.

Lemma SFdiv_negative (x : spec_float) (md : positive) (ed : Z) (kx : Z) :
  valid_binary x = true -> valid_binary (S754_finite true md ed) = true ->
  SFkey x = Some kx -> 0 <= kx ->
  exists kq, SFkey (SF64div x (S754_finite true md ed)) = Some kq /\ kq <= 0.
Proof.
  intros Vx Vd Kx Hk.
  assert (HI : 0 < INF) by (apply pow2_pos; done).
  destruct x as [sx | sx | | sx mx ex]; try discriminate; injection Kx as <-.
  - exists 0. by destruct sx.
  - destruct sx; simpl in Hk; [lia |]. exists (- INF). split; [done | lia].
  - pose proof (key_finite_lt_INF _ _ _ Vx) as Hkx.
    destruct sx; simpl in Hk; [lia |].
    pose proof (SFdiv_core_key true mx md ex ed Vx Vd) as H.
    unfold SF64div, SFdiv. simpl xorb.
    destruct (SFdiv_core_binary prec emax (Z.pos mx) ex (Z.pos md) ed)
      as [[mz ez] lz].
    rewrite H. eexists. split; [reflexivity |]. simpl.
    pose proof (round_pos_bounds
                  (Z.pos mx * 2 ^ (ex - emin) * 2 ^ (- emin))
                  (Z.pos md * 2 ^ (ed - emin))) as B.
    pose proof (key_finite_lt_INF _ _ _ Vd) as Hkd.
    assert (P : 0 < 2 ^ (- emin)) by (apply pow2_pos; done).
    assert (0 <= Z.pos mx * 2 ^ (ex - emin) * 2 ^ (- emin)) by nia.
    lia.
Qed.

(** The raw progress of a tick whose duration is negative: not above
    zero. *)
Lemma negative_duration_progress (now st d : float) :
  is_finite now = true -> is_finite st = true -> fle st now ->
  is_finite d = true -> (d <? 0)%float = true ->
  (1 <=? py_min ((now - st) / d) 1)%float = false.
Proof.
  intros Fn Fs Hle Fd Nd.
  destruct (negative_finite d Fd Nd) as (md & ed & Hd).
  apply leb_true_keys in Hle as (ks & kn & Ks & Kn & Hk).
  pose proof (sub_key now st kn ks Fn Fs Kn Ks) as Ke.
  assert (He : 0 <= round_signed (kn - ks)).
  { unfold round_signed. destruct (Z.ltb_spec (kn - ks) 0); [lia |].
    pose proof (round_pos_bounds (kn - ks) 1). lia. }
  assert (Vd : valid_binary (S754_finite true md ed) = true)
    by (rewrite <- Hd; apply Prim2SF_valid).
  destruct (SFdiv_negative (Prim2SF (now - st)) md ed
              (round_signed (kn - ks)) (Prim2SF_valid _) Vd Ke He)
    as (kq & Kq & Hq).
  assert (Kq' : fkey ((now - st) / d) = Some kq).
  { unfold fkey. rewrite FloatAxioms.div_spec, Hd. exact Kq. }
  rewrite (leb_keys 1 _ K1 _ fkey_one (py_min_key _ _ Kq')).
  apply Z.leb_gt. assert (0 < K1) by (apply pow2_pos; lia). lia.
Qed.
End NegativeDivisor.

Section NegativeDuration.
Variable math_pow : float -> float -> result float.
Variable math_sin : float -> result float.
Variable i : nat.
Variable r : Z.

Lemma negative_duration_step (x : float) (c : option float) (t : thread) :
  endless math_pow math_sin r t -> started_before r c (at_ t) ->
  is_finite x = true -> match c with Some c0 => fle c0 x | None => True end ->
  started_before r (Some x)
    (next (_animation_loop math_pow math_sin i x t)) /\
  unregisters (_animation_loop math_pow math_sin i x t) = false /\
  completions_of i (emitted (_animation_loop math_pow math_sin i x t)) = [].
Proof.
  intros (Hrun & Hr & Fd & Nd & Hfps & Hu & He) Hp Fx Hc.
  unfold _animation_loop. unfold started_before in *.
  destruct (at_ t) as [| r' | r' st | r' st | r' st | | | |]; try done.
  - subst r'. rewrite (proj2 (Z.ltb_lt _ _) Hr). simpl.
    repeat split; try done. exists x. split; [done | by apply fle_refl].
  - destruct Hp as (-> & Fs & c0 & -> & Hle). rewrite Hrun. simpl.
    repeat split; try done. exists x. split; [done |].
    by eapply fle_trans.
  - destruct Hp as (-> & Fs & c0 & -> & Hle).
    assert (Hsx : fle st x) by by eapply fle_trans.
    unfold current_value, py_div.
    assert (Hne : (duration (config t) =? 0)%float = false).
    { apply ltb_true_keys in Nd as (a & b & Ka & Kb & Hab).
      rewrite (eqb_keys _ _ _ _ Ka Kb). rewrite fkey_zero in Kb.
      injection Kb as <-. apply Z.eqb_neq. lia. }
    rewrite Hne. simpl.
    destruct (He (py_min ((x - st) / duration (config t)) 1)) as [e ->].
    simpl. rewrite Hu.
    rewrite (negative_duration_progress x st _ Fx Fs Hsx Fd Nd). simpl.
    repeat split; try done. exists x. eauto.
  - destruct Hp as (-> & Fs & c0 & -> & Hle). rewrite Hfps. simpl.
    repeat split; try done. exists x. split; [done |].
    by eapply fle_trans.
Qed.

Lemma negative_duration_run (nows : list float) :
  forall (c : option float) (m : manager) (t : thread),
  threads m !! i = Some t -> endless math_pow math_sin r t ->
  started_before r c (at_ t) ->
  clock_from c nows ->
  _active_animations (run_thread math_pow math_sin i nows m)
    = _active_animations m /\
  completions_of i (log (run_thread math_pow math_sin i nows m))
    = completions_of i (log m) /\
  exists p, threads (run_thread math_pow math_sin i nows m) !! i
            = Some (set_at p t) /\ in_loop r p = true.
Proof.
  induction nows as [| x nows IH]; intros c m t Ht He Hp Hc.
  - split; [done |]. split; [done |]. exists (at_ t). split.
    + simpl. rewrite Ht. f_equal. by destruct t.
    + unfold started_before in Hp.
      destruct (at_ t); try done; simpl; apply Z.eqb_eq; tauto.
  - destruct Hc as (Fx & Hcx & Hc).
    change (run_thread math_pow math_sin i (x :: nows) m)
      with (run_thread math_pow math_sin i nows
              (step_thread math_pow math_sin i x m)).
    destruct (negative_duration_step x c t He Hp Fx Hcx) as (Hp1 & Hu1 & Hc1).
    destruct (step_thread_at math_pow math_sin i x m t Ht) as [H1 L1].
    destruct (IH (Some x) _ _ H1) as (R2 & C2 & p & H2 & Hin); try done.
    split; [| split].
    + rewrite R2. unfold step_thread. rewrite Ht. simpl. by rewrite Hu1.
    + rewrite C2, L1. unfold completions_of in *.
      by rewrite List.filter_app, Hc1, app_nil_r.
    + exists p. by rewrite H2.
Qed.
End NegativeDuration.

(** X22: A negative duration is not refused and does not end: under a clock
    that does not go backwards, every tick finds a raw progress that is
    not above zero, so the thread stays in the iteration it has started.
    However long it runs, unless it is stopped or a callback or the easing
    function raises, it makes no completion call and its id stays
    registered. *)
Theorem negative_duration_never_ends math_pow math_sin (i : nat)
    (m : manager) (t : thread) (r : Z) (nows : list float) :
  threads m !! i = Some t -> at_ t = AtFor r ->
  (r < repeat_count (config t))%Z -> do_run t = true ->
  is_finite (duration (config t)) = true ->
  (duration (config t) <? 0)%float = true ->
  (fps (config t) <? 0)%Z = false ->
  (forall v, update_callback t v = false) ->
  (forall p, exists e,
     easing_func math_pow math_sin (easing (config t)) p = Ok e) ->
  steady_clock nows ->
  _active_animations (run_thread math_pow math_sin i nows m)
    = _active_animations m /\
  completions_of i
    (events_since (length (log m)) (run_thread math_pow math_sin i nows m))
    = [] /\
  exists p, threads (run_thread math_pow math_sin i nows m) !! i
            = Some (set_at p t) /\ in_loop r p = true.
Proof.
  intros Ht Hat Hr Hrun Fd Nd Hfps Hu He Hc.
  destruct (negative_duration_run math_pow math_sin i r nows None m t Ht)
    as (R & C & P); try done.
  { by rewrite Hat. }
  split; [done |]. split; [| done].
  destruct (run_log math_pow math_sin (map (Step i) nows) m _
              (run_thread_run math_pow math_sin i nows m)) as [l Hl].
  unfold events_since. rewrite Hl, drop_app_length.
  rewrite Hl in C. unfold completions_of in *.
  rewrite List.filter_app in C.
  by apply app_inv_head with (l := List.filter (is_completion_of i) (log m));
     rewrite app_nil_r.
Qed.

Lemma negative_duration_never_ends_witness :
  is_animating "fade"
    (run_thread pow_by_mul sin_unavailable 0 [10; 10; 11; 11; 11; 12; 12]%float
       {| _active_animations := {[ "fade" := 0%nat ]};
          threads :=
            [set_at (AtFor 0)
               (fresh_thread "fade" 0 100 never_raises negative_duration
                  (Some false))];
          log := [] |})
  = true.
Proof.
  destruct (negative_duration_never_ends pow_by_mul sin_unavailable 0%nat
              {| _active_animations := {[ "fade" := 0%nat ]};
                 threads :=
                   [set_at (AtFor 0)
                      (fresh_thread "fade" 0 100 never_raises
                         negative_duration (Some false))];
                 log := [] |}
              _ 0%Z [10; 10; 11; 11; 11; 12; 12]%float eq_refl eq_refl)
    as (R & _);
    [reflexivity | reflexivity | reflexivity | reflexivity | reflexivity |
     reflexivity | intros p; exists p; reflexivity |
     repeat split; reflexivity |].
  rewrite is_animating_lookup, R. reflexivity.
Defined.

(** * The raw progress *)



